(** * Route construction engine of the multi-city routing application

    A shallow embedding of the core of [src/app.py]: the geometric fallback
    of the distance oracle ([haversine_distance]), the matrix builder
    restricted to a given oracle ([build_matrices]) and the greedy dispatch
    engine ([run_vrptw] with its nested helpers [travel_time_minutes],
    [dist_between] and [simulate_vehicle]).

    Modelling conventions.
    - The numbers of the program are binary64 floating-point numbers.  The
      equations of a single step, the scenarios and the properties of the
      oracle, the matrix builder and the summary are stated on real numbers
      ([R]), with the decidable comparisons of the real line and a
      [datetime] read as a real number of minutes.  What depends on how the
      subtractions round, the bounds on capacity and on remaining
      quantities and the run whose deliveries are absorbed, is stated on
      the engine over the primitive binary64 numbers ([Binary64]), where a [datetime] is a
      number of microseconds and [strptime] and the addition of a
      [timedelta] are taken as given.
    - A Python [dict] is an association list in insertion order; assigning
      to an existing key keeps the key's position ([dict_set]).
    - [list.index], the matrix look-up and the dictionary look-up may raise;
      every engine function returns a [result].
    - A [while] loop takes a number of iterations it may perform ([fuel]);
      running out is the distinct result [OutOfFuel]. *)

From Stdlib Require Import Floats ZArith.
From Stdlib Require Import Reals Lra Lia List String Bool Arith.
Import ListNotations.

Open Scope R_scope.

(** ** Results of fallible computations *)

Inductive exn : Type :=
| ValueError   (* list.index on an absent element *)
| IndexError   (* matrix access out of range *)
| KeyError     (* dict access on an absent key *)
| OverflowError. (* a date or duration out of range *)

Inductive result (A : Type) : Type :=
| Ok (a : A)
| Raise (e : exn)
| OutOfFuel.

Arguments Ok {A} a.
Arguments Raise {A} e.
Arguments OutOfFuel {A}.

Definition bind {A B : Type} (m : result A) (k : A -> result B) : result B :=
  match m with
  | Ok a => k a
  | Raise e => Raise e
  | OutOfFuel => OutOfFuel
  end.

Notation "x <- m ;; k" := (bind m (fun x => k))
  (at level 61, m at next level, right associativity).

Definition terminates {A : Type} (m : result A) : Prop :=
  match m with OutOfFuel => False | _ => True end.

(** ** Dictionaries in insertion order *)

Section Dict.
Context {K V : Type}.
Variable eqb : K -> K -> bool.

Fixpoint dict_get (k : K) (d : list (K * V)) : option V :=
  match d with
  | [] => None
  | (k', v) :: d' => if eqb k' k then Some v else dict_get k d'
  end.

(** [d[k] = v]: overwrite in place, or append a new key. *)
Fixpoint dict_set (k : K) (v : V) (d : list (K * V)) : list (K * V) :=
  match d with
  | [] => [(k, v)]
  | (k', v') :: d' =>
      if eqb k' k then (k', v) :: d' else (k', v') :: dict_set k v d'
  end.

Definition dict_keys (d : list (K * V)) : list K := map fst d.
Definition dict_values (d : list (K * V)) : list V := map snd d.
End Dict.

(** ** Data model *)

Definition city := string.
Definition instant := R.   (* minutes *)

Record vehicle : Type := {
  v_id : nat;
  v_capacity : R;
  v_start : instant          (* strptime(startDate + " " + startTime) *)
}.

Record demand : Type := {
  d_city : city;
  d_demand : R;
  d_tw_start : string;
  d_tw_end : string
}.

Record leg : Type := {
  l_from : city;
  l_to : city;
  l_depart : instant;
  l_arrive : instant;
  l_deliver : R;
  l_unload : R;
  l_distance : R
}.

(** [demands_copy]: city name to remaining quantity. *)
Definition store := list (city * R).

Definition store_get (c : city) (d : store) : option R := dict_get String.eqb c d.
Definition store_set (c : city) (r : R) (d : store) : store := dict_set String.eqb c r d.

(** ** Distance oracle: geometric fallback *)

Definition radians (x : R) : R := x * PI / 180.

Definition haversine_distance (c1 c2 : R * R) : R * R :=
  let '(lat1, lon1) := c1 in
  let '(lat2, lon2) := c2 in
  let lat1 := radians lat1 in
  let lon1 := radians lon1 in
  let lat2 := radians lat2 in
  let lon2 := radians lon2 in
  let dlat := lat2 - lat1 in
  let dlon := lon2 - lon1 in
  let a := sin (dlat / 2) ^ 2 + cos lat1 * cos lat2 * sin (dlon / 2) ^ 2 in
  let c := 2 * asin (sqrt a) in
  let r := 6371 in
  let distance_km := r * c in
  let time_minutes := (distance_km * 1.3 / 50) * 60 in
  (distance_km * 1.3, time_minutes).

(** ** Matrix builder

    [get_coordinates] (the external resolver) and the oracle are taken as
    given; with [oracle := haversine_distance] this is the builder when the
    remote routing service is unavailable. *)

Fixpoint mapM {A B : Type} (f : A -> result B) (l : list A) : result (list B) :=
  match l with
  | [] => Ok []
  | x :: l' => y <- f x ;; ys <- mapM f l' ;; Ok (y :: ys)
  end.

Definition enumerate {A : Type} (l : list A) : list (nat * A) :=
  combine (seq 0 (List.length l)) l.

Section Matrix.
Variable get_coordinates : city -> result (R * R).
Variable oracle : R * R -> R * R -> R * R.

Definition coordinates := list (city * (R * R)).

(** [for i, city in enumerate(cities): coords[city] = get_coordinates(city)] *)
Fixpoint fetch_coordinates (cs : list city) (coords : coordinates) : result coordinates :=
  match cs with
  | [] => Ok coords
  | c :: cs' => p <- get_coordinates c ;;
                fetch_coordinates cs' (dict_set String.eqb c p coords)
  end.

Definition coord_of (coords : coordinates) (c : city) : result (R * R) :=
  match dict_get String.eqb c coords with
  | Some p => Ok p
  | None => Raise KeyError
  end.

(** [D[i, j], _ = oracle(coords[cities[i]], coords[cities[j]])] when
    [i != j]; the diagonal keeps the zero of [np.zeros]. *)
Definition matrix_entry (coords : coordinates) (ic jc : nat * city) : result R :=
  if Nat.eqb (fst ic) (fst jc) then Ok 0
  else a <- coord_of coords (snd ic) ;;
       b <- coord_of coords (snd jc) ;;
       Ok (fst (oracle a b)).

Definition build_matrices (supply_location : city) (ds : list demand)
  : result (list city * coordinates * list (list R)) :=
  let cities := supply_location :: map d_city ds in
  coords <- fetch_coordinates cities [] ;;
  D <- mapM (fun ic => mapM (matrix_entry coords ic) (enumerate cities))
            (enumerate cities) ;;
  Ok (cities, coords, D).
End Matrix.

(** ** Dispatch engine *)

Definition SPEED_KMPH : R := 60.
Definition UNLOAD_MIN_PER_100KG : R := 30.

(** [cities.index(a)] *)
Fixpoint index (a : city) (cities : list city) : result nat :=
  match cities with
  | [] => Raise ValueError
  | c :: cs => if String.eqb c a then Ok 0%nat
               else i <- index a cs ;; Ok (S i)
  end.

Definition matrix_get (m : list (list R)) (i j : nat) : result R :=
  match nth_error m i with
  | None => Raise IndexError
  | Some row => match nth_error row j with
                | None => Raise IndexError
                | Some x => Ok x
                end
  end.

(** The local state of [simulate_vehicle], together with the shared
    dictionary of remaining quantities it mutates. *)
Record sim : Type := {
  time_var : instant;
  location : city;
  capacity : R;
  route : list leg;
  demands : store
}.

(** One evaluation of the [while] condition and, when it holds, of the body. *)
Inductive iteration : Type :=
| Continue (s : sim)     (* the body ran to its end *)
| Satisfied              (* the condition [remaining > 0] is false *)
| Abandon.               (* [break] *)

Section Engine.
Variable cities : list city.
Variable distance_matrix : list (list R).
Variable depot : city.

Definition dist_between (a b : city) : result R :=
  i <- index a cities ;;
  j <- index b cities ;;
  matrix_get distance_matrix i j.

Definition travel_time_minutes (a b : city) : result R :=
  i <- index a cities ;;
  j <- index b cities ;;
  d <- matrix_get distance_matrix i j ;;
  Ok ((d / SPEED_KMPH) * 60).

Definition remaining (c : city) (d : store) : result R :=
  match store_get c d with
  | Some r => Ok r
  | None => Raise KeyError
  end.

Definition while_body (v : vehicle) (c : city) (s : sim) : result iteration :=
  rem <- remaining c (demands s) ;;
  if Rlt_dec 0 rem then
    if Rlt_dec 0 (capacity s) then
      travel_min <- travel_time_minutes (location s) c ;;
      let arrive := time_var s + travel_min in
      let deliver := Rmin (capacity s) rem in
      let unload := (deliver / 100) * UNLOAD_MIN_PER_100KG in
      dist <- dist_between (location s) c ;;
      Ok (Continue {|
        time_var := arrive + unload;
        location := c;
        capacity := capacity s - deliver;
        route := route s ++ [ {| l_from := location s; l_to := c;
                                 l_depart := time_var s; l_arrive := arrive;
                                 l_deliver := deliver; l_unload := unload;
                                 l_distance := dist |} ];
        demands := store_set c (rem - deliver) (demands s) |})
    else
      t1 <- travel_time_minutes (location s) depot ;;
      t2 <- travel_time_minutes depot c ;;
      let refill_time := t1 + t2 in
      new_vehicle_time <- travel_time_minutes depot c ;;
      if Rle_dec refill_time new_vehicle_time then
        back <- travel_time_minutes (location s) depot ;;
        let arrive_depot := time_var s + back in
        dist <- dist_between (location s) depot ;;
        Ok (Continue {|
          time_var := arrive_depot;
          location := depot;
          capacity := v_capacity v;
          route := route s ++ [ {| l_from := location s; l_to := depot;
                                   l_depart := time_var s; l_arrive := arrive_depot;
                                   l_deliver := 0; l_unload := 0;
                                   l_distance := dist |} ];
          demands := demands s |})
      else Ok Abandon
  else Ok Satisfied.

(** [while demands[city]['remaining'] > 0: ...] *)
Fixpoint while_city (fuel : nat) (v : vehicle) (c : city) (s : sim) : result sim :=
  match fuel with
  | O => OutOfFuel
  | S fuel' =>
      it <- while_body v c s ;;
      match it with
      | Continue s' => while_city fuel' v c s'
      | Satisfied => Ok s
      | Abandon => Ok s
      end
  end.

(** [for city in demand_cities: ...] *)
Fixpoint for_cities (fuel : nat) (v : vehicle) (cs : list city) (s : sim) : result sim :=
  match cs with
  | [] => Ok s
  | c :: cs' => s' <- while_city fuel v c s ;; for_cities fuel v cs' s'
  end.

(** The closing [if location != depot: ...]. *)
Definition close_route (s : sim) : result sim :=
  if String.eqb (location s) depot then Ok s
  else
    back <- travel_time_minutes (location s) depot ;;
    let arrive_depot := time_var s + back in
    dist <- dist_between (location s) depot ;;
    Ok {| time_var := time_var s;
          location := location s;
          capacity := capacity s;
          route := route s ++ [ {| l_from := location s; l_to := depot;
                                   l_depart := time_var s; l_arrive := arrive_depot;
                                   l_deliver := 0; l_unload := 0;
                                   l_distance := dist |} ];
          demands := demands s |}.

(** The legs and states the loop body builds, named. *)
Definition delivery_leg (s : sim) (c : city) (rem travel_min d : R) : leg :=
  {| l_from := location s; l_to := c;
     l_depart := time_var s; l_arrive := time_var s + travel_min;
     l_deliver := Rmin (capacity s) rem;
     l_unload := (Rmin (capacity s) rem / 100) * UNLOAD_MIN_PER_100KG;
     l_distance := d |}.

Definition return_leg (s : sim) (back d : R) : leg :=
  {| l_from := location s; l_to := depot;
     l_depart := time_var s; l_arrive := time_var s + back;
     l_deliver := 0; l_unload := 0; l_distance := d |}.

Definition after_delivery (s : sim) (c : city) (rem travel_min d : R) : sim :=
  {| time_var := time_var s + travel_min
                 + (Rmin (capacity s) rem / 100) * UNLOAD_MIN_PER_100KG;
     location := c;
     capacity := capacity s - Rmin (capacity s) rem;
     route := route s ++ [delivery_leg s c rem travel_min d];
     demands := store_set c (rem - Rmin (capacity s) rem) (demands s) |}.

Definition after_refill (v : vehicle) (s : sim) (back d : R) : sim :=
  {| time_var := time_var s + back;
     location := depot;
     capacity := v_capacity v;
     route := route s ++ [return_leg s back d];
     demands := demands s |}.

Definition after_close (s : sim) (back d : R) : sim :=
  {| time_var := time_var s;
     location := location s;
     capacity := capacity s;
     route := route s ++ [return_leg s back d];
     demands := demands s |}.

(** An iteration that runs the body to its end, as a relation. *)
Inductive body_step (v : vehicle) (c : city) (s : sim) : sim -> Prop :=
| step_delivery rem travel_min d :
    store_get c (demands s) = Some rem ->
    0 < rem -> 0 < capacity s ->
    travel_time_minutes (location s) c = Ok travel_min ->
    dist_between (location s) c = Ok d ->
    body_step v c s (after_delivery s c rem travel_min d)
| step_refill rem back t2 d :
    store_get c (demands s) = Some rem ->
    0 < rem -> ~ 0 < capacity s ->
    travel_time_minutes (location s) depot = Ok back ->
    travel_time_minutes depot c = Ok t2 ->
    back + t2 <= t2 ->
    dist_between (location s) depot = Ok d ->
    body_step v c s (after_refill v s back d).

(** The states the simulation of a vehicle passes through from [s0]. *)
Inductive visits (v : vehicle) (s0 : sim) : sim -> Prop :=
| visits_start : visits v s0 s0
| visits_step c s s' :
    visits v s0 s -> body_step v c s s' -> visits v s0 s'.

(** The dictionaries a run can pass through: those reached from [d] by
    iterations of the loop body, of any vehicle at any city. *)
Inductive evolves (d : store) : store -> Prop :=
| evolves_refl : evolves d d
| evolves_step v c s s' :
    evolves d (demands s) -> body_step v c s s' -> evolves d (demands s').

Definition start_sim (v : vehicle) (d : store) : sim :=
  {| time_var := v_start v; location := depot; capacity := v_capacity v;
     route := []; demands := d |}.

(** Returns the route and the dictionary as the call leaves it. *)
Definition simulate_vehicle (fuel : nat) (v : vehicle) (d : store)
  : result (list leg * store) :=
  s <- for_cities fuel v (dict_keys d) (start_sim v d) ;;
  s' <- close_route s ;;
  Ok (route s', demands s').

Definition solution := list (nat * list leg).

(** [any(d['remaining'] > 0 for d in demands_copy.values())] *)
Definition any_remaining (d : store) : bool :=
  existsb (fun r => if Rlt_dec 0 r then true else false) (dict_values d).

Definition is_empty (r : list leg) : bool :=
  match r with [] => true | _ => false end.

(** [for v in vehicles: ...], on the shared dictionary. *)
Fixpoint run_vehicles (fuel : nat) (vs : list vehicle) (d : store) (sol : solution)
  : result (solution * store) :=
  match vs with
  | [] => Ok (sol, d)
  | v :: vs' =>
      if any_remaining d then
        rd <- simulate_vehicle fuel v d ;;
        let '(r, d') := rd in
        run_vehicles fuel vs' d' (if is_empty r then sol else dict_set Nat.eqb (v_id v) r sol)
      else run_vehicles fuel vs' d sol
  end.

(** [{d['city']: {'remaining': d['demand']} for d in demands}] *)
Definition demands_copy (ds : list demand) : store :=
  fold_left (fun acc d => store_set (d_city d) (d_demand d) acc) ds [].

(** The plan together with the dictionary after the last vehicle. *)
Definition run_vrptw_state (fuel : nat) (vs : list vehicle) (ds : list demand)
  : result (solution * store) :=
  run_vehicles fuel vs (demands_copy ds) [].

Definition run_vrptw (fuel : nat) (vs : list vehicle) (ds : list demand)
  : result solution :=
  sd <- run_vrptw_state fuel vs ds ;; Ok (fst sd).
End Engine.

(** ** The planning run: matrix builder, then dispatch engine *)

Definition plan_routes (get_coordinates : city -> result (R * R))
    (oracle : R * R -> R * R -> R * R) (fuel : nat)
    (supply_location : city) (vs : list vehicle) (ds : list demand)
  : result solution :=
  m <- build_matrices get_coordinates oracle supply_location ds ;;
  let '(cities, _, D) := m in
  run_vrptw cities D supply_location fuel vs ds.

(** [generate_summary]: [(route[-1]['arrive'] - route[0]['depart'])], in
    minutes, and as [total_seconds() / 3600]. *)
Definition elapsed_minutes (r : list leg) : result R :=
  match r with
  | [] => Raise IndexError
  | l0 :: _ => Ok (l_arrive (last r l0) - l_depart l0)
  end.

Definition time_hours (r : list leg) : result R :=
  m <- elapsed_minutes r ;; Ok (m * 60 / 3600).

(** ** Quantities read off a route or a plan *)

Fixpoint delivered_to (c : city) (r : list leg) : R :=
  match r with
  | [] => 0
  | l :: r' => (if String.eqb (l_to l) c then l_deliver l else 0) + delivered_to c r'
  end.

Fixpoint plan_delivered (c : city) (sol : solution) : R :=
  match sol with
  | [] => 0
  | (_, r) :: sol' => delivered_to c r + plan_delivered c sol'
  end.

(** A refill or closing leg carries nothing; a delivery leg carries a
    positive quantity. *)
Definition is_return (l : leg) : bool :=
  if Req_dec_T (l_deliver l) 0 then true else false.

(** The quantity delivered on each maximal run of delivery legs, in route
    order; [acc] is the load of the run in progress. *)
Fixpoint segment_loads_from (acc : R) (r : list leg) : list R :=
  match r with
  | [] => [acc]
  | l :: r' => if is_return l then acc :: segment_loads_from 0 r'
               else segment_loads_from (acc + l_deliver l) r'
  end.

Definition segment_loads (r : list leg) : list R := segment_loads_from 0 r.

Definition remaining_of (c : city) (d : store) : R :=
  match store_get c d with Some r => r | None => 0 end.

Definition nonneg_legs (r : list leg) : Prop :=
  Forall (fun l => 0 <= l_deliver l) r.

Definition store_nonneg (d : store) : Prop :=
  forall c r, store_get c d = Some r -> 0 <= r.

(** Pointwise order on dictionaries with the same keys. *)
Definition store_le (d' d : store) : Prop :=
  dict_keys d' = dict_keys d /\
  forall c r, store_get c d = Some r ->
    exists r', store_get c d' = Some r' /\ r' <= r.

(** What a stretch of a run does to the dictionary and to the route, relative
    to the state it starts from. *)
Definition accounts (s0 s : sim) : Prop :=
  store_le (demands s) (demands s0) /\
  (store_nonneg (demands s0) -> store_nonneg (demands s)) /\
  (nonneg_legs (route s0) -> nonneg_legs (route s)) /\
  (forall x, delivered_to x (route s) + remaining_of x (demands s)
             = delivered_to x (route s0) + remaining_of x (demands s0)).


(** The loads of the finished runs are within [C], and the load of the
    run in progress together with the remaining capacity is [C]. *)
Definition capacity_ok (C : R) (s : sim) : Prop :=
  0 <= capacity s /\
  exists done cur,
    segment_loads (route s) = done ++ [cur] /\
    Forall (fun x => x <= C) done /\
    cur + capacity s = C.

(** Where a route that started at [depot] ends. *)
Definition final_stop (depot : city) (r : list leg) : city :=
  last (map l_to r) depot.

(** Every remaining quantity is at most [K] full loads of [C]. *)
Definition within_loads (K : nat) (C : R) (d : store) : Prop :=
  forall c r, store_get c d = Some r -> r <= INR K * C.

(** The demand of [c] is at most [k] full loads of [v]. *)
Definition loads_left (v : vehicle) (c : city) (k : nat) (s : sim) : Prop :=
  forall rem, store_get c (demands s) = Some rem -> rem <= INR k * v_capacity v.

(** From a full vehicle, [2 * k + 1] iterations settle a city that asks
    at most [k] full loads. *)
Definition fresh_terminates (cities : list city) (m : list (list R)) (depot : city)
    (v : vehicle) (c : city) (k : nat) : Prop :=
  forall s, capacity s = v_capacity v -> loads_left v c k s ->
            terminates (while_city cities m depot (2 * k + 1) v c s).

(** Every name the engine looks up is in [cities], and the matrix has an
    entry for every pair of indices of [cities]. *)
Definition lookups_defined (cities : list city) (m : list (list R))
    (depot : city) (d : store) : Prop :=
  In depot cities /\
  (forall c, In c (dict_keys d) -> In c cities) /\
  (forall i j, (i < List.length cities)%nat -> (j < List.length cities)%nat ->
     exists x, matrix_get m i j = Ok x).

(** The vehicle stands at a known location and the dictionary still has
    the keys of [d0]. *)
Definition on_map (cities : list city) (d0 : store) (s : sim) : Prop :=
  In (location s) cities /\ dict_keys (demands s) = dict_keys d0.

(** The record a city name's dictionary entry comes from. *)
Definition last_declared (c : city) (ds : list demand) : option R :=
  option_map d_demand (find (fun d => String.eqb (d_city d) c) (rev ds)).

(** ** The great-circle distance, as the haversine formula states it *)

Definition hav (theta : R) : R := (1 - cos theta) / 2.

Definition EARTH_RADIUS_KM : R := 6371.

Definition great_circle_km (c1 c2 : R * R) : R :=
  let phi1 := radians (fst c1) in
  let phi2 := radians (fst c2) in
  let lam1 := radians (snd c1) in
  let lam2 := radians (snd c2) in
  2 * EARTH_RADIUS_KM
    * asin (sqrt (hav (phi2 - phi1) + cos phi1 * cos phi2 * hav (lam2 - lam1))).

(** ** Scenarios *)

(** Fallback only: supply at (0, 0), one demand of 50 at (0, 1), one
    vehicle of capacity 1000 starting at [t0]. *)
Definition fb_coordinates (c : city) : result (R * R) :=
  if String.eqb c "Supply"%string then Ok (0, 0)
  else if String.eqb c "Demand"%string then Ok (0, 1)
  else Raise ValueError.

Definition fb_demands : list demand :=
  [ {| d_city := "Demand"%string; d_demand := 50;
       d_tw_start := "09:00"%string; d_tw_end := "17:00"%string |} ].

Definition fb_vehicles (t0 : instant) : list vehicle :=
  [ {| v_id := 1; v_capacity := 1000; v_start := t0 |} ].

Definition fb_plan (fuel : nat) (t0 : instant) : result solution :=
  plan_routes fb_coordinates haversine_distance fuel "Supply"%string (fb_vehicles t0) fb_demands.

(** The road distance of the fallback between the two points. *)
Definition fb_km : R := great_circle_km (0, 0) (0, 1) * 1.3.

(** Refill: vehicles of capacity 10, one city with demand 1000; [out] and
    [back] are the matrix distances depot to city and city to depot. *)
Definition rf_cities : list city := ["Depot"%string; "City"%string].

Definition rf_matrix (out back : R) : list (list R) := [[0; out]; [back; 0]].

Definition rf_demands : list demand :=
  [ {| d_city := "City"%string; d_demand := 1000;
       d_tw_start := "09:00"%string; d_tw_end := "17:00"%string |} ].

Definition rf_vehicle (id : nat) (t0 : instant) : vehicle :=
  {| v_id := id; v_capacity := 10; v_start := t0 |}.

(** The vehicle of the scenario once it has unloaded its 10 units. *)
Definition rf_exhausted (out : R) (t0 : instant) : sim :=
  after_delivery (start_sim "Depot"%string (rf_vehicle 1 t0) [("City"%string, 1000)])
                 "City"%string 1000 ((out / SPEED_KMPH) * 60) out.

(** The two legs of a vehicle of capacity 10 that starts at [t0], unloads
    10 and drives back. *)
Definition rf_leg_out (out : R) (t0 : instant) : leg :=
  {| l_from := "Depot"%string; l_to := "City"%string;
     l_depart := t0; l_arrive := t0 + (out / 60) * 60;
     l_deliver := 10; l_unload := 3; l_distance := out |}.

Definition rf_leg_back (out back : R) (t0 : instant) : leg :=
  {| l_from := "City"%string; l_to := "Depot"%string;
     l_depart := t0 + (out / 60) * 60 + 3;
     l_arrive := t0 + (out / 60) * 60 + 3 + (back / 60) * 60;
     l_deliver := 0; l_unload := 0; l_distance := back |}.

Definition rf_route (out back : R) (t0 : instant) : list leg :=
  [rf_leg_out out t0; rf_leg_back out back t0].

(** A vehicle of capacity 10 that has just unloaded at a city asking [q]. *)
Definition rf_unloaded (out : R) (t0 q : R) : sim :=
  {| time_var := t0 + (out / 60) * 60 + 3;
     location := "City"%string;
     capacity := 0;
     route := [rf_leg_out out t0];
     demands := [("City"%string, q - 10)] |}.

(** The two legs the fallback scenario is expected to produce. *)
Definition fb_leg_out (t0 : instant) : leg :=
  {| l_from := "Supply"%string; l_to := "Demand"%string;
     l_depart := t0; l_arrive := t0 + (fb_km / 60) * 60;
     l_deliver := 50; l_unload := 15; l_distance := fb_km |}.

Definition fb_leg_back (t0 : instant) : leg :=
  {| l_from := "Demand"%string; l_to := "Supply"%string;
     l_depart := t0 + (fb_km / 60) * 60 + 15;
     l_arrive := t0 + (fb_km / 60) * 60 + 15 + (fb_km / 60) * 60;
     l_deliver := 0; l_unload := 0; l_distance := fb_km |}.

Definition fb_route (t0 : instant) : list leg := [fb_leg_out t0; fb_leg_back t0].

Definition fb_cities : list city := ["Supply"%string; "Demand"%string].

Definition fb_matrix : list (list R) := [[0; fb_km]; [fb_km; 0]].


(** ** Shapes of routes *)

(** Each leg leaves from where, and when, the one before it ended: the
    first from [start] at [t], the next from the destination of the leg
    before, once it has arrived and unloaded. *)
Fixpoint chained (start : city) (t : instant) (r : list leg) : Prop :=
  match r with
  | [] => True
  | l :: r' => l_from l = start /\ l_depart l = t /\
               chained (l_to l) (l_arrive l + l_unload l) r'
  end.

Definition route_end (start : city) (t : instant) (r : list leg) : city * instant :=
  fold_left (fun _ l => (l_to l, l_arrive l + l_unload l)) r (start, t).

Fixpoint nondecreasing (ts : list R) : Prop :=
  match ts with
  | a :: ts' => match ts' with
                | b :: _ => a <= b /\ nondecreasing ts'
                | [] => True
                end
  | [] => True
  end.

(** Departure and arrival of every leg, in route order. *)
Definition timeline (r : list leg) : list R :=
  flat_map (fun l => [l_depart l; l_arrive l]) r.

Definition forward_leg (l : leg) : Prop :=
  l_depart l <= l_arrive l /\ 0 <= l_unload l.

Definition matrix_nonneg (m : list (list R)) : Prop :=
  forall i j x, matrix_get m i j = Ok x -> 0 <= x.

(** The vehicle's clock and position are where its route ends. *)
Definition on_schedule (depot : city) (v : vehicle) (s : sim) : Prop :=
  chained depot (v_start v) (route s) /\
  route_end depot (v_start v) (route s) = (location s, time_var s).

(** The sum of all remaining quantities. *)
Definition store_total (d : store) : R := fold_right Rplus 0 (dict_values d).

(** The vehicle can still serve everything that is left. *)
Definition can_serve_all (s : sim) : Prop :=
  Forall (fun r => 0 <= r) (dict_values (demands s)) /\
  store_total (demands s) <= capacity s.

(** The destinations of the delivery legs of a route, in route order. *)
Definition deliveries (r : list leg) : list city :=
  map l_to (filter (fun l => negb (is_return l)) r).

(** [ks] visits in a row to each city of [cs], city after city. *)
Definition visit_blocks (cs : list city) (ks : list nat) : list city :=
  flat_map (fun ck => repeat (fst ck) (snd ck)) (combine cs ks).

(** The vehicle stands at the depot without capacity, as it started. *)
Definition stuck_at_depot (depot : city) (d : store) (s : sim) : Prop :=
  location s = depot /\ capacity s <= 0 /\ demands s = d.

(** ** The oracle *)

(** The quantity [a] of [haversine_distance], whose square root goes into
    the arcsine. *)
Definition haversine_a (c1 c2 : R * R) : R :=
  let '(lat1, lon1) := c1 in
  let '(lat2, lon2) := c2 in
  sin ((radians lat2 - radians lat1) / 2) ^ 2
  + cos (radians lat1) * cos (radians lat2)
    * sin ((radians lon2 - radians lon1) / 2) ^ 2.

Definition valid_latitude (c : R * R) : Prop := -90 <= fst c <= 90.

(** What one request to the routing service comes back with. *)
Inductive response : Type :=
| RouteFound (meters seconds : R)   (* code "Ok", with the first route's figures *)
| NoRoute                            (* a reply whose code is not "Ok" *)
| TimedOut                           (* requests.exceptions.Timeout *)
| ConnectionFailed                   (* requests.exceptions.ConnectionError *)
| Failed.                            (* any other exception, bad or incomplete JSON included *)

(** What the call does that can be seen from outside. *)
Inductive event : Type :=
| Requested
| Slept (seconds : R).

(** [for attempt in range(max_retries): ...], with [todo] attempts left and
    [remote attempt] the outcome of the request of attempt [attempt]. *)
Fixpoint osrm_attempts (remote : nat -> response) (c1 c2 : R * R)
    (max_retries todo attempt : nat) : (R * R) * list event :=
  match todo with
  | O => (haversine_distance c1 c2, [])
  | S todo' =>
      match remote attempt with
      | RouteFound meters seconds => ((meters / 1000, seconds / 60), [Requested])
      | NoRoute =>
          let '(v, t) := osrm_attempts remote c1 c2 max_retries todo' (S attempt) in
          (v, Requested :: t)
      | TimedOut | ConnectionFailed =>
          let '(v, t) := osrm_attempts remote c1 c2 max_retries todo' (S attempt) in
          (v, Requested ::
              (if Nat.ltb attempt (max_retries - 1) then [Slept 2] else []) ++ t)
      | Failed => (haversine_distance c1 c2, [Requested])
      end
  end.

Definition get_osrm_distance_time (remote : nat -> response) (c1 c2 : R * R)
    (max_retries : nat) : (R * R) * list event :=
  osrm_attempts remote c1 c2 max_retries max_retries 0.

Definition requests (t : list event) : nat :=
  List.length (filter (fun e => match e with Requested => true | _ => false end) t).

Definition time_slept (t : list event) : R :=
  fold_right (fun e acc => match e with Slept s => s + acc | _ => acc end) 0 t.

Definition retryable (r : response) : Prop :=
  match r with
  | NoRoute | TimedOut | ConnectionFailed => True
  | _ => False
  end.

(** [sanitize_coord] *)
Definition sanitize_coord (coord : R * R) : R * R :=
  let '(a, b) := coord in
  if Rlt_dec 90 (Rabs a) then (b, a) else (a, b).

(** ** The summary: [generate_summary] up to its text *)

Record vehicle_stat : Type := {
  st_id : nat;
  st_route : list city;
  st_distance : R;
  st_time : R;
  st_avg_speed : R
}.

(** [if c not in visited: visited.append(c)] *)
Definition add_visit (visited : list city) (c : city) : list city :=
  if existsb (String.eqb c) visited then visited else visited ++ [c].

Definition visited_cities (r : list leg) : list city :=
  fold_left (fun visited l => add_visit (add_visit visited (l_from l)) (l_to l)) r [].

Definition route_distance (r : list leg) : R :=
  fold_left (fun dist l => dist + l_distance l) r 0.

Definition vehicle_stat_of (vid : nat) (r : list leg) : result vehicle_stat :=
  hours <- time_hours r ;;
  let dist := route_distance r in
  Ok {| st_id := vid; st_route := visited_cities r;
        st_distance := dist; st_time := hours;
        st_avg_speed := if Rlt_dec 0 hours then dist / hours else 0 |}.

Record summary : Type := {
  total_distance : R;
  max_time : R;
  bottleneck_vehicle : option nat;
  vehicle_stats : list vehicle_stat
}.

(** [for vid, route in solution.items(): ...] *)
Fixpoint summarize (sol : solution) (acc : summary) : result summary :=
  match sol with
  | [] => Ok acc
  | (vid, r) :: sol' =>
      st <- vehicle_stat_of vid r ;;
      summarize sol'
        {| total_distance := total_distance acc + st_distance st;
           max_time := if Rlt_dec (max_time acc) (st_time st)
                       then st_time st else max_time acc;
           bottleneck_vehicle := if Rlt_dec (max_time acc) (st_time st)
                                 then Some vid else bottleneck_vehicle acc;
           vehicle_stats := vehicle_stats acc ++ [st] |}
  end.

Definition generate_summary (sol : solution) : result summary :=
  summarize sol {| total_distance := 0; max_time := 0;
                   bottleneck_vehicle := None; vehicle_stats := [] |}.


(** What ties the bottleneck to the statistics gathered so far. *)
Definition bottleneck_ok (s : summary) : Prop :=
  0 <= max_time s /\
  Forall (fun st => st_time st <= max_time s) (vehicle_stats s) /\
  match bottleneck_vehicle s with
  | Some vid => 0 < max_time s /\
                exists st, In st (vehicle_stats s) /\ st_id st = vid /\
                           st_time st = max_time s
  | None => max_time s = 0
  end.

(** A leg takes the time of its distance at 60 km/h. *)
Definition at_speed (l : leg) : Prop :=
  l_arrive l - l_depart l = (l_distance l / 60) * 60 /\ 0 <= l_distance l.

(** ** The route text: the tag of a leg and whether its unload line shows *)

Inductive leg_tag : Type := RefillReturn | Delivery.

Definition tag_of (depot : city) (l : leg) : leg_tag :=
  if String.eqb (l_to l) depot then RefillReturn else Delivery.

Definition shows_unload (l : leg) : bool :=
  if Rlt_dec 0 (l_deliver l) then true else false.

Definition leg_kind_ok (depot : city) (l : leg) : Prop :=
  0 < l_deliver l \/ (l_deliver l = 0 /\ l_unload l = 0 /\ l_to l = depot).

(** ** Reading the vehicle rows: [process_vehicles]

    A text is a list of characters of an alphabet given with its equality,
    its white space ([str.isspace]), its comma and its line feed;
    [to_float] is [float], with [None] where it raises. *)

Section Parsing.
Variable char : Type.
Variable char_eqb : char -> char -> bool.
Variable is_space : char -> bool.
Variable comma : char.
Variable line_feed : char.
Variable to_float : list char -> option R.

Fixpoint lstrip (s : list char) : list char :=
  match s with
  | [] => []
  | c :: s' => if is_space c then lstrip s' else s
  end.

(** [s.strip()] *)
Definition strip (s : list char) : list char :=
  rev (lstrip (rev (lstrip s))).

(** [s.split(sep)] for a separator of one character. *)
Fixpoint split (sep : char) (s : list char) : list (list char) :=
  match s with
  | [] => [[]]
  | c :: s' =>
      if char_eqb c sep then [] :: split sep s'
      else match split sep s' with
           | p :: ps => (c :: p) :: ps
           | [] => [[c]]
           end
  end.

Record vehicle_row : Type := {
  row_id : nat;
  row_capacity : R;
  row_startDate : list char;
  row_startTime : list char
}.

(** The body of the loop over the lines, for line number [i]. *)
Definition vehicle_of_line (i : nat) (line : list char) : list vehicle_row :=
  match strip line with
  | [] => []
  | line' =>
      let parts := map strip (split comma line') in
      if Nat.leb 3 (List.length parts) then
        match to_float (nth 0 parts []) with
        | Some capacity =>
            [ {| row_id := i + 1; row_capacity := capacity;
                 row_startDate := nth 1 parts []; row_startTime := nth 2 parts [] |} ]
        | None => []
        end
      else []
  end.

Definition process_vehicles (vehicle_data : list char) : list vehicle_row :=
  match strip vehicle_data with
  | [] => []
  | data =>
      flat_map (fun il => vehicle_of_line (fst il) (snd il))
               (enumerate (split line_feed data))
  end.
End Parsing.

(** Strictly increasing, starting at [lo] or above. *)
Fixpoint increasing_from (lo : nat) (l : list nat) : Prop :=
  match l with
  | [] => True
  | x :: l' => (lo <= x)%nat /\ increasing_from (S x) l'
  end.
(** ** The dispatch engine on binary64 numbers

    The engine once more, with the numbers the program computes with: a
    Python [float] is a binary64 number ([PrimFloat.float]), all arithmetic
    rounds to nearest (ties to even) and comparisons are those of IEEE 754.
    Here [simulate_vehicle] starts with [datetime.strptime] and a
    [datetime] is a number of microseconds; [strptime] and
    [x + timedelta(minutes=m)], which may both raise, are taken as given. *)

(** A decimal literal stands for the nearest binary64 number, as it does
    in the program's source and in [float(text)]. *)
Set Warnings "-inexact-float".

(** The value of a finite binary64 number in units of [2 ^ -1074], the
    smallest positive one: every finite binary64 number is a whole number
    of these units. *)
Definition scaled (m e : Z) : Z := (m * 2 ^ (e + 1074))%Z.

Definition sval (x : spec_float) : Z :=
  match x with
  | S754_finite s m e => cond_Zopp s (scaled (Zpos m) e)
  | _ => 0%Z
  end.

Definition finite_sf (x : spec_float) : bool :=
  match x with
  | S754_zero _ | S754_finite _ _ _ => true
  | _ => false
  end.

Definition F2Z (x : float) : Z := sval (Prim2SF x).

(** Neither an infinity nor a NaN ([math.isfinite]). *)
Definition finite (x : float) : bool := finite_sf (Prim2SF x).

Module Binary64.

(** Microseconds since [datetime.min]. *)
Definition datetime := Z.

Record vehicle : Type := {
  v_id : nat;
  v_capacity : float;
  v_startDate : string;
  v_startTime : string
}.

Record demand : Type := {
  d_city : city;
  d_demand : float;
  d_tw_start : string;
  d_tw_end : string
}.

Record leg : Type := {
  l_from : city;
  l_to : city;
  l_depart : datetime;
  l_arrive : datetime;
  l_deliver : float;
  l_unload : float;
  l_distance : float
}.

Definition store := list (city * float).

Definition store_get (c : city) (d : store) : option float := dict_get String.eqb c d.
Definition store_set (c : city) (r : float) (d : store) : store := dict_set String.eqb c r d.

Definition SPEED_KMPH : float := 60%float.
Definition UNLOAD_MIN_PER_100KG : float := 30%float.

(** Python's [min(a, b)]: the first argument unless the second is smaller. *)
Definition min (a b : float) : float := if (b <? a)%float then b else a.

Definition matrix_get (m : list (list float)) (i j : nat) : result float :=
  match nth_error m i with
  | None => Raise IndexError
  | Some row => match nth_error row j with
                | None => Raise IndexError
                | Some x => Ok x
                end
  end.

Record sim : Type := {
  time_var : datetime;
  location : city;
  capacity : float;
  route : list leg;
  demands : store
}.

Inductive iteration : Type :=
| Continue (s : sim)
| Satisfied
| Abandon.

Section Engine.
Variable strptime : string -> result datetime.
Variable plus_minutes : datetime -> float -> result datetime.
Variable cities : list city.
Variable distance_matrix : list (list float).
Variable depot : city.

Definition dist_between (a b : city) : result float :=
  i <- index a cities ;;
  j <- index b cities ;;
  matrix_get distance_matrix i j.

Definition travel_time_minutes (a b : city) : result float :=
  i <- index a cities ;;
  j <- index b cities ;;
  d <- matrix_get distance_matrix i j ;;
  Ok ((d / SPEED_KMPH) * 60)%float.

Definition remaining (c : city) (d : store) : result float :=
  match store_get c d with
  | Some r => Ok r
  | None => Raise KeyError
  end.

Definition while_body (v : vehicle) (c : city) (s : sim) : result iteration :=
  rem <- remaining c (demands s) ;;
  if (0 <? rem)%float then
    if (0 <? capacity s)%float then
      travel_min <- travel_time_minutes (location s) c ;;
      arrive <- plus_minutes (time_var s) travel_min ;;
      let deliver := min (capacity s) rem in
      let unload := ((deliver / 100) * UNLOAD_MIN_PER_100KG)%float in
      dist <- dist_between (location s) c ;;
      time_var' <- plus_minutes arrive unload ;;
      Ok (Continue {|
        time_var := time_var';
        location := c;
        capacity := (capacity s - deliver)%float;
        route := route s ++ [ {| l_from := location s; l_to := c;
                                 l_depart := time_var s; l_arrive := arrive;
                                 l_deliver := deliver; l_unload := unload;
                                 l_distance := dist |} ];
        demands := store_set c (rem - deliver)%float (demands s) |})
    else
      t1 <- travel_time_minutes (location s) depot ;;
      t2 <- travel_time_minutes depot c ;;
      let refill_time := (t1 + t2)%float in
      new_vehicle_time <- travel_time_minutes depot c ;;
      if (refill_time <=? new_vehicle_time)%float then
        back <- travel_time_minutes (location s) depot ;;
        arrive_depot <- plus_minutes (time_var s) back ;;
        dist <- dist_between (location s) depot ;;
        Ok (Continue {|
          time_var := arrive_depot;
          location := depot;
          capacity := v_capacity v;
          route := route s ++ [ {| l_from := location s; l_to := depot;
                                   l_depart := time_var s; l_arrive := arrive_depot;
                                   l_deliver := 0%float; l_unload := 0%float;
                                   l_distance := dist |} ];
          demands := demands s |})
      else Ok Abandon
  else Ok Satisfied.

Fixpoint while_city (fuel : nat) (v : vehicle) (c : city) (s : sim) : result sim :=
  match fuel with
  | O => OutOfFuel
  | S fuel' =>
      it <- while_body v c s ;;
      match it with
      | Continue s' => while_city fuel' v c s'
      | Satisfied => Ok s
      | Abandon => Ok s
      end
  end.

Fixpoint for_cities (fuel : nat) (v : vehicle) (cs : list city) (s : sim) : result sim :=
  match cs with
  | [] => Ok s
  | c :: cs' => s' <- while_city fuel v c s ;; for_cities fuel v cs' s'
  end.

Definition close_route (s : sim) : result sim :=
  if String.eqb (location s) depot then Ok s
  else
    back <- travel_time_minutes (location s) depot ;;
    arrive_depot <- plus_minutes (time_var s) back ;;
    dist <- dist_between (location s) depot ;;
    Ok {| time_var := time_var s;
          location := location s;
          capacity := capacity s;
          route := route s ++ [ {| l_from := location s; l_to := depot;
                                   l_depart := time_var s; l_arrive := arrive_depot;
                                   l_deliver := 0%float; l_unload := 0%float;
                                   l_distance := dist |} ];
          demands := demands s |}.

Definition start_sim (start_dt : datetime) (v : vehicle) (d : store) : sim :=
  {| time_var := start_dt; location := depot; capacity := v_capacity v;
     route := []; demands := d |}.

Definition simulate_vehicle (fuel : nat) (v : vehicle) (d : store)
  : result (list leg * store) :=
  start_dt <- strptime (v_startDate v ++ " " ++ v_startTime v) ;;
  s <- for_cities fuel v (dict_keys d) (start_sim start_dt v d) ;;
  s' <- close_route s ;;
  Ok (route s', demands s').

Definition solution := list (nat * list leg).

Definition any_remaining (d : store) : bool :=
  existsb (fun r => (0 <? r)%float) (dict_values d).

Definition is_empty (r : list leg) : bool :=
  match r with [] => true | _ => false end.

Fixpoint run_vehicles (fuel : nat) (vs : list vehicle) (d : store) (sol : solution)
  : result (solution * store) :=
  match vs with
  | [] => Ok (sol, d)
  | v :: vs' =>
      if any_remaining d then
        rd <- simulate_vehicle fuel v d ;;
        let '(r, d') := rd in
        run_vehicles fuel vs' d' (if is_empty r then sol else dict_set Nat.eqb (v_id v) r sol)
      else run_vehicles fuel vs' d sol
  end.

Definition demands_copy (ds : list demand) : store :=
  fold_left (fun acc d => store_set (d_city d) (d_demand d) acc) ds [].

Definition run_vrptw_state (fuel : nat) (vs : list vehicle) (ds : list demand)
  : result (solution * store) :=
  run_vehicles fuel vs (demands_copy ds) [].

Definition run_vrptw (fuel : nat) (vs : list vehicle) (ds : list demand)
  : result solution :=
  sd <- run_vrptw_state fuel vs ds ;; Ok (fst sd).

(** An iteration that runs the body to its end. *)
Definition body_step (v : vehicle) (c : city) (s s' : sim) : Prop :=
  while_body v c s = Ok (Continue s').

(** The states the simulation of a vehicle passes through from [s0]. *)
Inductive visits (v : vehicle) (s0 : sim) : sim -> Prop :=
| visits_start : visits v s0 s0
| visits_step c s s' :
    visits v s0 s -> body_step v c s s' -> visits v s0 s'.

(** The dictionaries a run can pass through from [d]. *)
Inductive evolves (d : store) : store -> Prop :=
| evolves_refl : evolves d d
| evolves_step v c s s' :
    evolves d (demands s) -> body_step v c s s' -> evolves d (demands s').
End Engine.

(** The record a city name's dictionary entry comes from. *)
Definition last_declared (c : city) (ds : list demand) : option float :=
  option_map d_demand (find (fun d => String.eqb (d_city d) c) (rev ds)).

(** The exact sum, in units of [2 ^ -1074], of what the legs to [c]
    deliver. *)
Fixpoint delivered_to (c : city) (r : list leg) : Z :=
  match r with
  | [] => 0%Z
  | l :: r' => ((if String.eqb (l_to l) c then F2Z (l_deliver l) else 0) + delivered_to c r')%Z
  end.

Fixpoint plan_delivered (c : city) (sol : solution) : Z :=
  match sol with
  | [] => 0%Z
  | (_, r) :: sol' => (delivered_to c r + plan_delivered c sol')%Z
  end.

(** A refill or closing leg carries nothing. *)
Definition is_return (l : leg) : bool := (l_deliver l =? 0)%float.

(** The exact sum of what is delivered on each maximal run of delivery
    legs, in route order. *)
Fixpoint segment_loads_from (acc : Z) (r : list leg) : list Z :=
  match r with
  | [] => [acc]
  | l :: r' => if is_return l then acc :: segment_loads_from 0%Z r'
               else segment_loads_from (acc + F2Z (l_deliver l))%Z r'
  end.

Definition segment_loads (r : list leg) : list Z := segment_loads_from 0%Z r.

(** The capacity the legs of a route in progress leave of the declared
    capacity [C]: a leg that carries nothing is a refill, any other leg
    takes its quantity off what was left. *)
Fixpoint capacity_after (C acc : float) (r : list leg) : float :=
  match r with
  | [] => acc
  | l :: r' => capacity_after C (if is_return l then C else (acc - l_deliver l)%float) r'
  end.

(** What the legs of a route to [c] leave of the quantity [acc]. *)
Fixpoint remaining_after (c : city) (acc : float) (r : list leg) : float :=
  match r with
  | [] => acc
  | l :: r' =>
      remaining_after c (if String.eqb (l_to l) c then (acc - l_deliver l)%float else acc) r'
  end.

Fixpoint plan_remaining (c : city) (acc : float) (sol : solution) : float :=
  match sol with
  | [] => acc
  | (_, r) :: sol' => plan_remaining c (remaining_after c acc r) sol'
  end.

(** A finite quantity that is not negative. *)
Definition quantity (x : float) : Prop := finite x = true /\ (0 <=? x)%float = true.

(** A finite quantity between zero and [q]. *)
Definition within (q x : float) : Prop :=
  finite x = true /\ (0 <=? x)%float = true /\ (x <=? q)%float = true.

Definition store_ok (d : store) : Prop :=
  forall c r, store_get c d = Some r -> quantity r.

(** Same keys, and every entry of [d'] is a quantity within that of [d]. *)
Definition store_le (d' d : store) : Prop :=
  dict_keys d' = dict_keys d /\
  forall c r, store_get c d = Some r ->
    exists r', store_get c d' = Some r' /\ within r r'.

(** A leg delivers a quantity, within the entry of its destination in [d]
    when there is one. *)
Definition leg_ok (d : store) (l : leg) : Prop :=
  quantity (l_deliver l) /\
  forall q, store_get (l_to l) d = Some q -> within q (l_deliver l).

Definition plan_ok (d : store) (sol : solution) : Prop :=
  Forall (fun ir => Forall (leg_ok d) (snd ir)) sol.
End Binary64.

(** ** Dates and durations, as the library documents them

    [timedelta(minutes=m)] is [m] minutes rounded to the nearest
    microsecond, ties to even, and raises on a NaN, on an infinity and
    beyond 999999999 days; a [datetime] ranges from year 1 to the last
    microsecond of year 9999. *)

Definition round_half_even (n d : Z) : Z :=
  let q := (n / d)%Z in
  match (2 * (n mod d) ?= d)%Z with
  | Lt => q
  | Gt => (q + 1)%Z
  | Eq => if Z.even q then q else (q + 1)%Z
  end.

Definition MICROSECONDS_PER_MINUTE : Z := 60000000%Z.
Definition TIMEDELTA_MAX : Z := (999999999 * 86400000000 + 86399999999)%Z.
Definition DATETIME_MAX : Z := 315537897599999999%Z.

Definition timedelta_minutes (m : float) : result Z :=
  match Prim2SF m with
  | S754_nan => Raise ValueError
  | S754_infinity _ => Raise OverflowError
  | x =>
      let us := round_half_even (sval x * MICROSECONDS_PER_MINUTE) (2 ^ 1074) in
      if (Z.abs us <=? TIMEDELTA_MAX)%Z then Ok us else Raise OverflowError
  end.

Definition plus_minutes (t : Binary64.datetime) (m : float) : result Binary64.datetime :=
  us <- timedelta_minutes m ;;
  if ((0 <=? t + us) && (t + us <=? DATETIME_MAX))%Z then Ok (t + us)%Z
  else Raise OverflowError.

(** ** Scenarios on binary64 numbers *)

(** [strptime] on the one start used below, 2024-01-01 08:00. *)
Definition b64_strptime (text : string) : result Binary64.datetime :=
  if String.eqb text "2024-01-01 08:00"%string then Ok 63839692800000000%Z
  else Raise ValueError.

Definition b64_vehicle (id : nat) (cap : float) : Binary64.vehicle :=
  {| Binary64.v_id := id; Binary64.v_capacity := cap;
     Binary64.v_startDate := "2024-01-01"%string;
     Binary64.v_startTime := "08:00"%string |}.

Definition b64_demand (c : city) (q : float) : Binary64.demand :=
  {| Binary64.d_city := c; Binary64.d_demand := q;
     Binary64.d_tw_start := "09:00"%string; Binary64.d_tw_end := "17:00"%string |}.

(** One city, 60 km from the depot. *)
Definition b64_cities : list city := ["Depot"%string; "City"%string].

Definition b64_matrix : list (list float) := [[0; 60]; [60; 0]]%float.

(** Two cities, 60 km from the depot and from each other. *)
Definition b64_cities2 : list city := ["Depot"%string; "A"%string; "B"%string].

Definition b64_matrix2 : list (list float) :=
  [[0; 60; 60]; [60; 0; 60]; [60; 60; 0]]%float.

(** A demand at the supply location itself: the city list names it twice
    and every distance the engine reads is zero. *)
Definition b64_cities0 : list city := ["Pune"%string; "Pune"%string].

Definition b64_matrix0 : list (list float) := [[0; 0]; [0; 0]]%float.

(** A leg that starts [depart] microseconds after 08:00 and drives an
    hour. *)
Definition b64_leg (from to : city) (depart : Z) (deliver : float) : Binary64.leg :=
  {| Binary64.l_from := from; Binary64.l_to := to;
     Binary64.l_depart := (63839692800000000 + depart)%Z;
     Binary64.l_arrive := (63839692800000000 + depart + 3600000000)%Z;
     Binary64.l_deliver := deliver;
     Binary64.l_unload := (deliver / 100 * 30)%float;
     Binary64.l_distance := 60%float |}.

Definition b64_run (cities : list city) (m : list (list float)) (depot : city)
    (fuel : nat) (vs : list Binary64.vehicle) (ds : list Binary64.demand)
  : result Binary64.solution :=
  Binary64.run_vrptw b64_strptime plus_minutes cities m depot fuel vs ds.

(** * Properties *)

(** ** The result monad *)

Lemma bind_Ok_inv {A B : Type} (m : result A) (k : A -> result B) (b : B) :
  bind m k = Ok b -> exists a, m = Ok a /\ k a = Ok b.
Proof. destruct m; simpl; intros H; try discriminate. eauto. Qed.

Ltac bind_inv H :=
  let a := fresh "x" in
  let Ha := fresh "E" in
  apply bind_Ok_inv in H; destruct H as (a & Ha & H).

(** ** Dictionaries keyed by city names *)

Lemma store_get_set_same (c : city) (r : R) (d : store) :
  store_get c (store_set c r d) = Some r.
Proof.
  unfold store_get, store_set.
  induction d as [|[k w] d IH]; simpl.
  - now rewrite String.eqb_refl.
  - destruct (String.eqb k c) eqn:E; simpl; rewrite E; auto.
Qed.

Lemma store_get_set_other (c c' : city) (r : R) (d : store) :
  c <> c' -> store_get c' (store_set c r d) = store_get c' d.
Proof.
  unfold store_get, store_set. intros Hne.
  induction d as [|[k w] d IH]; simpl.
  - apply String.eqb_neq in Hne. now rewrite Hne.
  - destruct (String.eqb k c) eqn:E; simpl.
    + apply String.eqb_eq in E. subst k.
      apply String.eqb_neq in Hne. now rewrite Hne.
    + now rewrite IH.
Qed.

Lemma store_get_set (c c' : city) (r : R) (d : store) :
  store_get c' (store_set c r d) = if String.eqb c c' then Some r else store_get c' d.
Proof.
  destruct (String.eqb c c') eqn:E.
  - apply String.eqb_eq in E. subst. apply store_get_set_same.
  - apply String.eqb_neq in E. now apply store_get_set_other.
Qed.

Lemma store_keys_set_present (c : city) (r r0 : R) (d : store) :
  store_get c d = Some r0 -> dict_keys (store_set c r d) = dict_keys d.
Proof.
  unfold store_get, store_set, dict_keys.
  induction d as [|[k w] d IH]; simpl; try discriminate.
  destruct (String.eqb k c) eqn:E; simpl; auto.
  intros H. now rewrite IH.
Qed.

Lemma store_get_in_keys (c : city) (d : store) :
  In c (dict_keys d) <-> exists r, store_get c d = Some r.
Proof.
  unfold store_get, dict_keys.
  induction d as [|[k w] d IH]; simpl.
  - split; [tauto | intros [r H]; discriminate].
  - destruct (String.eqb k c) eqn:E.
    + apply String.eqb_eq in E. split; eauto.
    + apply String.eqb_neq in E. rewrite <- IH. tauto.
Qed.

Lemma store_keys_set_absent (c : city) (r : R) (d : store) :
  store_get c d = None -> dict_keys (store_set c r d) = dict_keys d ++ [c].
Proof.
  unfold store_get, store_set, dict_keys.
  induction d as [|[k w] d IH]; simpl; auto.
  destruct (String.eqb k c) eqn:E; simpl; try discriminate.
  intros H. now rewrite IH.
Qed.

Lemma store_get_values (c : city) (r : R) (d : store) :
  store_get c d = Some r -> In r (dict_values d).
Proof.
  unfold store_get, dict_values.
  induction d as [|[k w] d IH]; simpl; try discriminate.
  destruct (String.eqb k c); intros H; [injection H; auto | auto].
Qed.

(** ** One iteration of the inner loop *)

Section EngineFacts.
Variable cities : list city.
Variable distance_matrix : list (list R).
Variable depot : city.

Abbreviation tt := (travel_time_minutes cities distance_matrix).
Abbreviation dist := (dist_between cities distance_matrix).
Abbreviation body := (while_body cities distance_matrix depot).
Abbreviation step := (body_step cities distance_matrix depot).
Abbreviation while_c := (while_city cities distance_matrix depot).
Abbreviation for_c := (for_cities cities distance_matrix depot).
Abbreviation close := (close_route cities distance_matrix depot).
Abbreviation simulate := (simulate_vehicle cities distance_matrix depot).
Abbreviation run := (run_vehicles cities distance_matrix depot).

Lemma body_delivery (v : vehicle) (c : city) (s : sim) (rem travel_min d : R) :
  store_get c (demands s) = Some rem ->
  0 < rem -> 0 < capacity s ->
  tt (location s) c = Ok travel_min ->
  dist (location s) c = Ok d ->
  body v c s = Ok (Continue (after_delivery s c rem travel_min d)).
Proof.
  intros Hg Hr Hc Ht Hd. unfold while_body, remaining. rewrite Hg. simpl.
  destruct (Rlt_dec 0 rem); try contradiction.
  destruct (Rlt_dec 0 (capacity s)); try contradiction.
  rewrite Ht. simpl. rewrite Hd. reflexivity.
Qed.

Lemma body_refill (v : vehicle) (c : city) (s : sim) (rem back t2 d : R) :
  store_get c (demands s) = Some rem ->
  0 < rem -> ~ 0 < capacity s ->
  tt (location s) depot = Ok back ->
  tt depot c = Ok t2 ->
  back + t2 <= t2 ->
  dist (location s) depot = Ok d ->
  body v c s = Ok (Continue (after_refill depot v s back d)).
Proof.
  intros Hg Hr Hc Hb Ht Hle Hd. unfold while_body, remaining. rewrite Hg. simpl.
  destruct (Rlt_dec 0 rem); try contradiction.
  destruct (Rlt_dec 0 (capacity s)); try contradiction.
  rewrite Hb. simpl. rewrite Ht. simpl.
  destruct (Rle_dec (back + t2) t2); try contradiction.
  rewrite Hd. reflexivity.
Qed.

Lemma body_abandon (v : vehicle) (c : city) (s : sim) (rem back t2 : R) :
  store_get c (demands s) = Some rem ->
  0 < rem -> ~ 0 < capacity s ->
  tt (location s) depot = Ok back ->
  tt depot c = Ok t2 ->
  ~ back + t2 <= t2 ->
  body v c s = Ok Abandon.
Proof.
  intros Hg Hr Hc Hb Ht Hle. unfold while_body, remaining. rewrite Hg. simpl.
  destruct (Rlt_dec 0 rem); try contradiction.
  destruct (Rlt_dec 0 (capacity s)); try contradiction.
  rewrite Hb. simpl. rewrite Ht. simpl.
  destruct (Rle_dec (back + t2) t2); try contradiction.
  reflexivity.
Qed.

Lemma body_satisfied (v : vehicle) (c : city) (s : sim) (rem : R) :
  store_get c (demands s) = Some rem -> ~ 0 < rem ->
  body v c s = Ok Satisfied.
Proof.
  intros Hg Hr. unfold while_body, remaining. rewrite Hg. simpl.
  destruct (Rlt_dec 0 rem); [contradiction | reflexivity].
Qed.

Lemma body_Continue_inv (v : vehicle) (c : city) (s s' : sim) :
  body v c s = Ok (Continue s') -> step v c s s'.
Proof.
  unfold while_body, remaining. intros H.
  destruct (store_get c (demands s)) as [rem|] eqn:Eg; try discriminate.
  simpl in H.
  destruct (Rlt_dec 0 rem) as [Hr|Hr]; try discriminate.
  destruct (Rlt_dec 0 (capacity s)) as [Hc|Hc].
  - destruct (tt (location s) c) as [tm| |] eqn:Et; try discriminate. simpl in H.
    destruct (dist (location s) c) as [d| |] eqn:Ed; try discriminate. simpl in H.
    injection H as <-. eapply step_delivery; eauto.
  - destruct (tt (location s) depot) as [back| |] eqn:Eb; try discriminate. simpl in H.
    destruct (tt depot c) as [t2| |] eqn:Et; try discriminate. simpl in H.
    destruct (Rle_dec (back + t2) t2) as [Hle|Hle]; try discriminate.
    destruct (dist (location s) depot) as [d| |] eqn:Ed; try discriminate. simpl in H.
    injection H as <-. eapply step_refill; eauto.
Qed.

Lemma body_Continue_step (v : vehicle) (c : city) (s s' : sim) :
  body v c s = Ok (Continue s') <-> step v c s s'.
Proof.
  split; [apply body_Continue_inv|].
  intros [rem tm d Hg Hr Hc Ht Hd | rem back t2 d Hg Hr Hc Hb Ht Hle Hd].
  - now apply body_delivery.
  - now apply body_refill with (rem := rem) (t2 := t2).
Qed.

Lemma body_Satisfied_inv (v : vehicle) (c : city) (s : sim) :
  body v c s = Ok Satisfied ->
  exists rem, store_get c (demands s) = Some rem /\ rem <= 0.
Proof.
  unfold while_body, remaining. intros H.
  destruct (store_get c (demands s)) as [rem|] eqn:Eg; try discriminate.
  simpl in H. exists rem. split; auto.
  destruct (Rlt_dec 0 rem) as [Hr|Hr]; [|lra].
  destruct (Rlt_dec 0 (capacity s)) as [Hc|Hc].
  - destruct (tt (location s) c); try discriminate. simpl in H.
    destruct (dist (location s) c); discriminate.
  - destruct (tt (location s) depot); try discriminate. simpl in H.
    destruct (tt depot c) as [t2| |]; try discriminate. simpl in H.
    destruct (Rle_dec _ _); try discriminate.
    destruct (dist (location s) depot); discriminate.
Qed.

Lemma body_Abandon_inv (v : vehicle) (c : city) (s : sim) :
  body v c s = Ok Abandon ->
  exists rem back t2,
    store_get c (demands s) = Some rem /\ 0 < rem /\ capacity s <= 0 /\
    tt (location s) depot = Ok back /\ tt depot c = Ok t2 /\ t2 < back + t2.
Proof.
  unfold while_body, remaining. intros H.
  destruct (store_get c (demands s)) as [rem|] eqn:Eg; try discriminate.
  simpl in H.
  destruct (Rlt_dec 0 rem) as [Hr|Hr]; try discriminate.
  destruct (Rlt_dec 0 (capacity s)) as [Hc|Hc].
  - destruct (tt (location s) c); try discriminate. simpl in H.
    destruct (dist (location s) c); discriminate.
  - destruct (tt (location s) depot) as [back| |] eqn:Eb; try discriminate. simpl in H.
    destruct (tt depot c) as [t2| |] eqn:Et; try discriminate. simpl in H.
    destruct (Rle_dec (back + t2) t2) as [Hle|Hle].
    + destruct (dist (location s) depot); discriminate.
    + exists rem, back, t2. repeat split; auto; lra.
Qed.

(** ** Unfolding the loops *)

Lemma while_city_continue (fuel : nat) (v : vehicle) (c : city) (s s1 : sim) :
  body v c s = Ok (Continue s1) ->
  while_c (S fuel) v c s = while_c fuel v c s1.
Proof. intros H. simpl. now rewrite H. Qed.

Lemma while_city_satisfied (fuel : nat) (v : vehicle) (c : city) (s : sim) :
  body v c s = Ok Satisfied -> while_c (S fuel) v c s = Ok s.
Proof. intros H. simpl. now rewrite H. Qed.

Lemma while_city_abandon (fuel : nat) (v : vehicle) (c : city) (s : sim) :
  body v c s = Ok Abandon -> while_c (S fuel) v c s = Ok s.
Proof. intros H. simpl. now rewrite H. Qed.

Lemma while_city_raise (fuel : nat) (v : vehicle) (c : city) (s : sim) (e : exn) :
  body v c s = Raise e -> while_c (S fuel) v c s = Raise e.
Proof. intros H. simpl. now rewrite H. Qed.

(** The loops preserve whatever every iteration preserves. *)
Lemma while_city_invariant (P : sim -> Prop) (v : vehicle) (c : city) :
  (forall s s', P s -> step v c s s' -> P s') ->
  forall fuel s s', P s -> while_c fuel v c s = Ok s' -> P s'.
Proof.
  intros Hstep. induction fuel as [|fuel IH]; intros s s' HP H; simpl in H.
  - discriminate.
  - bind_inv H. destruct x as [s1| |].
    + apply body_Continue_step in E. eauto.
    + now injection H as <-.
    + now injection H as <-.
Qed.

Lemma for_cities_invariant (P : sim -> Prop) (v : vehicle) :
  (forall c s s', P s -> step v c s s' -> P s') ->
  forall fuel cs s s', P s -> for_c fuel v cs s = Ok s' -> P s'.
Proof.
  intros Hstep fuel cs. induction cs as [|c cs IH]; intros s s' HP H; simpl in H.
  - now injection H as <-.
  - bind_inv H. eapply IH; [|exact H].
    eapply while_city_invariant; eauto.
Qed.

(** The loop over a city stops on a state whose next iteration does not
    run the body to its end. *)
Lemma while_city_exit (v : vehicle) (c : city) (fuel : nat) (s s' : sim) :
  while_c fuel v c s = Ok s' ->
  body v c s' = Ok Satisfied \/ body v c s' = Ok Abandon.
Proof.
  revert s. induction fuel as [|fuel IH]; intros s H; simpl in H.
  - discriminate.
  - bind_inv H. destruct x as [s1| |].
    + eauto.
    + injection H as <-. auto.
    + injection H as <-. auto.
Qed.

Lemma close_route_inv (s s' : sim) :
  close s = Ok s' ->
  (location s = depot /\ s' = s) \/
  (location s <> depot /\
   exists back d, tt (location s) depot = Ok back /\
                  dist (location s) depot = Ok d /\
                  s' = after_close depot s back d).
Proof.
  unfold close_route. destruct (String.eqb (location s) depot) eqn:E.
  - apply String.eqb_eq in E. intros H. injection H as <-. auto.
  - apply String.eqb_neq in E. intros H. right. split; auto.
    bind_inv H. bind_inv H. injection H as <-. eauto.
Qed.

Lemma simulate_inv (fuel : nat) (v : vehicle) (d : store) (r : list leg) (d' : store) :
  simulate fuel v d = Ok (r, d') ->
  exists s s', for_c fuel v (dict_keys d) (start_sim depot v d) = Ok s /\
               close s = Ok s' /\ r = route s' /\ d' = demands s'.
Proof.
  unfold simulate_vehicle. intros H. bind_inv H. bind_inv H.
  injection H as <- <-. exists x, x0. auto.
Qed.

End EngineFacts.

(** ** Remaining quantities and delivered quantities *)

Lemma store_le_refl (d : store) : store_le d d.
Proof. split; auto. intros c r H. exists r. split; auto. lra. Qed.

Lemma store_le_trans (d1 d2 d3 : store) :
  store_le d1 d2 -> store_le d2 d3 -> store_le d1 d3.
Proof.
  intros [K1 H1] [K2 H2]. split; [congruence|].
  intros c r H. destruct (H2 c r H) as (r2 & G2 & L2).
  destruct (H1 c r2 G2) as (r1 & G1 & L1).
  exists r1. split; auto. lra.
Qed.

Lemma store_le_set (c : city) (rem r : R) (d : store) :
  store_get c d = Some rem -> r <= rem -> store_le (store_set c r d) d.
Proof.
  intros Hg Hle. split.
  - eapply store_keys_set_present; eauto.
  - intros x q Hx. rewrite store_get_set.
    destruct (String.eqb c x) eqn:E.
    + apply String.eqb_eq in E. subst x. rewrite Hg in Hx. injection Hx as <-.
      exists r. auto.
    + exists q. split; auto. lra.
Qed.

Lemma store_nonneg_set (c : city) (r : R) (d : store) :
  store_nonneg d -> 0 <= r -> store_nonneg (store_set c r d).
Proof.
  intros Hd Hr x q. rewrite store_get_set.
  destruct (String.eqb c x); intros H.
  - injection H as <-. auto.
  - eauto.
Qed.

Lemma remaining_of_set (c x : city) (r : R) (d : store) :
  remaining_of x (store_set c r d) = if String.eqb c x then r else remaining_of x d.
Proof.
  unfold remaining_of. rewrite store_get_set. now destruct (String.eqb c x).
Qed.

Lemma delivered_to_app (c : city) (r1 r2 : list leg) :
  delivered_to c (r1 ++ r2) = delivered_to c r1 + delivered_to c r2.
Proof. induction r1 as [|l r1 IH]; simpl; [lra | rewrite IH; lra]. Qed.


Lemma nonneg_legs_snoc (r : list leg) (l : leg) :
  nonneg_legs r -> 0 <= l_deliver l -> nonneg_legs (r ++ [l]).
Proof. intros Hr Hl. apply Forall_app. split; auto. Qed.

Lemma Rmin_pos_pos (a b : R) : 0 < a -> 0 < b -> 0 < Rmin a b.
Proof. intros. unfold Rmin. destruct (Rle_dec a b); lra. Qed.

Lemma Rmin_le_l (a b : R) : Rmin a b <= a.
Proof. unfold Rmin. destruct (Rle_dec a b); lra. Qed.

Lemma Rmin_le_r (a b : R) : Rmin a b <= b.
Proof. unfold Rmin. destruct (Rle_dec a b); lra. Qed.

Section Accounting.
Variable cities : list city.
Variable distance_matrix : list (list R).
Variable depot : city.

Abbreviation step := (body_step cities distance_matrix depot).
Abbreviation for_c := (for_cities cities distance_matrix depot).
Abbreviation simulate := (simulate_vehicle cities distance_matrix depot).
Abbreviation run := (run_vehicles cities distance_matrix depot).

Lemma accounts_refl (s : sim) : accounts s s.
Proof. repeat split; auto. intros c r H. exists r. split; auto. lra. Qed.

Lemma accounts_trans (s1 s2 s3 : sim) :
  accounts s1 s2 -> accounts s2 s3 -> accounts s1 s3.
Proof.
  intros (L1 & N1 & G1 & C1) (L2 & N2 & G2 & C2). split; [|split; [|split]].
  - eapply store_le_trans; eauto.
  - auto.
  - auto.
  - intros x. rewrite C2. apply C1.
Qed.

Lemma step_accounts (v : vehicle) (c : city) (s s' : sim) :
  step v c s s' -> accounts s s'.
Proof.
  intros [rem tm d Hg Hr Hc Ht Hd | rem back t2 d Hg Hr Hc Hb Ht Hle Hd];
    unfold accounts; simpl.
  - pose proof (Rmin_pos_pos _ _ Hc Hr) as Hpos.
    pose proof (Rmin_le_r (capacity s) rem) as Hle.
    split; [|split; [|split]].
    + eapply store_le_set; eauto. lra.
    + intros Hn. apply store_nonneg_set; auto. lra.
    + intros Hn. apply nonneg_legs_snoc; auto. simpl. lra.
    + intros x. rewrite delivered_to_app, remaining_of_set. simpl.
      destruct (String.eqb c x) eqn:E.
      * apply String.eqb_eq in E. subst x.
        unfold remaining_of. rewrite Hg. lra.
      * lra.
  - split; [|split; [|split]].
    + apply store_le_refl.
    + auto.
    + intros Hn. apply nonneg_legs_snoc; auto. simpl. lra.
    + intros x. rewrite delivered_to_app. simpl.
      destruct (String.eqb depot x); lra.
Qed.

Lemma for_cities_accounts (fuel : nat) (v : vehicle) (cs : list city) (s s' : sim) :
  for_c fuel v cs s = Ok s' -> accounts s s'.
Proof.
  intros H.
  apply (for_cities_invariant cities distance_matrix depot (accounts s) v)
    with (fuel := fuel) (cs := cs) (s := s); auto.
  - intros c s1 s2 H1 H2. eapply accounts_trans; eauto. eapply step_accounts; eauto.
  - apply accounts_refl.
Qed.



Lemma for_cities_evolves (d0 : store) (fuel : nat) (v : vehicle) (cs : list city) (s s' : sim) :
  evolves cities distance_matrix depot d0 (demands s) ->
  for_c fuel v cs s = Ok s' ->
  evolves cities distance_matrix depot d0 (demands s').
Proof.
  intros H0 H.
  apply (for_cities_invariant cities distance_matrix depot
           (fun s => evolves cities distance_matrix depot d0 (demands s)) v)
    with (fuel := fuel) (cs := cs) (s := s); auto.
  intros c s1 s2 H1 H2. eapply evolves_step; eauto.
Qed.

Lemma simulate_accounts (fuel : nat) (v : vehicle) (d : store) (r : list leg) (d' : store) :
  simulate fuel v d = Ok (r, d') ->
  evolves cities distance_matrix depot d d' /\
  nonneg_legs r /\
  forall x, delivered_to x r + remaining_of x d' = remaining_of x d.
Proof.
  intros H. apply simulate_inv in H. destruct H as (s & s' & Hf & Hc & -> & ->).
  pose proof (for_cities_accounts _ _ _ _ _ Hf) as (L & N & G & C).
  assert (Hev : evolves cities distance_matrix depot d (demands s)).
  { eapply for_cities_evolves; [|exact Hf]. simpl. constructor. }
  simpl in *.
  apply close_route_inv in Hc.
  destruct Hc as [[_ ->] | [_ (back & dd & _ & _ & ->)]]; simpl.
  - split; [exact Hev|]. split; [apply G; constructor|].
    intros x. rewrite C. simpl. lra.
  - split; [exact Hev|]. split.
    + apply nonneg_legs_snoc; [apply G; constructor | simpl; lra].
    + intros x. rewrite delivered_to_app. simpl. specialize (C x). simpl in C.
      destruct (String.eqb depot x); lra.
Qed.



End Accounting.

(** ** The dictionary of remaining quantities at the start of a run *)

Lemma find_app_first {A : Type} (f : A -> bool) (l1 l2 : list A) :
  find f (l1 ++ l2) = match find f l1 with Some x => Some x | None => find f l2 end.
Proof.
  induction l1 as [|a l1 IH]; simpl; auto. now destruct (f a).
Qed.

Lemma last_declared_cons (c : city) (d : demand) (ds : list demand) :
  last_declared c (d :: ds)
  = match last_declared c ds with
    | Some q => Some q
    | None => if String.eqb (d_city d) c then Some (d_demand d) else None
    end.
Proof.
  unfold last_declared. simpl. rewrite find_app_first.
  destruct (find _ (rev ds)); simpl; auto.
  now destruct (String.eqb (d_city d) c).
Qed.


Lemma last_declared_none (c : city) (ds : list demand) :
  (forall d, In d ds -> d_city d <> c) -> last_declared c ds = None.
Proof.
  intros H. unfold last_declared.
  destruct (find _ (rev ds)) as [d|] eqn:E; auto.
  apply find_some in E. destruct E as [Hin He].
  apply in_rev in Hin. apply String.eqb_eq in He. now apply H in Hin.
Qed.

Lemma last_declared_in (c : city) (q : R) (ds : list demand) :
  last_declared c ds = Some q ->
  exists d, In d ds /\ d_city d = c /\ d_demand d = q.
Proof.
  unfold last_declared. destruct (find _ (rev ds)) as [d|] eqn:E; try discriminate.
  simpl. intros H. injection H as <-.
  apply find_some in E. destruct E as [Hin He].
  apply in_rev in Hin. apply String.eqb_eq in He. eauto.
Qed.

Lemma fold_store_get (c : city) (ds : list demand) (acc : store) :
  store_get c (fold_left (fun acc d => store_set (d_city d) (d_demand d) acc) ds acc)
  = match last_declared c ds with
    | Some q => Some q
    | None => store_get c acc
    end.
Proof.
  revert acc. induction ds as [|d ds IH]; intros acc; simpl; auto.
  rewrite IH, last_declared_cons, store_get_set.
  destruct (last_declared c ds); auto.
  now destruct (String.eqb (d_city d) c).
Qed.

Lemma demands_copy_get (c : city) (ds : list demand) :
  store_get c (demands_copy ds) = last_declared c ds.
Proof.
  unfold demands_copy. rewrite fold_store_get. now destruct (last_declared c ds).
Qed.

Lemma store_set_keys_NoDup (c : city) (r : R) (d : store) :
  NoDup (dict_keys d) -> NoDup (dict_keys (store_set c r d)).
Proof.
  intros H. destruct (store_get c d) as [r0|] eqn:E.
  - now rewrite (store_keys_set_present c r r0 d E).
  - rewrite (store_keys_set_absent c r d E).
    apply NoDup_app; auto.
    + repeat constructor. intros [].
    + intros x Hx [<-|[]]. apply store_get_in_keys in Hx.
      destruct Hx as [r1 Hx]. congruence.
Qed.

Lemma demands_copy_keys_NoDup (ds : list demand) :
  NoDup (dict_keys (demands_copy ds)).
Proof.
  unfold demands_copy.
  assert (G : forall acc, NoDup (dict_keys acc) ->
            NoDup (dict_keys (fold_left (fun acc d => store_set (d_city d) (d_demand d) acc) ds acc))).
  { induction ds as [|d ds IH]; intros acc H; simpl; auto.
    apply IH. now apply store_set_keys_NoDup. }
  apply G. constructor.
Qed.


(** With pairwise distinct city names every record has its own entry. *)
Lemma demands_copy_get_distinct (ds : list demand) (dm : demand) :
  NoDup (map d_city ds) -> In dm ds ->
  store_get (d_city dm) (demands_copy ds) = Some (d_demand dm).
Proof.
  rewrite demands_copy_get.
  induction ds as [|d ds IH]; intros Hnd Hin; [destruct Hin|].
  simpl in Hnd. apply NoDup_cons_iff in Hnd. destruct Hnd as [Hd Hnd].
  rewrite last_declared_cons. destruct Hin as [->|Hin].
  - rewrite last_declared_none, String.eqb_refl; auto.
    intros d' Hd' E. apply Hd. rewrite <- E. now apply in_map.
  - now rewrite IH.
Qed.

Lemma run_vrptw_state_of (cities : list city) (D : list (list R)) (depot : city)
    (fuel : nat) (vs : list vehicle) (ds : list demand) (sol : solution) :
  run_vrptw cities D depot fuel vs ds = Ok sol ->
  exists d', run_vrptw_state cities D depot fuel vs ds = Ok (sol, d').
Proof.
  unfold run_vrptw. intros H. bind_inv H. destruct x as [sol' d'].
  injection H as <-. eauto.
Qed.


(** ** The refill scenario, evaluated *)

Section RefillScenario.
Variables out back : R.

Abbreviation rf_tt := (travel_time_minutes rf_cities (rf_matrix out back)).
Abbreviation rf_dist := (dist_between rf_cities (rf_matrix out back)).
Abbreviation rf_body := (while_body rf_cities (rf_matrix out back) "Depot"%string).
Abbreviation rf_while := (while_city rf_cities (rf_matrix out back) "Depot"%string).
Abbreviation rf_simulate := (simulate_vehicle rf_cities (rf_matrix out back) "Depot"%string).
Abbreviation rf_run := (run_vehicles rf_cities (rf_matrix out back) "Depot"%string).

Lemma rf_tt_out : rf_tt "Depot"%string "City"%string = Ok ((out / SPEED_KMPH) * 60).
Proof. reflexivity. Qed.

Lemma rf_tt_back : rf_tt "City"%string "Depot"%string = Ok ((back / SPEED_KMPH) * 60).
Proof. reflexivity. Qed.

Lemma rf_dist_out : rf_dist "Depot"%string "City"%string = Ok out.
Proof. reflexivity. Qed.

Lemma rf_dist_back : rf_dist "City"%string "Depot"%string = Ok back.
Proof. reflexivity. Qed.

Lemma rf_first_iteration (id : nat) (t0 q : R) :
  10 < q ->
  rf_body (rf_vehicle id t0) "City"%string
          (start_sim "Depot"%string (rf_vehicle id t0) [("City"%string, q)])
  = Ok (Continue (rf_unloaded out t0 q)).
Proof.
  intros Hq.
  erewrite body_delivery;
    [ | reflexivity | lra | simpl; lra | apply rf_tt_out | apply rf_dist_out ].
  unfold after_delivery, delivery_leg, rf_unloaded, rf_leg_out,
    SPEED_KMPH, UNLOAD_MIN_PER_100KG. simpl.
  rewrite Rmin_left by lra.
  repeat f_equal; lra.
Qed.

Lemma rf_exhausted_eq (t0 : R) : rf_exhausted out t0 = rf_unloaded out t0 1000.
Proof.
  unfold rf_exhausted, after_delivery, delivery_leg, rf_unloaded, rf_leg_out,
    SPEED_KMPH, UNLOAD_MIN_PER_100KG. simpl.
  rewrite Rmin_left by lra.
  repeat f_equal; lra.
Qed.

Lemma rf_second_iteration (v : vehicle) (t0 q : R) :
  0 < back -> 10 < q ->
  rf_body v "City"%string (rf_unloaded out t0 q) = Ok Abandon.
Proof.
  intros Hb Hq.
  eapply body_abandon;
    [ reflexivity | lra | simpl; lra | apply rf_tt_back | apply rf_tt_out | ].
  unfold SPEED_KMPH. lra.
Qed.

Lemma rf_simulate_eval (fuel id : nat) (t0 q : R) :
  0 < back -> 10 < q ->
  rf_simulate (S (S fuel)) (rf_vehicle id t0) [("City"%string, q)]
  = Ok (rf_route out back t0, [("City"%string, q - 10)]).
Proof.
  intros Hb Hq. unfold simulate_vehicle.
  change (dict_keys [("City"%string, q)]) with ["City"%string].
  unfold for_cities.
  rewrite (while_city_continue _ _ _ _ _ _ _ _ (rf_first_iteration id t0 q Hq)).
  rewrite (while_city_abandon _ _ _ _ _ _ _ (rf_second_iteration _ t0 q Hb Hq)).
  unfold bind at 2. unfold bind at 1.
  unfold close_route.
  change (String.eqb (location (rf_unloaded out t0 q)) "Depot"%string) with false. cbv iota.
  change (location (rf_unloaded out t0 q)) with "City"%string.
  rewrite rf_tt_back, rf_dist_back. unfold bind.
  unfold rf_route, rf_leg_back, rf_unloaded, SPEED_KMPH. simpl.
  reflexivity.
Qed.

Lemma any_remaining_pos (c : city) (q : R) :
  0 < q -> any_remaining [(c, q)] = true.
Proof.
  intros Hq. unfold any_remaining. simpl.
  destruct (Rlt_dec 0 q); [reflexivity | contradiction].
Qed.

Lemma rf_run_vehicles_two (fuel : nat) (t1 t2 : R) :
  0 < back ->
  rf_run (S (S fuel)) [rf_vehicle 1 t1; rf_vehicle 2 t2] [("City"%string, 1000)] []
  = Ok ([(1%nat, rf_route out back t1); (2%nat, rf_route out back t2)],
        [("City"%string, 980)]).
Proof.
  intros Hb. unfold run_vehicles.
  rewrite any_remaining_pos by lra.
  rewrite rf_simulate_eval by (auto; lra).
  unfold bind at 1. cbv beta iota.
  rewrite any_remaining_pos by lra.
  rewrite rf_simulate_eval by (auto; lra).
  unfold bind. cbv beta iota. simpl.
  repeat f_equal. lra.
Qed.

Lemma rf_run_two (fuel : nat) (t1 t2 : R) :
  0 < back ->
  run_vrptw_state rf_cities (rf_matrix out back) "Depot"%string (S (S fuel))
                  [rf_vehicle 1 t1; rf_vehicle 2 t2] rf_demands
  = Ok ([(1%nat, rf_route out back t1); (2%nat, rf_route out back t2)],
        [("City"%string, 980)]).
Proof. intros Hb. now apply rf_run_vehicles_two. Qed.

End RefillScenario.

(** ** Capacity between refills, and where a route ends *)

Lemma segment_loads_snoc (acc : R) (r : list leg) :
  exists done cur,
    segment_loads_from acc r = done ++ [cur] /\
    forall l, segment_loads_from acc (r ++ [l])
              = if is_return l then done ++ [cur; 0]
                else done ++ [cur + l_deliver l].
Proof.
  revert acc. induction r as [|l0 r IH]; intros acc.
  - exists [], acc. split; auto.
  - simpl. destruct (is_return l0).
    + destruct (IH 0) as (done & cur & E & F).
      exists (acc :: done), cur. split; [simpl; now rewrite E|].
      intros l. rewrite F. now destruct (is_return l).
    + destruct (IH (acc + l_deliver l0)) as (done & cur & E & F). eauto.
Qed.

Lemma is_return_zero (l : leg) : l_deliver l = 0 -> is_return l = true.
Proof. intros H. unfold is_return. destruct (Req_dec_T _ _); auto; contradiction. Qed.

Lemma is_return_pos (l : leg) : 0 < l_deliver l -> is_return l = false.
Proof. intros H. unfold is_return. destruct (Req_dec_T _ _); auto; lra. Qed.

Lemma capacity_ok_segments (C : R) (s : sim) :
  capacity_ok C s -> Forall (fun x => x <= C) (segment_loads (route s)).
Proof.
  intros (Hc & done & cur & E & F & G). rewrite E.
  apply Forall_app. split; auto. constructor; auto. lra.
Qed.

Section Capacity.
Variable cities : list city.
Variable distance_matrix : list (list R).
Variable depot : city.

Abbreviation step := (body_step cities distance_matrix depot).
Abbreviation for_c := (for_cities cities distance_matrix depot).
Abbreviation simulate := (simulate_vehicle cities distance_matrix depot).
Abbreviation visit := (visits cities distance_matrix depot).

Lemma visits_invariant (P : sim -> Prop) (v : vehicle) (s0 : sim) :
  P s0 ->
  (forall c s s', P s -> step v c s s' -> P s') ->
  forall s, visit v s0 s -> P s.
Proof. intros H0 Hs s H. induction H; eauto. Qed.

Lemma for_cities_visits (fuel : nat) (v : vehicle) (cs : list city) (s s' : sim) :
  for_c fuel v cs s = Ok s' -> visit v s s'.
Proof.
  intros H.
  apply (for_cities_invariant cities distance_matrix depot (visit v s) v)
    with (fuel := fuel) (cs := cs) (s := s); auto.
  - intros c s1 s2 H1 H2. eapply visits_step; eauto.
  - constructor.
Qed.

Lemma capacity_ok_start (v : vehicle) (d : store) :
  0 <= v_capacity v -> capacity_ok (v_capacity v) (start_sim depot v d).
Proof.
  intros H. split; auto. exists [], 0. simpl. repeat split; auto. lra.
Qed.

Lemma step_capacity_ok (v : vehicle) (c : city) (s s' : sim) :
  0 <= v_capacity v ->
  capacity_ok (v_capacity v) s -> step v c s s' -> capacity_ok (v_capacity v) s'.
Proof.
  intros HC (Hcap & done & cur & E & F & G) Hs.
  destruct (segment_loads_snoc 0 (route s)) as (done' & cur' & E' & Snoc).
  fold (segment_loads (route s)) in E'. rewrite E in E'.
  apply app_inj_tail in E'. destruct E' as [<- <-].
  destruct Hs as [rem tm d Hg Hr Hc Ht Hd | rem back t2 d Hg Hr Hc Hb Ht Hle Hd];
    unfold capacity_ok, segment_loads; simpl; rewrite Snoc.
  - pose proof (Rmin_pos_pos _ _ Hc Hr) as Hpos.
    pose proof (Rmin_le_l (capacity s) rem) as Hl.
    rewrite is_return_pos by (simpl; lra). simpl.
    split; [lra|]. exists done, (cur + Rmin (capacity s) rem).
    repeat split; auto. lra.
  - rewrite is_return_zero by reflexivity.
    split; auto. exists (done ++ [cur]), 0.
    split; [now rewrite <- app_assoc|]. split; [|lra].
    apply Forall_app. split; auto. constructor; auto. lra.
Qed.

Lemma visits_capacity_ok (v : vehicle) (d : store) (s : sim) :
  0 <= v_capacity v ->
  visit v (start_sim depot v d) s -> capacity_ok (v_capacity v) s.
Proof.
  intros HC. apply visits_invariant.
  - now apply capacity_ok_start.
  - intros c s1 s2. now apply step_capacity_ok.
Qed.

Lemma simulate_segments (fuel : nat) (v : vehicle) (d : store) (r : list leg) (d' : store) :
  0 <= v_capacity v ->
  simulate fuel v d = Ok (r, d') ->
  Forall (fun x => x <= v_capacity v) (segment_loads r).
Proof.
  intros HC H. apply simulate_inv in H. destruct H as (s & s' & Hf & Hc & -> & _).
  apply for_cities_visits in Hf. apply visits_capacity_ok in Hf; auto.
  apply close_route_inv in Hc.
  destruct Hc as [[_ ->] | [_ (back & dd & _ & _ & ->)]].
  - now apply capacity_ok_segments.
  - destruct Hf as (Hcap & done & cur & E & F & G). simpl.
    destruct (segment_loads_snoc 0 (route s)) as (done' & cur' & E' & Snoc).
    fold (segment_loads (route s)) in E'. rewrite E in E'.
    apply app_inj_tail in E'. destruct E' as [<- <-].
    unfold segment_loads. rewrite Snoc, is_return_zero by reflexivity.
    apply Forall_app. split; auto.
    constructor; [lra | constructor; [lra | constructor]].
Qed.

(** The route always ends where the vehicle is. *)
Lemma final_stop_snoc (r : list leg) (l : leg) :
  final_stop depot (r ++ [l]) = l_to l.
Proof. unfold final_stop. rewrite map_app. simpl. apply last_last. Qed.

Lemma step_final_stop (v : vehicle) (c : city) (s s' : sim) :
  step v c s s' -> final_stop depot (route s') = location s'.
Proof. intros [? ? ? | ? ? ? ?]; simpl; now rewrite final_stop_snoc. Qed.

Lemma visits_final_stop (v : vehicle) (d : store) (s : sim) :
  visit v (start_sim depot v d) s -> final_stop depot (route s) = location s.
Proof.
  apply (visits_invariant (fun s => final_stop depot (route s) = location s)).
  - reflexivity.
  - intros c s1 s2 _. apply step_final_stop.
Qed.

End Capacity.

(** ** Termination *)

Lemma terminates_bind {A B : Type} (m : result A) (k : A -> result B) :
  terminates m -> (forall a, m = Ok a -> terminates (k a)) -> terminates (bind m k).
Proof. destruct m; simpl; auto. Qed.

Lemma index_terminates (a : city) (cs : list city) : terminates (index a cs).
Proof.
  induction cs as [|c cs IH]; simpl; auto.
  destruct (String.eqb c a); simpl; auto.
  destruct (index a cs); simpl; auto.
Qed.

Lemma matrix_get_terminates (m : list (list R)) (i j : nat) : terminates (matrix_get m i j).
Proof.
  unfold matrix_get. destruct (nth_error m i) as [row|]; simpl; auto.
  destruct (nth_error row j); simpl; auto.
Qed.

Lemma within_loads_exists (C : R) (d : store) :
  0 < C -> exists K, within_loads K C d.
Proof.
  intros HC. unfold within_loads, store_get.
  induction d as [|[k r] d [K IH]].
  - exists 0%nat. simpl. discriminate.
  - destruct (INR_archimed C r HC) as [n Hn].
    exists (Nat.max n K). intros c q. simpl.
    destruct (String.eqb k c).
    + intros H. injection H as <-.
      assert (INR n <= INR (Nat.max n K)) by (apply le_INR; lia). nra.
    + intros H. apply IH in H.
      assert (INR K <= INR (Nat.max n K)) by (apply le_INR; lia). nra.
Qed.

Lemma within_loads_le (K : nat) (C : R) (d d' : store) :
  store_le d' d -> within_loads K C d -> within_loads K C d'.
Proof.
  intros [Hk Hle] Hw c r' Hg.
  assert (Hin : In c (dict_keys d)).
  { rewrite <- Hk. apply store_get_in_keys. eauto. }
  apply store_get_in_keys in Hin. destruct Hin as [r Hr].
  destruct (Hle c r Hr) as (r2 & Hr2 & Hle2).
  rewrite Hg in Hr2. injection Hr2 as <-.
  apply Hw in Hr. lra.
Qed.

Section Termination.
Variable cities : list city.
Variable distance_matrix : list (list R).
Variable depot : city.

Abbreviation tt := (travel_time_minutes cities distance_matrix).
Abbreviation dist := (dist_between cities distance_matrix).
Abbreviation body := (while_body cities distance_matrix depot).
Abbreviation step := (body_step cities distance_matrix depot).
Abbreviation while_c := (while_city cities distance_matrix depot).
Abbreviation for_c := (for_cities cities distance_matrix depot).
Abbreviation close := (close_route cities distance_matrix depot).
Abbreviation simulate := (simulate_vehicle cities distance_matrix depot).

Lemma dist_terminates (a b : city) : terminates (dist a b).
Proof.
  unfold dist_between. apply terminates_bind; [apply index_terminates|].
  intros i _. apply terminates_bind; [apply index_terminates|].
  intros j _. apply matrix_get_terminates.
Qed.

Lemma tt_terminates (a b : city) : terminates (tt a b).
Proof.
  unfold travel_time_minutes. apply terminates_bind; [apply index_terminates|].
  intros i _. apply terminates_bind; [apply index_terminates|].
  intros j _. apply terminates_bind; [apply matrix_get_terminates|].
  intros x _. exact I.
Qed.

Lemma body_terminates (v : vehicle) (c : city) (s : sim) : terminates (body v c s).
Proof.
  unfold while_body, remaining.
  apply terminates_bind; [destruct (store_get c (demands s)); exact I|].
  intros rem _. destruct (Rlt_dec 0 rem); [|exact I].
  destruct (Rlt_dec 0 (capacity s)).
  - apply terminates_bind; [apply tt_terminates|]. intros t _.
    apply terminates_bind; [apply dist_terminates|]. intros x _. exact I.
  - apply terminates_bind; [apply tt_terminates|]. intros t1 _.
    apply terminates_bind; [apply tt_terminates|]. intros t2 _.
    apply terminates_bind; [apply tt_terminates|]. intros t3 _.
    destruct (Rle_dec (t1 + t2) t3); [|exact I].
    apply terminates_bind; [apply tt_terminates|]. intros t4 _.
    apply terminates_bind; [apply dist_terminates|]. intros x _. exact I.
Qed.

Lemma close_terminates (s : sim) : terminates (close s).
Proof.
  unfold close_route. destruct (String.eqb (location s) depot); [exact I|].
  apply terminates_bind; [apply tt_terminates|]. intros t _.
  apply terminates_bind; [apply dist_terminates|]. intros x _. exact I.
Qed.

(** More fuel does not change a result that was reached. *)
Lemma while_city_S_fuel (v : vehicle) (c : city) (fuel : nat) (s : sim) :
  terminates (while_c fuel v c s) -> while_c (S fuel) v c s = while_c fuel v c s.
Proof.
  revert s. induction fuel as [|fuel IH]; intros s H.
  - destruct H.
  - cbn [while_city] in *.
    destruct (body v c s) as [[s1| |]|e|]; simpl in *; auto.
Qed.

Lemma while_city_more_fuel (v : vehicle) (c : city) (fuel fuel' : nat) (s : sim) :
  (fuel <= fuel')%nat ->
  terminates (while_c fuel v c s) -> while_c fuel' v c s = while_c fuel v c s.
Proof.
  intros Hle H. induction Hle as [|m Hle IH]; auto.
  rewrite while_city_S_fuel; auto. now rewrite IH.
Qed.

Lemma while_city_accounts (fuel : nat) (v : vehicle) (c : city) (s s' : sim) :
  while_c fuel v c s = Ok s' -> accounts s s'.
Proof.
  intros H. apply (for_cities_accounts cities distance_matrix depot fuel v [c]).
  simpl. now rewrite H.
Qed.

Section OneCity.
Variable v : vehicle.
Variable c : city.
Hypothesis capacity_pos : 0 < v_capacity v.

Abbreviation loads_left := (loads_left v c).
Abbreviation fresh_terminates := (fresh_terminates cities distance_matrix depot v c).

Lemma exhausted_terminates (k : nat) (s : sim) :
  fresh_terminates k ->
  ~ 0 < capacity s -> loads_left k s ->
  terminates (while_c (S (2 * k + 1)) v c s).
Proof.
  intros HA Hcap Hb.
  destruct (body v c s) as [[s1| |]|e|] eqn:E.
  - rewrite (while_city_continue _ _ _ _ _ _ _ _ E).
    apply body_Continue_inv in E.
    destruct E as [rem tm d Hg Hr Hc Ht Hd | rem back t2 d Hg Hr Hc Hb' Ht Hle Hd].
    + contradiction.
    + apply HA; auto.
  - now rewrite (while_city_satisfied _ _ _ _ _ _ _ E).
  - now rewrite (while_city_abandon _ _ _ _ _ _ _ E).
  - now rewrite (while_city_raise _ _ _ _ _ _ _ _ E).
  - pose proof (body_terminates v c s) as T. now rewrite E in T.
Qed.

Lemma delivering_terminates (k : nat) (s : sim) :
  fresh_terminates k ->
  0 < capacity s ->
  (forall rem, store_get c (demands s) = Some rem ->
               rem - Rmin (capacity s) rem <= INR k * v_capacity v) ->
  terminates (while_c (S (S (2 * k + 1))) v c s).
Proof.
  intros HA Hcap Hb.
  destruct (body v c s) as [[s1| |]|e|] eqn:E;
    [ | now rewrite (while_city_satisfied _ _ _ _ _ _ _ E)
      | now rewrite (while_city_abandon _ _ _ _ _ _ _ E)
      | now rewrite (while_city_raise _ _ _ _ _ _ _ _ E) | ].
  - rewrite (while_city_continue _ _ _ _ _ _ _ _ E).
    apply body_Continue_inv in E.
    destruct E as [rem tm d Hg Hr Hc Ht Hd | rem back t2 d Hg Hr Hc Hb' Ht Hle Hd];
      [|contradiction].
    specialize (Hb rem Hg).
    set (s1 := after_delivery s c rem tm d).
    assert (G1 : store_get c (demands s1) = Some (rem - Rmin (capacity s) rem)).
    { unfold s1. simpl. apply store_get_set_same. }
    destruct (Rle_dec rem (capacity s)) as [Hle|Hgt].
    + rewrite (while_city_satisfied cities distance_matrix depot _ v c s1); [exact I|].
      eapply body_satisfied; [exact G1|]. rewrite Rmin_right by lra. lra.
    + apply exhausted_terminates; auto.
      * unfold s1. simpl. rewrite Rmin_left by lra. lra.
      * intros r Hr'. rewrite G1 in Hr'. injection Hr' as <-. exact Hb.
  - pose proof (body_terminates v c s) as T. now rewrite E in T.
Qed.

Lemma fresh_terminates_all (k : nat) : fresh_terminates k.
Proof.
  induction k as [|k IH]; intros s Hcap Hb.
  - change (2 * 0 + 1)%nat with 1%nat.
    destruct (body v c s) as [[s1| |]|e|] eqn:E;
      [ | now rewrite (while_city_satisfied _ _ _ _ _ _ _ E)
        | now rewrite (while_city_abandon _ _ _ _ _ _ _ E)
        | now rewrite (while_city_raise _ _ _ _ _ _ _ _ E) | ].
    + apply body_Continue_inv in E.
      destruct E as [rem tm d Hg Hr Hc Ht Hd | rem back t2 d Hg Hr Hc Hb' Ht Hle Hd];
        specialize (Hb rem Hg); simpl in Hb; lra.
    + pose proof (body_terminates v c s) as T. now rewrite E in T.
  - replace (2 * S k + 1)%nat with (S (S (2 * k + 1))) by lia.
    apply delivering_terminates; auto; [lra|].
    intros rem Hg. specialize (Hb rem Hg). rewrite S_INR in Hb.
    pose proof (pos_INR k). rewrite Hcap.
    unfold Rmin. destruct (Rle_dec (v_capacity v) rem); nra.
Qed.

Lemma while_city_terminates (k fuel : nat) (s : sim) :
  loads_left k s -> (2 * k + 3 <= fuel)%nat ->
  terminates (while_c fuel v c s).
Proof.
  intros Hb Hfuel.
  assert (T : terminates (while_c (2 * k + 3) v c s)).
  { replace (2 * k + 3)%nat with (S (S (2 * k + 1))) by lia.
    destruct (Rlt_dec 0 (capacity s)) as [Hc|Hc].
    - apply delivering_terminates; auto using fresh_terminates_all.
      intros rem Hg. specialize (Hb rem Hg).
      destruct (Rlt_dec 0 rem) as [Hr|Hr].
      + pose proof (Rmin_pos_pos _ _ Hc Hr). lra.
      + pose proof (pos_INR k). unfold Rmin.
        destruct (Rle_dec (capacity s) rem); nra.
    - rewrite while_city_S_fuel; apply exhausted_terminates;
        auto using fresh_terminates_all. }
  rewrite (while_city_more_fuel v c (2 * k + 3) fuel s); auto.
Qed.

End OneCity.

Lemma for_cities_terminates (v : vehicle) (K fuel : nat) (cs : list city) (s : sim) :
  0 < v_capacity v ->
  within_loads K (v_capacity v) (demands s) -> (2 * K + 3 <= fuel)%nat ->
  terminates (for_c fuel v cs s).
Proof.
  intros HC Hw Hfuel. revert s Hw.
  induction cs as [|c cs IH]; intros s Hw; simpl; [exact I|].
  apply terminates_bind.
  - apply while_city_terminates with (k := K); auto.
    intros rem Hg. eapply Hw; eauto.
  - intros s' Hs'. apply IH.
    apply while_city_accounts in Hs'. destruct Hs' as (Hle & _).
    eapply within_loads_le; eauto.
Qed.

Lemma simulate_terminates (v : vehicle) (K fuel : nat) (d : store) :
  0 < v_capacity v ->
  within_loads K (v_capacity v) d -> (2 * K + 3 <= fuel)%nat ->
  terminates (simulate fuel v d).
Proof.
  intros HC Hw Hfuel. unfold simulate_vehicle.
  apply terminates_bind; [apply for_cities_terminates with (K := K); auto|].
  intros s _. apply terminates_bind; [apply close_terminates|].
  intros s' _. exact I.
Qed.

End Termination.

(** ** No look-up fails on a well-formed input *)

Lemma index_In (a : city) (cs : list city) :
  In a cs -> exists i, index a cs = Ok i /\ (i < List.length cs)%nat.
Proof.
  induction cs as [|c cs IH]; simpl; [tauto|].
  intros H. destruct (String.eqb c a) eqn:E.
  - exists 0%nat. split; auto. lia.
  - destruct H as [H|H]; [apply String.eqb_neq in E; contradiction|].
    destruct (IH H) as (i & Hi & Hlt). rewrite Hi. simpl.
    exists (S i). split; auto. lia.
Qed.

Section Defined.
Variable cities : list city.
Variable distance_matrix : list (list R).
Variable depot : city.
Variable d0 : store.
Hypothesis wf : lookups_defined cities distance_matrix depot d0.

Abbreviation tt := (travel_time_minutes cities distance_matrix).
Abbreviation dist := (dist_between cities distance_matrix).
Abbreviation body := (while_body cities distance_matrix depot).
Abbreviation step := (body_step cities distance_matrix depot).
Abbreviation while_c := (while_city cities distance_matrix depot).
Abbreviation for_c := (for_cities cities distance_matrix depot).
Abbreviation close := (close_route cities distance_matrix depot).
Abbreviation simulate := (simulate_vehicle cities distance_matrix depot).

Lemma dist_defined (a b : city) :
  In a cities -> In b cities -> exists x, dist a b = Ok x.
Proof.
  intros Ha Hb. destruct wf as (_ & _ & Hm).
  destruct (index_In a cities Ha) as (i & Hi & Li).
  destruct (index_In b cities Hb) as (j & Hj & Lj).
  destruct (Hm i j Li Lj) as [x Hx].
  exists x. unfold dist_between. rewrite Hi, Hj. exact Hx.
Qed.

Lemma tt_defined (a b : city) :
  In a cities -> In b cities -> exists t, tt a b = Ok t.
Proof.
  intros Ha Hb. destruct wf as (_ & _ & Hm).
  destruct (index_In a cities Ha) as (i & Hi & Li).
  destruct (index_In b cities Hb) as (j & Hj & Lj).
  destruct (Hm i j Li Lj) as [x Hx].
  exists ((x / SPEED_KMPH) * 60). unfold travel_time_minutes.
  rewrite Hi, Hj. simpl. now rewrite Hx.
Qed.

Lemma key_on_map (c : city) : In c (dict_keys d0) -> In c cities.
Proof. destruct wf as (_ & Hk & _). auto. Qed.

Lemma depot_on_map : In depot cities.
Proof. now destruct wf. Qed.

Lemma body_defined (v : vehicle) (c : city) (s : sim) :
  on_map cities d0 s -> In c (dict_keys d0) ->
  exists it, body v c s = Ok it.
Proof.
  intros [Hl Hk] Hc.
  assert (Hg : exists rem, store_get c (demands s) = Some rem).
  { apply store_get_in_keys. now rewrite Hk. }
  destruct Hg as [rem Hg].
  pose proof (key_on_map c Hc) as Hcc. pose proof depot_on_map as Hd.
  destruct (Rlt_dec 0 rem) as [Hr|Hr].
  - destruct (Rlt_dec 0 (capacity s)) as [Hcap|Hcap].
    + destruct (tt_defined (location s) c Hl Hcc) as [t Ht].
      destruct (dist_defined (location s) c Hl Hcc) as [x Hx].
      eexists. eapply body_delivery; eauto.
    + destruct (tt_defined (location s) depot Hl Hd) as [back Hb].
      destruct (tt_defined depot c Hd Hcc) as [t2 Ht].
      destruct (dist_defined (location s) depot Hl Hd) as [x Hx].
      destruct (Rle_dec (back + t2) t2) as [Hle|Hle].
      * eexists. eapply body_refill; eauto.
      * eexists. eapply body_abandon; eauto.
  - eexists. eapply body_satisfied; eauto.
Qed.

Lemma step_on_map (v : vehicle) (c : city) (s s' : sim) :
  on_map cities d0 s -> step v c s s' -> on_map cities d0 s'.
Proof.
  intros [Hl Hk] [rem tm d Hg Hr Hc Ht Hd | rem back t2 d Hg Hr Hc Hb Ht Hle Hd];
    split; simpl; auto.
  - apply key_on_map. rewrite <- Hk. apply store_get_in_keys. eauto.
  - rewrite <- Hk. eapply store_keys_set_present; eauto.
  - apply depot_on_map.
Qed.

Lemma while_city_returns (v : vehicle) (c : city) (fuel : nat) (s : sim) :
  on_map cities d0 s -> In c (dict_keys d0) ->
  terminates (while_c fuel v c s) ->
  exists s', while_c fuel v c s = Ok s' /\ on_map cities d0 s'.
Proof.
  intros Hs Hc. revert s Hs. induction fuel as [|fuel IH]; intros s Hs T.
  - destruct T.
  - destruct (body_defined v c s Hs Hc) as [[s1| |] E].
    + rewrite (while_city_continue _ _ _ _ _ _ _ _ E) in *.
      apply IH; auto. apply body_Continue_inv in E. eapply step_on_map; eauto.
    + rewrite (while_city_satisfied _ _ _ _ _ _ _ E). eauto.
    + rewrite (while_city_abandon _ _ _ _ _ _ _ E). eauto.
Qed.

Lemma for_cities_returns (v : vehicle) (K fuel : nat) (cs : list city) (s : sim) :
  0 < v_capacity v ->
  (2 * K + 3 <= fuel)%nat ->
  incl cs (dict_keys d0) ->
  within_loads K (v_capacity v) (demands s) ->
  on_map cities d0 s ->
  exists s', for_c fuel v cs s = Ok s' /\ on_map cities d0 s'.
Proof.
  intros HC Hfuel. revert s.
  induction cs as [|c cs IH]; intros s Hin Hw Hs; simpl; [eauto|].
  assert (T : terminates (while_c fuel v c s)).
  { apply while_city_terminates with (k := K); auto. intros rem Hg. eapply Hw; eauto. }
  destruct (while_city_returns v c fuel s Hs (Hin c (or_introl eq_refl)) T)
    as (s1 & E1 & Hs1).
  rewrite E1. simpl. apply IH; auto.
  - intros x Hx. apply Hin. now right.
  - apply while_city_accounts in E1. destruct E1 as (Hle & _).
    eapply within_loads_le; eauto.
Qed.

Lemma close_route_returns (s : sim) :
  on_map cities d0 s -> exists s', close s = Ok s'.
Proof.
  intros [Hl _]. unfold close_route.
  destruct (String.eqb (location s) depot); [eauto|].
  destruct (tt_defined (location s) depot Hl depot_on_map) as [t Ht].
  destruct (dist_defined (location s) depot Hl depot_on_map) as [x Hx].
  rewrite Ht, Hx. simpl. eauto.
Qed.

End Defined.

Lemma simulate_returns (cities : list city) (m : list (list R)) (depot : city)
    (v : vehicle) (K fuel : nat) (d : store) :
  lookups_defined cities m depot d ->
  0 < v_capacity v ->
  within_loads K (v_capacity v) d -> (2 * K + 3 <= fuel)%nat ->
  exists r d', simulate_vehicle cities m depot fuel v d = Ok (r, d').
Proof.
  intros wf HC Hw Hfuel. unfold simulate_vehicle.
  assert (H0 : on_map cities d (start_sim depot v d)).
  { destruct wf as [Hd _]. split; [exact Hd | reflexivity]. }
  destruct (for_cities_returns cities m depot d wf v K fuel (dict_keys d)
              (start_sim depot v d) HC Hfuel (incl_refl _) Hw H0) as (s & E & Hs).
  rewrite E. simpl.
  destruct (close_route_returns cities m depot d wf s Hs) as [s' E'].
  rewrite E'. simpl. eauto.
Qed.

(** ** The fallback estimator *)

Lemma hav_sin (x : R) : hav x = sin (x / 2) ^ 2.
Proof.
  unfold hav. replace x with (2 * (x / 2)) at 1 by lra.
  rewrite cos_2a_sin. simpl. lra.
Qed.

Lemma hav_opp (x y : R) : hav (x - y) = hav (y - x).
Proof. unfold hav. replace (x - y) with (- (y - x)) by lra. now rewrite cos_neg. Qed.

Lemma haversine_great_circle (c1 c2 : R * R) :
  haversine_distance c1 c2
  = (great_circle_km c1 c2 * 1.3, (great_circle_km c1 c2 * 1.3 / 50) * 60).
Proof.
  destruct c1 as [lat1 lon1], c2 as [lat2 lon2].
  unfold haversine_distance, great_circle_km, EARTH_RADIUS_KM. simpl fst. simpl snd.
  rewrite !hav_sin. f_equal; lra.
Qed.

Lemma great_circle_sym (c1 c2 : R * R) : great_circle_km c1 c2 = great_circle_km c2 c1.
Proof.
  unfold great_circle_km.
  rewrite (hav_opp (radians (fst c2))), (hav_opp (radians (snd c2))).
  rewrite (Rmult_comm (cos (radians (fst c1)))). reflexivity.
Qed.

Lemma great_circle_one_degree : great_circle_km (0, 0) (0, 1) = 6371 * PI / 180.
Proof.
  pose proof PI_RGT_0 as Hpi. pose proof PI_4 as Hpi4.
  unfold great_circle_km, EARTH_RADIUS_KM, radians. simpl fst. simpl snd.
  rewrite !hav_sin.
  replace ((0 * PI / 180 - 0 * PI / 180) / 2) with 0 by lra.
  replace (0 * PI / 180) with 0 by lra.
  replace ((1 * PI / 180 - 0) / 2) with (PI / 360) by lra.
  rewrite sin_0, cos_0.
  replace (0 ^ 2 + 1 * 1 * sin (PI / 360) ^ 2) with (sin (PI / 360) ^ 2) by (simpl; lra).
  assert (Hs : 0 < sin (PI / 360)) by (apply sin_gt_0; lra).
  rewrite sqrt_pow2 by lra.
  rewrite asin_sin by (split; lra).
  lra.
Qed.

Lemma fb_km_pos : 0 < fb_km.
Proof.
  unfold fb_km. rewrite great_circle_one_degree.
  pose proof PI_RGT_0. lra.
Qed.

(** ** The fallback scenario, evaluated *)

Lemma fb_build :
  build_matrices fb_coordinates haversine_distance "Supply"%string fb_demands
  = Ok (fb_cities,
        [("Supply"%string, (0, 0)); ("Demand"%string, (0, 1))],
        [[0; fst (haversine_distance (0, 0) (0, 1))];
         [fst (haversine_distance (0, 1) (0, 0)); 0]]).
Proof. reflexivity. Qed.

Lemma fb_matrix_eq :
  [[0; fst (haversine_distance (0, 0) (0, 1))];
   [fst (haversine_distance (0, 1) (0, 0)); 0]] = fb_matrix.
Proof.
  rewrite !haversine_great_circle. simpl fst.
  rewrite (great_circle_sym (0, 1) (0, 0)). reflexivity.
Qed.

Lemma fb_simulate_eval (fuel : nat) (t0 : R) :
  simulate_vehicle fb_cities fb_matrix "Supply"%string (S (S fuel))
    {| v_id := 1; v_capacity := 1000; v_start := t0 |} [("Demand"%string, 50)]
  = Ok (fb_route t0, [("Demand"%string, 0)]).
Proof.
  set (v := {| v_id := 1; v_capacity := 1000; v_start := t0 |}).
  set (s1 := {| time_var := t0 + (fb_km / 60) * 60 + 15;
                location := "Demand"%string;
                capacity := 950;
                route := [fb_leg_out t0];
                demands := [("Demand"%string, 0)] |}).
  assert (E1 : while_body fb_cities fb_matrix "Supply"%string v "Demand"%string
                 (start_sim "Supply"%string v [("Demand"%string, 50)])
               = Ok (Continue s1)).
  { erewrite body_delivery;
      [ | reflexivity | lra | simpl; lra | reflexivity | reflexivity ].
    unfold after_delivery, delivery_leg, s1, fb_leg_out,
      SPEED_KMPH, UNLOAD_MIN_PER_100KG. simpl.
    rewrite Rmin_right by lra.
    repeat f_equal; lra. }
  assert (E2 : while_body fb_cities fb_matrix "Supply"%string v "Demand"%string s1
               = Ok Satisfied).
  { eapply body_satisfied; [reflexivity | lra]. }
  unfold simulate_vehicle.
  change (dict_keys [("Demand"%string, 50)]) with ["Demand"%string].
  unfold for_cities.
  rewrite (while_city_continue _ _ _ _ _ _ _ _ E1).
  rewrite (while_city_satisfied _ _ _ _ _ _ _ E2).
  unfold bind at 2. unfold bind at 1.
  unfold close_route.
  change (String.eqb (location s1) "Supply"%string) with false. cbv iota.
  change (location s1) with "Demand"%string.
  change (travel_time_minutes fb_cities fb_matrix "Demand"%string "Supply"%string)
    with (Ok ((fb_km / SPEED_KMPH) * 60)).
  change (dist_between fb_cities fb_matrix "Demand"%string "Supply"%string) with (Ok fb_km).
  unfold bind, fb_route, fb_leg_back, s1, SPEED_KMPH. simpl.
  reflexivity.
Qed.

Lemma fb_plan_eval (fuel : nat) (t0 : R) :
  fb_plan (S (S fuel)) t0 = Ok [(1%nat, fb_route t0)].
Proof.
  unfold fb_plan, plan_routes. rewrite fb_build. unfold bind at 1. cbv beta iota.
  rewrite fb_matrix_eq.
  unfold run_vrptw, run_vrptw_state.
  change (demands_copy fb_demands) with [("Demand"%string, 50)].
  unfold fb_vehicles, run_vehicles.
  rewrite any_remaining_pos by lra.
  rewrite fb_simulate_eval. reflexivity.
Qed.

Lemma fb_elapsed (t0 : R) :
  elapsed_minutes (fb_route t0) = Ok (2 * ((fb_km / 60) * 60) + 15).
Proof. unfold elapsed_minutes, fb_route. simpl. f_equal. lra. Qed.

(** * Binary64 arithmetic

    Facts about rounding to nearest, from the specification of the
    primitive operations ([SpecFloat]): the order of finite numbers is the
    order of their values, and subtracting a smaller non-negative number
    gives a finite number between zero and the minuend. *)

Open Scope Z_scope.

Lemma digits2_pos_bounds (m : positive) :
  2 ^ (Zpos (digits2_pos m) - 1) <= Zpos m < 2 ^ Zpos (digits2_pos m).
Proof.
  induction m as [m IH | m IH |]; cbn [digits2_pos].
  - rewrite Pos2Z.inj_succ.
    replace (Z.succ (Zpos (digits2_pos m)) - 1) with (Z.succ (Zpos (digits2_pos m) - 1)) by lia.
    rewrite !Z.pow_succ_r by lia. lia.
  - rewrite Pos2Z.inj_succ.
    replace (Z.succ (Zpos (digits2_pos m)) - 1) with (Z.succ (Zpos (digits2_pos m) - 1)) by lia.
    rewrite !Z.pow_succ_r by lia. lia.
  - cbn. lia.
Qed.

Lemma bounded_inv (m : positive) (e : Z) :
  SpecFloat.bounded prec emax m e = true ->
  -1074 <= e <= 971 /\ Zpos m < 2 ^ 53 /\ (-1074 < e -> 2 ^ 52 <= Zpos m).
Proof.
  unfold SpecFloat.bounded, canonical_mantissa, fexp, SpecFloat.emin, prec, emax.
  intros H. apply andb_true_iff in H. destruct H as [H1 H2].
  apply Z.eqb_eq in H1. apply Z.leb_le in H2.
  pose proof (digits2_pos_bounds m) as [D1 D2].
  set (d := Zpos (digits2_pos m)) in *.
  assert (Hd : 0 < d) by (unfold d; lia).
  split; [lia|]. split.
  - assert (d <= 53) by lia.
    eapply Z.lt_le_trans; [exact D2|]. apply Z.pow_le_mono_r; lia.
  - intros He. assert (d = 53) by lia.
    replace 52 with (d - 1) by lia. exact D1.
Qed.

Lemma scaled_pos (m : positive) (e : Z) : -1074 <= e -> 0 < scaled (Zpos m) e.
Proof. intros H. unfold scaled. apply Z.mul_pos_pos; [lia|]. apply Z.pow_pos_nonneg; lia. Qed.

Lemma scaled_lt_exp (m1 m2 : positive) (e1 e2 : Z) :
  SpecFloat.bounded prec emax m1 e1 = true -> SpecFloat.bounded prec emax m2 e2 = true ->
  e1 < e2 -> scaled (Zpos m1) e1 < scaled (Zpos m2) e2.
Proof.
  intros B1 B2 H.
  apply bounded_inv in B1. apply bounded_inv in B2.
  destruct B1 as (R1 & U1 & _). destruct B2 as (R2 & _ & L2).
  specialize (L2 ltac:(lia)).
  unfold scaled.
  replace (e2 + 1074) with ((e2 - e1 - 1) + 1 + (e1 + 1074)) by lia.
  rewrite (Z.pow_add_r 2 (e2 - e1 - 1 + 1) (e1 + 1074)) by lia.
  rewrite (Z.pow_add_r 2 (e2 - e1 - 1) 1) by lia.
  assert (P1 : 0 < 2 ^ (e1 + 1074)) by (apply Z.pow_pos_nonneg; lia).
  assert (P2 : 1 <= 2 ^ (e2 - e1 - 1)) by (apply (Z.pow_le_mono_r 2 0); lia).
  change (2 ^ 1) with 2. change (2 ^ 53) with (2 * 2 ^ 52) in U1.
  generalize dependent (2 ^ 52). intros K U1 L2.
  generalize dependent (2 ^ (e1 + 1074)). intros P P1.
  generalize dependent (2 ^ (e2 - e1 - 1)). intros Q P2.
  apply Z.lt_le_trans with (2 * K * P).
  - apply Z.mul_lt_mono_pos_r; lia.
  - replace (Z.pos m2 * (Q * 2 * P)) with (Z.pos m2 * (Q * 2) * P) by ring.
    apply Z.mul_le_mono_nonneg_r; [lia|]. nia.
Qed.

Lemma compare_cont_Eq (m1 m2 : positive) : Pos.compare_cont Eq m1 m2 = (Zpos m1 ?= Zpos m2).
Proof. reflexivity. Qed.

Lemma scaled_compare_same (m1 m2 : positive) (e : Z) :
  -1074 <= e -> (scaled (Zpos m1) e ?= scaled (Zpos m2) e) = (Zpos m1 ?= Zpos m2).
Proof.
  intros H. unfold scaled.
  assert (P : 0 < 2 ^ (e + 1074)) by (apply Z.pow_pos_nonneg; lia).
  destruct (Z.compare_spec (Zpos m1) (Zpos m2)) as [E | L | G].
  - rewrite E. apply Z.compare_refl.
  - apply Z.compare_lt_iff. now apply Z.mul_lt_mono_pos_r.
  - apply Z.compare_gt_iff. now apply Z.mul_lt_mono_pos_r.
Qed.

Lemma compare_pos (m1 m2 : positive) (e1 e2 : Z) :
  SpecFloat.bounded prec emax m1 e1 = true -> SpecFloat.bounded prec emax m2 e2 = true ->
  match e1 ?= e2 with Lt => Lt | Gt => Gt | Eq => Pos.compare_cont Eq m1 m2 end
  = (scaled (Zpos m1) e1 ?= scaled (Zpos m2) e2).
Proof.
  intros B1 B2.
  destruct (Z.compare_spec e1 e2) as [E | L | G].
  - subst e2. rewrite compare_cont_Eq. symmetry. apply scaled_compare_same.
    apply bounded_inv in B1. lia.
  - symmetry. apply Z.compare_lt_iff. now apply scaled_lt_exp.
  - symmetry. apply Z.compare_gt_iff. now apply scaled_lt_exp.
Qed.

Lemma SFcompare_sval (x y : spec_float) :
  valid_binary x = true -> valid_binary y = true ->
  finite_sf x = true -> finite_sf y = true ->
  SFcompare x y = Some (sval x ?= sval y).
Proof.
  intros Vx Vy Fx Fy.
  destruct x as [sx | sx | | sx mx ex]; try discriminate;
  destruct y as [sy | sy | | sy my ey]; try discriminate; cbn [SFcompare sval].
  - reflexivity.
  - cbn in Vy. pose proof (bounded_inv _ _ Vy) as (R & _).
    pose proof (scaled_pos my ey ltac:(lia)).
    destruct sy; cbn [cond_Zopp]; f_equal; symmetry.
    + apply Z.compare_gt_iff. lia.
    + apply Z.compare_lt_iff. lia.
  - cbn in Vx. pose proof (bounded_inv _ _ Vx) as (R & _).
    pose proof (scaled_pos mx ex ltac:(lia)).
    destruct sx; cbn [cond_Zopp]; f_equal; symmetry.
    + apply Z.compare_lt_iff. lia.
    + apply Z.compare_gt_iff. lia.
  - cbn in Vx, Vy.
    pose proof (bounded_inv _ _ Vx) as (Rx & _).
    pose proof (bounded_inv _ _ Vy) as (Ry & _).
    pose proof (scaled_pos mx ex ltac:(lia)).
    pose proof (scaled_pos my ey ltac:(lia)).
    destruct sx, sy; cbn [cond_Zopp]; f_equal.
    + rewrite Z.compare_opp.
      rewrite <- (compare_pos my mx ey ex Vy Vx).
      rewrite (Z.compare_antisym ey ex).
      destruct (ey ?= ex); cbn; try reflexivity.
      rewrite !compare_cont_Eq. rewrite (Z.compare_antisym (Zpos my) (Zpos mx)).
      now rewrite CompOpp_involutive.
    + symmetry. apply Z.compare_lt_iff. lia.
    + symmetry. apply Z.compare_gt_iff. lia.
    + now apply compare_pos.
Qed.

(** ** Rounding never exceeds a representable bound *)

Lemma Zdigits2_bounds (m : Z) :
  0 < m -> 2 ^ (Zdigits2 m - 1) <= m < 2 ^ Zdigits2 m.
Proof. destruct m as [|p|p]; try lia. intros _. apply digits2_pos_bounds. Qed.

Lemma Zdigits2_nonneg (m : Z) : 0 <= Zdigits2 m.
Proof. destruct m; cbn; lia. Qed.

Lemma pow2_pos (k : Z) : 0 <= k -> 0 < 2 ^ k.
Proof. intros. apply Z.pow_pos_nonneg; lia. Qed.

Lemma scaled_shift (m a b : Z) :
  -1074 <= a <= b -> scaled m b = m * 2 ^ (b - a) * 2 ^ (a + 1074).
Proof.
  intros H. unfold scaled.
  replace (b + 1074) with ((b - a) + (a + 1074)) by lia.
  rewrite Z.pow_add_r by lia. ring.
Qed.

Lemma magnitude_le (X : Z) (eX : Z) (A : positive) (eA : Z) :
  0 < X -> -1074 <= eX -> -1074 <= eA ->
  scaled X eX <= scaled (Zpos A) eA ->
  Zdigits2 X + eX <= Zpos (digits2_pos A) + eA.
Proof.
  intros HX HeX HeA H.
  destruct (Z_le_gt_dec (Zdigits2 X + eX) (Zpos (digits2_pos A) + eA)) as [L | G]; [exact L|].
  exfalso.
  pose proof (Zdigits2_bounds X HX) as [LX _].
  pose proof (digits2_pos_bounds A) as [_ UA].
  set (dX := Zdigits2 X) in *. set (dA := Zpos (digits2_pos A)) in *.
  assert (HdA : 0 < dA) by (unfold dA; lia).
  assert (HdX : 0 < dX).
  { unfold dX. destruct X; cbn; lia. }
  assert (S1 : 2 ^ (dX - 1 + (eX + 1074)) <= scaled X eX).
  { unfold scaled. rewrite (Z.pow_add_r 2 (dX - 1) (eX + 1074)) by lia.
    apply Z.mul_le_mono_nonneg_r; [|exact LX]. apply Z.lt_le_incl, pow2_pos; lia. }
  assert (S2 : scaled (Zpos A) eA < 2 ^ (dA + (eA + 1074))).
  { unfold scaled. rewrite (Z.pow_add_r 2 dA (eA + 1074)) by lia.
    apply Z.mul_lt_mono_pos_r; [apply pow2_pos; lia | exact UA]. }
  assert (S3 : 2 ^ (dA + (eA + 1074)) <= 2 ^ (dX - 1 + (eX + 1074))).
  { apply Z.pow_le_mono_r; lia. }
  lia.
Qed.

Lemma fexp_mono (a b : Z) : a <= b -> fexp prec emax a <= fexp prec emax b.
Proof. unfold fexp. lia. Qed.

Lemma fexp_ge (a : Z) : -1074 <= fexp prec emax a.
Proof. unfold fexp, SpecFloat.emin, prec, emax. lia. Qed.

Lemma bounded_canonical (m : positive) (e : Z) :
  SpecFloat.bounded prec emax m e = true -> fexp prec emax (Zpos (digits2_pos m) + e) = e.
Proof.
  unfold SpecFloat.bounded, canonical_mantissa. intros H.
  apply andb_true_iff in H. destruct H as [H _]. now apply Z.eqb_eq in H.
Qed.

Lemma shr_1_m (mrs : shr_record) : 0 <= shr_m mrs -> shr_m (shr_1 mrs) = shr_m mrs / 2.
Proof.
  destruct mrs as [m r s]. cbn [shr_m]. intros H.
  destruct m as [|p|p]; [reflexivity | | lia].
  destruct p as [p | p |]; cbn [shr_1 shr_m].
  - change (Zpos p~1) with (2 * Zpos p + 1). apply Z.div_unique with 1; lia.
  - change (Zpos p~0) with (2 * Zpos p). apply Z.div_unique with 0; lia.
  - reflexivity.
Qed.

Lemma iter_shr_1_m (p : positive) (mrs : shr_record) :
  0 <= shr_m mrs -> shr_m (SpecFloat.iter_pos shr_1 p mrs) = shr_m mrs / 2 ^ Zpos p.
Proof.
  revert mrs. induction p as [p IH | p IH |]; intros mrs H; cbn [SpecFloat.iter_pos].
  - assert (H1 : 0 <= shr_m (shr_1 mrs)) by (rewrite shr_1_m by exact H; apply Z.div_pos; lia).
    assert (H2 : 0 <= shr_m (SpecFloat.iter_pos shr_1 p (shr_1 mrs)))
      by (rewrite IH by exact H1; apply Z.div_pos; [exact H1 | apply pow2_pos; lia]).
    rewrite IH by exact H2. rewrite IH by exact H1. rewrite shr_1_m by exact H.
    assert (P : 0 < 2 ^ Zpos p) by (apply pow2_pos; lia).
    rewrite !Z.div_div by lia.
    f_equal. change (Zpos p~1) with (2 * Zpos p + 1).
    replace (2 * Zpos p + 1) with (1 + Zpos p + Zpos p) by lia.
    rewrite !Z.pow_add_r by lia. change (2 ^ 1) with 2. ring.
  - assert (H2 : 0 <= shr_m (SpecFloat.iter_pos shr_1 p mrs))
      by (rewrite IH by exact H; apply Z.div_pos; [exact H | apply pow2_pos; lia]).
    rewrite IH by exact H2. rewrite IH by exact H.
    assert (P : 0 < 2 ^ Zpos p) by (apply pow2_pos; lia).
    rewrite Z.div_div by lia.
    f_equal. change (Zpos p~0) with (2 * Zpos p).
    replace (2 * Zpos p) with (Zpos p + Zpos p) by lia.
    rewrite Z.pow_add_r by lia. ring.
  - rewrite shr_1_m by exact H. reflexivity.
Qed.

Lemma shr_record_of_loc_m (m : Z) (l : SpecFloat.location) : shr_m (shr_record_of_loc m l) = m.
Proof. destruct l as [|[]]; reflexivity. Qed.

(** [shr_fexp] brings a mantissa to the exponent of its format, dropping
    the low bits. *)
Lemma shr_fexp_spec (m e : Z) (l : SpecFloat.location) :
  0 <= m ->
  exists mrs e',
    shr_fexp prec emax m e l = (mrs, e') /\
    e' = Z.max e (fexp prec emax (Zdigits2 m + e)) /\
    shr_m mrs = m / 2 ^ (e' - e).
Proof.
  intros H. unfold shr_fexp, shr.
  destruct (fexp prec emax (Zdigits2 m + e) - e) as [|p|p] eqn:E.
  - eexists _, _. split; [reflexivity|]. split; [lia|].
    rewrite shr_record_of_loc_m. replace (e - e) with 0 by lia.
    now rewrite Z.pow_0_r, Z.div_1_r.
  - eexists _, _. split; [reflexivity|]. split; [lia|].
    rewrite iter_shr_1_m by (rewrite shr_record_of_loc_m; exact H).
    rewrite shr_record_of_loc_m. f_equal. f_equal. lia.
  - eexists _, _. split; [reflexivity|]. split; [lia|].
    rewrite shr_record_of_loc_m. replace (e - e) with 0 by lia.
    now rewrite Z.pow_0_r, Z.div_1_r.
Qed.

Lemma round_nearest_even_bounds (m : Z) (l : SpecFloat.location) :
  m <= round_nearest_even m l <= m + 1.
Proof.
  unfold round_nearest_even. destruct l as [|[]]; try lia.
  destruct (Z.even m); lia.
Qed.

(** Dropping low bits does not increase the value. *)
Lemma scaled_div_le (m a b : Z) :
  0 <= m -> -1074 <= a <= b -> scaled (m / 2 ^ (b - a)) b <= scaled m a.
Proof.
  intros Hm H. rewrite (scaled_shift _ a b H). unfold scaled.
  apply Z.mul_le_mono_nonneg_r; [apply Z.lt_le_incl, pow2_pos; lia|].
  rewrite Z.mul_comm. apply Z.mul_div_le. apply pow2_pos; lia.
Qed.

Lemma scaled_nonneg (m e : Z) : 0 <= m -> -1074 <= e -> 0 <= scaled m e.
Proof.
  intros. unfold scaled. apply Z.mul_nonneg_nonneg; [lia|].
  apply Z.lt_le_incl, pow2_pos; lia.
Qed.

Lemma scaled_le_mono (m n e : Z) : -1074 <= e -> m <= n -> scaled m e <= scaled n e.
Proof.
  intros. unfold scaled. apply Z.mul_le_mono_nonneg_r; [|lia].
  apply Z.lt_le_incl, pow2_pos; lia.
Qed.

Lemma scaled_lt_inv (m n e : Z) : -1074 <= e -> scaled m e < scaled n e -> m < n.
Proof.
  intros He H. unfold scaled in H.
  apply Z.mul_lt_mono_pos_r in H; [exact H | apply pow2_pos; lia].
Qed.

(** Rounding a positive value below a representable number [A * 2 ^ eA]
    gives a finite number that is still at most [A * 2 ^ eA]. *)
Lemma binary_round_aux_le (mz ez : Z) (l : SpecFloat.location) (A : positive) (eA : Z) :
  0 < mz -> -1074 <= ez <= eA ->
  SpecFloat.bounded prec emax A eA = true ->
  scaled mz ez < scaled (Zpos A) eA ->
  let r := binary_round_aux prec emax false mz ez l in
  finite_sf r = true /\ 0 <= sval r <= scaled (Zpos A) eA.
Proof.
  intros Hmz Hez BA Hlt.
  pose proof (bounded_inv _ _ BA) as (RA & _ & _).
  pose proof (bounded_canonical _ _ BA) as CA.
  unfold binary_round_aux.
  destruct (shr_fexp_spec mz ez l ltac:(lia)) as (mrs1 & e1 & E1 & He1 & Hm1).
  rewrite E1.
  set (m2 := round_nearest_even (shr_m mrs1) (loc_of_shr_record mrs1)).
  pose proof (round_nearest_even_bounds (shr_m mrs1) (loc_of_shr_record mrs1)) as Rm2.
  fold m2 in Rm2.
  assert (F1 : e1 <= eA).
  { assert (Zdigits2 mz + ez <= Zpos (digits2_pos A) + eA)
      by (apply magnitude_le; lia).
    pose proof (fexp_mono _ _ H). lia. }
  assert (G1 : ez <= e1) by lia.
  assert (Hm1pos : 0 <= shr_m mrs1).
  { rewrite Hm1. apply Z.div_pos; [lia | apply pow2_pos; lia]. }
  assert (F2 : scaled m2 e1 <= scaled (Zpos A) eA).
  { pose proof (scaled_div_le mz ez e1 ltac:(lia) ltac:(lia)) as D.
    rewrite <- Hm1 in D.
    rewrite (scaled_shift (Zpos A) e1 eA ltac:(lia)) in *.
    fold (scaled (Zpos A * 2 ^ (eA - e1)) e1) in *.
    apply scaled_le_mono; [lia|].
    assert (shr_m mrs1 < Zpos A * 2 ^ (eA - e1)).
    { apply (scaled_lt_inv _ _ e1); lia. }
    lia. }
  assert (Hm2pos : 0 <= m2) by lia.
  destruct (shr_fexp_spec m2 e1 loc_Exact Hm2pos) as (mrs2 & e2 & E2 & He2 & Hm2).
  rewrite E2.
  assert (F3 : e2 <= eA).
  { destruct (Z.eq_dec m2 0) as [Z0 | NZ].
    - rewrite Z0 in He2. cbn [Zdigits2] in He2.
      unfold fexp, SpecFloat.emin, prec, emax in He2. lia.
    - assert (Zdigits2 m2 + e1 <= Zpos (digits2_pos A) + eA)
        by (apply magnitude_le; lia).
      pose proof (fexp_mono _ _ H). lia. }
  assert (F4 : scaled (shr_m mrs2) e2 <= scaled (Zpos A) eA).
  { pose proof (scaled_div_le m2 e1 e2 Hm2pos ltac:(lia)) as D.
    rewrite <- Hm2 in D. lia. }
  assert (Hm3pos : 0 <= shr_m mrs2).
  { rewrite Hm2. apply Z.div_pos; [lia | apply pow2_pos; lia]. }
  destruct (shr_m mrs2) as [|m3|m3] eqn:E3.
  - cbn [finite_sf sval]. split; [reflexivity|]. split; [lia|]. apply scaled_nonneg; lia.
  - replace (e2 <=? emax - prec) with true
      by (symmetry; apply Z.leb_le; unfold emax, prec; lia).
    cbn [finite_sf sval cond_Zopp]. split; [reflexivity|].
    split; [|exact F4]. apply scaled_nonneg; lia.
  - lia.
Qed.

Lemma iter_xO_pow (m d : positive) : Zpos (Pos.iter xO m d) = Zpos m * 2 ^ Zpos d.
Proof.
  induction d as [|d IH] using Pos.peano_ind.
  - cbn [Pos.iter]. change (2 ^ 1) with 2. lia.
  - rewrite Pos.iter_succ, Pos2Z.inj_succ, Z.pow_succ_r by lia.
    change (Zpos (Pos.iter xO m d)~0) with (2 * Zpos (Pos.iter xO m d)).
    rewrite IH. ring.
Qed.

Lemma shl_align_spec (m : positive) (e e' : Z) :
  exists mz ez,
    shl_align m e e' = (mz, ez) /\ ez = Z.min e e' /\
    Zpos mz = Zpos m * 2 ^ (e - ez).
Proof.
  unfold shl_align. destruct (e' - e) as [|d|d] eqn:E.
  - eexists _, _. split; [reflexivity|]. split; [lia|].
    replace (e - e) with 0 by lia. rewrite Z.pow_0_r. lia.
  - eexists _, _. split; [reflexivity|]. split; [lia|].
    replace (e - e) with 0 by lia. rewrite Z.pow_0_r. lia.
  - eexists _, _. split; [reflexivity|]. split; [lia|].
    rewrite iter_xO_pow. f_equal. f_equal. lia.
Qed.

Lemma shl_align_scaled (m mz : positive) (e ez : Z) :
  -1074 <= ez <= e -> Zpos mz = Zpos m * 2 ^ (e - ez) ->
  scaled (Zpos mz) ez = scaled (Zpos m) e.
Proof. intros H E. rewrite (scaled_shift (Zpos m) ez e H), E. reflexivity. Qed.

Lemma binary_round_le (m : positive) (e : Z) (A : positive) (eA : Z) :
  -1074 <= e ->
  SpecFloat.bounded prec emax A eA = true ->
  scaled (Zpos m) e < scaled (Zpos A) eA ->
  let r := binary_round prec emax false m e in
  finite_sf r = true /\ 0 <= sval r <= scaled (Zpos A) eA.
Proof.
  intros He BA Hlt.
  pose proof (bounded_inv _ _ BA) as (RA & _ & _).
  pose proof (bounded_canonical _ _ BA) as CA.
  unfold binary_round.
  destruct (shl_align_spec m e (fexp prec emax (Zpos (digits2_pos m) + e)))
    as (mz & ez & E & Hez & Hmz).
  rewrite E.
  pose proof (fexp_ge (Zpos (digits2_pos m) + e)) as G.
  assert (Zdigits2 (Zpos m) + e <= Zpos (digits2_pos A) + eA)
    by (apply magnitude_le; lia).
  cbn [Zdigits2] in H. pose proof (fexp_mono _ _ H) as FM.
  apply binary_round_aux_le; try lia; [exact BA|].
  rewrite (shl_align_scaled m mz e ez); [exact Hlt | lia | exact Hmz].
Qed.

Lemma cond_Zopp_nonneg (s : bool) (m : positive) (e : Z) :
  -1074 <= e -> 0 <= cond_Zopp s (scaled (Zpos m) e) -> s = false.
Proof.
  intros He H. pose proof (scaled_pos m e He).
  destruct s; [cbn [cond_Zopp] in H; lia | reflexivity].
Qed.

(** Subtraction of a smaller non-negative number. *)
Lemma SFsub_within (x y : spec_float) :
  valid_binary x = true -> valid_binary y = true ->
  finite_sf x = true -> finite_sf y = true ->
  0 <= sval y <= sval x ->
  finite_sf (SF64sub x y) = true /\ 0 <= sval (SF64sub x y) <= sval x.
Proof.
  intros Vx Vy Fx Fy H. unfold SF64sub.
  destruct x as [sx | sx | | sx mx ex]; try discriminate;
  destruct y as [sy | sy | | sy my ey]; try discriminate.
  - cbn [SFsub]. destruct sx, sy; cbn; lia.
  - exfalso. cbn in Vy. pose proof (bounded_inv _ _ Vy) as (Ry & _).
    cbn [sval] in H. pose proof (scaled_pos my ey ltac:(lia)).
    destruct sy; cbn [cond_Zopp] in H; lia.
  - cbn [SFsub]. split; [reflexivity|]. cbn [sval] in *. lia.
  - cbn in Vx, Vy.
    pose proof (bounded_inv _ _ Vx) as (Rx & _).
    pose proof (bounded_inv _ _ Vy) as (Ry & _).
    cbn [sval] in H.
    assert (sy = false) by (apply (cond_Zopp_nonneg sy my ey); lia). subst sy.
    cbn [cond_Zopp] in H.
    pose proof (scaled_pos my ey ltac:(lia)) as Py.
    assert (sx = false) by (apply (cond_Zopp_nonneg sx mx ex); lia). subst sx.
    cbn [cond_Zopp] in H. cbn [SFsub sval cond_Zopp].
    destruct (shl_align_spec mx ex (Z.min ex ey)) as (ax & eax & Ex & Heax & Hax).
    destruct (shl_align_spec my ey (Z.min ex ey)) as (ay & eay & Ey & Heay & Hay).
    rewrite Ex, Ey. cbn [fst].
    set (ez := Z.min ex ey) in *.
    assert (Sx : scaled (Zpos ax) ez = scaled (Zpos mx) ex).
    { apply shl_align_scaled; [lia|]. rewrite Hax. f_equal. f_equal. lia. }
    assert (Sy : scaled (Zpos ay) ez = scaled (Zpos my) ey).
    { apply shl_align_scaled; [lia|]. rewrite Hay. f_equal. f_equal. lia. }
    assert (Hd : scaled (Zpos ax - Zpos ay) ez = scaled (Zpos mx) ex - scaled (Zpos my) ey).
    { rewrite <- Sx, <- Sy. unfold scaled. ring. }
    destruct (Zpos ax - Zpos ay) as [|p|p] eqn:Ed.
    + cbn [binary_normalize finite_sf sval]. split; [reflexivity|]. lia.
    + cbn [binary_normalize]. apply binary_round_le; [lia | exact Vx | lia].
    + exfalso.
      assert (scaled (Zneg p) ez < 0).
      { unfold scaled. apply Z.mul_neg_pos; [lia | apply pow2_pos; lia]. }
      lia.
Qed.

Lemma SFsub_self (x : spec_float) :
  finite_sf x = true -> SF64sub x x = S754_zero false.
Proof.
  unfold SF64sub.
  destruct x as [sx | sx | | sx mx ex]; try discriminate; intros _.
  - destruct sx; reflexivity.
  - cbn [SFsub]. rewrite Z.sub_diag. reflexivity.
Qed.

(** *** On the primitive numbers *)

Lemma ltb_F2Z (a b : float) :
  finite a = true -> finite b = true -> (a <? b)%float = (F2Z a <? F2Z b).
Proof.
  intros Fa Fb. rewrite FloatAxioms.ltb_spec. unfold SFltb, F2Z.
  rewrite (SFcompare_sval _ _ (Prim2SF_valid a) (Prim2SF_valid b) Fa Fb).
  reflexivity.
Qed.

Lemma leb_F2Z (a b : float) :
  finite a = true -> finite b = true -> (a <=? b)%float = (F2Z a <=? F2Z b).
Proof.
  intros Fa Fb. rewrite FloatAxioms.leb_spec. unfold SFleb, F2Z.
  rewrite (SFcompare_sval _ _ (Prim2SF_valid a) (Prim2SF_valid b) Fa Fb).
  unfold Z.leb. destruct (sval (Prim2SF a) ?= sval (Prim2SF b)); reflexivity.
Qed.

Lemma finite_zero : finite 0%float = true.
Proof. reflexivity. Qed.

Lemma F2Z_zero : F2Z 0%float = 0.
Proof. reflexivity. Qed.

(** A number above zero is not a NaN, and is finite when it is below a
    finite number. *)
Lemma ltb_finite_r (a b : float) :
  finite a = true -> (a <? b)%float = true ->
  finite b = true \/ Prim2SF b = S754_infinity false.
Proof.
  intros Fa H. rewrite FloatAxioms.ltb_spec in H. unfold finite in *. unfold SFltb in H.
  destruct (Prim2SF a) as [sa | sa | | sa ma ea]; try discriminate;
  destruct (Prim2SF b) as [sb | [|] | | sb mb eb]; cbn in *; auto; discriminate.
Qed.

Lemma ltb_finite_l (a b : float) :
  finite b = true -> (0 <? a)%float = true -> (a <? b)%float = true ->
  finite a = true.
Proof.
  intros Fb H0 H. rewrite FloatAxioms.ltb_spec in H, H0. unfold finite in *. unfold SFltb in *.
  change (Prim2SF 0) with (S754_zero false) in H0.
  destruct (Prim2SF a) as [sa | [|] | | sa ma ea]; try reflexivity;
  destruct (Prim2SF b) as [sb | sb | | sb mb eb]; cbn in *; discriminate.
Qed.

Lemma sub_within (a b : float) :
  finite a = true -> finite b = true -> 0 <= F2Z b <= F2Z a ->
  finite (a - b) = true /\ 0 <= F2Z (a - b) <= F2Z a.
Proof.
  intros Fa Fb H. unfold finite, F2Z in *. rewrite FloatAxioms.sub_spec.
  apply SFsub_within; auto using Prim2SF_valid.
Qed.

Lemma sub_self (a : float) :
  finite a = true -> finite (a - a) = true /\ F2Z (a - a) = 0.
Proof.
  intros Fa. unfold finite, F2Z in *. rewrite FloatAxioms.sub_spec, (SFsub_self _ Fa).
  split; reflexivity.
Qed.

Lemma eqb_F2Z (a b : float) :
  finite a = true -> finite b = true -> (a =? b)%float = (F2Z a =? F2Z b).
Proof.
  intros Fa Fb. rewrite FloatAxioms.eqb_spec. unfold SFeqb, F2Z.
  rewrite (SFcompare_sval _ _ (Prim2SF_valid a) (Prim2SF_valid b) Fa Fb).
  rewrite Z.eqb_compare. reflexivity.
Qed.

(** Taking nothing off changes nothing. *)
Lemma sub_zero_r (a : float) : (a - 0)%float = a.
Proof.
  apply Prim2SF_inj. rewrite FloatAxioms.sub_spec.
  change (Prim2SF 0) with (S754_zero false).
  destruct (Prim2SF a) as [[|] | s | | s m e]; reflexivity.
Qed.

(** * The engine on binary64 numbers *)

Lemma leb_refl_finite (a : float) : finite a = true -> (a <=? a)%float = true.
Proof. intros F. rewrite (leb_F2Z a a F F). apply Z.leb_refl. Qed.

Lemma quantity_F2Z (x : float) :
  Binary64.quantity x <-> finite x = true /\ 0 <= F2Z x.
Proof.
  unfold Binary64.quantity. split; intros [F H]; split; auto.
  - rewrite (leb_F2Z _ _ finite_zero F), F2Z_zero in H. now apply Z.leb_le.
  - rewrite (leb_F2Z _ _ finite_zero F), F2Z_zero. now apply Z.leb_le.
Qed.

Lemma within_F2Z (q x : float) :
  finite q = true ->
  (Binary64.within q x <-> finite x = true /\ 0 <= F2Z x <= F2Z q).
Proof.
  intros Fq. unfold Binary64.within. split.
  - intros (F & H0 & H1).
    rewrite (leb_F2Z _ _ finite_zero F), F2Z_zero in H0.
    rewrite (leb_F2Z _ _ F Fq) in H1.
    apply Z.leb_le in H0. apply Z.leb_le in H1. auto.
  - intros (F & H0 & H1). split; [exact F|].
    rewrite (leb_F2Z _ _ finite_zero F), F2Z_zero, (leb_F2Z _ _ F Fq).
    split; now apply Z.leb_le.
Qed.

Lemma positive_F2Z (x : float) :
  finite x = true -> (0 <? x)%float = true -> 0 < F2Z x.
Proof.
  intros F H. rewrite (ltb_F2Z _ _ finite_zero F), F2Z_zero in H.
  now apply Z.ltb_lt.
Qed.

(** What is unloaded: positive and at most what the city still asks for. *)
Lemma min_demand (cap rem : float) :
  finite rem = true -> (0 <? rem)%float = true -> (0 <? cap)%float = true ->
  finite (Binary64.min cap rem) = true /\
  0 < F2Z (Binary64.min cap rem) <= F2Z rem /\
  (finite cap = true -> F2Z (Binary64.min cap rem) <= F2Z cap).
Proof.
  intros Fr Hr Hc. unfold Binary64.min.
  pose proof (positive_F2Z rem Fr Hr) as Pr.
  destruct (rem <? cap)%float eqn:E.
  - split; [exact Fr|]. split; [lia|]. intros Fc.
    rewrite (ltb_F2Z _ _ Fr Fc) in E. apply Z.ltb_lt in E. lia.
  - assert (Fc : finite cap = true).
    { destruct (ltb_finite_r _ _ finite_zero Hc) as [Fc | Inf]; [exact Fc|].
      exfalso. rewrite FloatAxioms.ltb_spec, Inf in E. unfold finite in Fr.
      destruct (Prim2SF rem) as [s | s | | s m e]; cbn in *; discriminate. }
    pose proof (positive_F2Z cap Fc Hc) as Pc.
    rewrite (ltb_F2Z _ _ Fr Fc) in E. apply Z.ltb_ge in E.
    split; [exact Fc|]. split; [lia|]. intros _. lia.
Qed.

(** What is unloaded: positive and at most what the vehicle carries. *)
Lemma min_capacity (cap rem : float) :
  finite cap = true -> (0 <? rem)%float = true -> (0 <? cap)%float = true ->
  finite (Binary64.min cap rem) = true /\
  0 < F2Z (Binary64.min cap rem) <= F2Z cap.
Proof.
  intros Fc Hr Hc. unfold Binary64.min.
  pose proof (positive_F2Z cap Fc Hc) as Pc.
  destruct (rem <? cap)%float eqn:E.
  - assert (Fr : finite rem = true) by (apply (ltb_finite_l rem cap); auto).
    pose proof (positive_F2Z rem Fr Hr) as Pr.
    rewrite (ltb_F2Z _ _ Fr Fc) in E. apply Z.ltb_lt in E.
    split; [exact Fr|]. lia.
  - split; [exact Fc|]. lia.
Qed.

Lemma store_get_set_same64 (c : city) (r : float) (d : Binary64.store) :
  forall r0, Binary64.store_get c d = Some r0 ->
  Binary64.store_get c (Binary64.store_set c r d) = Some r.
Proof.
  unfold Binary64.store_get, Binary64.store_set.
  induction d as [|[k x] d IH]; cbn; intros r0 H; [discriminate|].
  destruct (String.eqb k c) eqn:E; cbn; rewrite E; [reflexivity | eauto].
Qed.

Lemma store_get_set_other64 (c c' : city) (r : float) (d : Binary64.store) :
  c' <> c ->
  Binary64.store_get c' (Binary64.store_set c r d) = Binary64.store_get c' d.
Proof.
  unfold Binary64.store_get, Binary64.store_set. intros N.
  induction d as [|[k x] d IH]; cbn.
  - destruct (String.eqb c c') eqn:E; [apply String.eqb_eq in E; congruence | reflexivity].
  - destruct (String.eqb k c) eqn:E; cbn.
    + apply String.eqb_eq in E. subst k.
      destruct (String.eqb c c') eqn:E'; [apply String.eqb_eq in E'; congruence | reflexivity].
    + destruct (String.eqb k c'); [reflexivity | exact IH].
Qed.

Lemma store_keys_set64 (c : city) (r r0 : float) (d : Binary64.store) :
  Binary64.store_get c d = Some r0 ->
  dict_keys (Binary64.store_set c r d) = dict_keys d.
Proof.
  unfold Binary64.store_get, Binary64.store_set, dict_keys.
  induction d as [|[k x] d IH]; cbn; intros H; [discriminate|].
  destruct (String.eqb k c) eqn:E; cbn; [reflexivity | f_equal; auto].
Qed.

Section Binary64Facts.
Variable strptime : string -> result Binary64.datetime.
Variable plus_minutes : Binary64.datetime -> float -> result Binary64.datetime.
Variable cities : list city.
Variable distance_matrix : list (list float).
Variable depot : city.

Abbreviation body64 := (Binary64.while_body plus_minutes cities distance_matrix depot).
Abbreviation step64 := (Binary64.body_step plus_minutes cities distance_matrix depot).
Abbreviation while64 := (Binary64.while_city plus_minutes cities distance_matrix depot).
Abbreviation for64 := (Binary64.for_cities plus_minutes cities distance_matrix depot).
Abbreviation close64 := (Binary64.close_route plus_minutes cities distance_matrix depot).
Abbreviation simulate64 :=
  (Binary64.simulate_vehicle strptime plus_minutes cities distance_matrix depot).
Abbreviation visits64 := (Binary64.visits plus_minutes cities distance_matrix depot).
Abbreviation evolves64 := (Binary64.evolves plus_minutes cities distance_matrix depot).
Abbreviation run64 :=
  (Binary64.run_vehicles strptime plus_minutes cities distance_matrix depot).

(** The two ways an iteration runs the body to its end. *)
Lemma body_step_inv64 (v : Binary64.vehicle) (c : city) (s s' : Binary64.sim) :
  step64 v c s s' ->
  exists rem l,
    Binary64.store_get c (Binary64.demands s) = Some rem /\
    (0 <? rem)%float = true /\
    Binary64.route s' = Binary64.route s ++ [l] /\
    Binary64.l_from l = Binary64.location s /\
    Binary64.l_to l = Binary64.location s' /\
    (((0 <? Binary64.capacity s)%float = true /\
      Binary64.location s' = c /\
      Binary64.l_deliver l = Binary64.min (Binary64.capacity s) rem /\
      Binary64.capacity s' = (Binary64.capacity s - Binary64.l_deliver l)%float /\
      Binary64.demands s'
      = Binary64.store_set c (rem - Binary64.l_deliver l)%float (Binary64.demands s))
     \/
     ((0 <? Binary64.capacity s)%float = false /\
      Binary64.location s' = depot /\
      Binary64.l_deliver l = 0%float /\
      Binary64.capacity s' = Binary64.v_capacity v /\
      Binary64.demands s' = Binary64.demands s)).
Proof.
  unfold Binary64.body_step, Binary64.while_body, Binary64.remaining.
  intros H.
  destruct (Binary64.store_get c (Binary64.demands s)) as [rem|] eqn:G;
    cbn [bind] in H; [|discriminate].
  destruct (0 <? rem)%float eqn:Hr; [|discriminate].
  exists rem.
  destruct (0 <? Binary64.capacity s)%float eqn:Hc.
  - destruct (Binary64.travel_time_minutes cities distance_matrix (Binary64.location s) c)
      as [tm| |]; cbn [bind] in H; try discriminate.
    destruct (plus_minutes (Binary64.time_var s) tm) as [arr| |];
      cbn [bind] in H; try discriminate.
    destruct (Binary64.dist_between cities distance_matrix (Binary64.location s) c)
      as [dist| |]; cbn [bind] in H; try discriminate.
    destruct (plus_minutes arr _) as [t'| |]; cbn [bind] in H; try discriminate.
    injection H as <-. cbn.
    eexists. split; [reflexivity|]. split; [exact Hr|].
    do 3 (split; [reflexivity|]). left. repeat split.
  - destruct (Binary64.travel_time_minutes cities distance_matrix (Binary64.location s) depot)
      as [t1| |]; cbn [bind] in H; try discriminate.
    destruct (Binary64.travel_time_minutes cities distance_matrix depot c)
      as [t2| |]; cbn [bind] in H; try discriminate.
    destruct (t1 + t2 <=? t2)%float; [|discriminate].
    destruct (plus_minutes (Binary64.time_var s) t1) as [arr| |];
      cbn [bind] in H; try discriminate.
    destruct (Binary64.dist_between cities distance_matrix (Binary64.location s) depot)
      as [dist| |]; cbn [bind] in H; try discriminate.
    injection H as <-. cbn.
    eexists. split; [reflexivity|]. split; [exact Hr|].
    do 3 (split; [reflexivity|]). right. repeat split.
Qed.

(** A property kept by every completed iteration is kept by the loops. *)
Lemma while_city_invariant64 (P : Binary64.sim -> Prop) (v : Binary64.vehicle) (c : city) :
  (forall s s', P s -> step64 v c s s' -> P s') ->
  forall fuel s s', P s -> while64 fuel v c s = Ok s' -> P s'.
Proof.
  intros Hstep. induction fuel as [|fuel IH]; intros s s' Hs H; [discriminate|].
  cbn [Binary64.while_city] in H.
  destruct (body64 v c s) as [[s1| |]| |] eqn:E; cbn [bind] in H; try discriminate.
  - apply (IH s1 s'); [|exact H]. apply (Hstep s s1 Hs E).
  - now injection H as <-.
  - now injection H as <-.
Qed.

Lemma for_cities_invariant64 (P : Binary64.sim -> Prop) (v : Binary64.vehicle) :
  (forall c s s', P s -> step64 v c s s' -> P s') ->
  forall fuel cs s s', P s -> for64 fuel v cs s = Ok s' -> P s'.
Proof.
  intros Hstep fuel cs. induction cs as [|c cs IH]; intros s s' Hs H.
  - cbn in H. now injection H as <-.
  - cbn [Binary64.for_cities] in H.
    destruct (while64 fuel v c s) as [s1| |] eqn:E; cbn [bind] in H; try discriminate.
    apply (IH s1 s'); [|exact H].
    apply (while_city_invariant64 P v c (Hstep c) fuel s s1 Hs E).
Qed.

Lemma for_cities_visits64 (v : Binary64.vehicle) (s0 : Binary64.sim)
    (fuel : nat) (cs : list city) (s s' : Binary64.sim) :
  visits64 v s0 s -> for64 fuel v cs s = Ok s' -> visits64 v s0 s'.
Proof.
  apply (for_cities_invariant64 (visits64 v s0) v).
  intros c s1 s2 H1 H2. now apply (Binary64.visits_step _ _ _ _ v s0 c s1 s2).
Qed.

Lemma for_cities_evolves64 (d0 : Binary64.store) (v : Binary64.vehicle)
    (fuel : nat) (cs : list city) (s s' : Binary64.sim) :
  evolves64 d0 (Binary64.demands s) -> for64 fuel v cs s = Ok s' ->
  evolves64 d0 (Binary64.demands s').
Proof.
  apply (for_cities_invariant64 (fun s => evolves64 d0 (Binary64.demands s)) v).
  intros c s1 s2 H1 H2. now apply (Binary64.evolves_step _ _ _ _ d0 v c s1 s2).
Qed.

Lemma evolves_trans64 (d1 d2 d3 : Binary64.store) :
  evolves64 d1 d2 -> evolves64 d2 d3 -> evolves64 d1 d3.
Proof.
  intros H12 H23. induction H23 as [|v c s s' _ IH Hs]; [exact H12|].
  now apply (Binary64.evolves_step _ _ _ _ d1 v c s s').
Qed.

(** The closing leg carries nothing and leaves the dictionary alone. *)
Lemma close_route_inv64 (s s' : Binary64.sim) :
  close64 s = Ok s' ->
  Binary64.demands s' = Binary64.demands s /\
  (Binary64.route s' = Binary64.route s \/
   exists l, Binary64.route s' = Binary64.route s ++ [l] /\
             Binary64.l_to l = depot /\ Binary64.l_deliver l = 0%float).
Proof.
  unfold Binary64.close_route. intros H.
  destruct (String.eqb (Binary64.location s) depot).
  - injection H as <-. auto.
  - destruct (Binary64.travel_time_minutes cities distance_matrix (Binary64.location s) depot)
      as [t1| |]; cbn [bind] in H; try discriminate.
    destruct (plus_minutes (Binary64.time_var s) t1) as [arr| |];
      cbn [bind] in H; try discriminate.
    destruct (Binary64.dist_between cities distance_matrix (Binary64.location s) depot)
      as [dist| |]; cbn [bind] in H; try discriminate.
    injection H as <-. cbn. split; [reflexivity|]. right. eexists. repeat split.
Qed.

Lemma simulate_inv64 (fuel : nat) (v : Binary64.vehicle) (d : Binary64.store)
    (r : list Binary64.leg) (d' : Binary64.store) :
  simulate64 fuel v d = Ok (r, d') ->
  exists t0 s s',
    strptime (Binary64.v_startDate v ++ " " ++ Binary64.v_startTime v) = Ok t0 /\
    for64 fuel v (dict_keys d) (Binary64.start_sim depot t0 v d) = Ok s /\
    close64 s = Ok s' /\ r = Binary64.route s' /\ d' = Binary64.demands s'.
Proof.
  unfold Binary64.simulate_vehicle. intros H.
  destruct (strptime _) as [t0| |] eqn:E0; cbn [bind] in H; try discriminate.
  destruct (for64 fuel v (dict_keys d) _) as [s| |] eqn:E1; cbn [bind] in H; try discriminate.
  destruct (close64 s) as [s'| |] eqn:E2; cbn [bind] in H; try discriminate.
  injection H as <- <-. exists t0, s, s'. auto.
Qed.
End Binary64Facts.

(** ** Quantities stay within what was declared *)

Lemma within_refl (q : float) : Binary64.quantity q -> Binary64.within q q.
Proof.
  intros [F H]. split; [exact F|]. split; [exact H|]. now apply leb_refl_finite.
Qed.

Lemma within_quantity (q x : float) : Binary64.within q x -> Binary64.quantity x.
Proof. intros (F & H & _). split; auto. Qed.

Lemma within_trans (q r x : float) :
  finite q = true -> Binary64.within q r -> Binary64.within r x -> Binary64.within q x.
Proof.
  intros Fq Hr Hx.
  pose proof (proj1 (within_F2Z q r Fq) Hr) as (Fr & R0 & R1).
  pose proof (proj1 (within_F2Z r x Fr) Hx) as (Fx & X0 & X1).
  apply (within_F2Z q x Fq). split; [exact Fx|]. lia.
Qed.

Lemma within_zero (q : float) : Binary64.quantity q -> Binary64.within q 0%float.
Proof.
  intros Hq. pose proof (proj1 (quantity_F2Z q) Hq) as [F H].
  apply (within_F2Z q 0%float F). rewrite F2Z_zero. split; [apply finite_zero | lia].
Qed.

Lemma store_le_refl64 (d : Binary64.store) : Binary64.store_ok d -> Binary64.store_le d d.
Proof.
  intros Hok. split; [reflexivity|]. intros c r G. exists r. split; [exact G|].
  apply within_refl. exact (Hok c r G).
Qed.

Lemma store_le_trans64 (d1 d2 d3 : Binary64.store) :
  Binary64.store_ok d3 ->
  Binary64.store_le d1 d2 -> Binary64.store_le d2 d3 -> Binary64.store_le d1 d3.
Proof.
  intros Hok [K12 L12] [K23 L23]. split; [congruence|].
  intros c r3 G3. destruct (L23 c r3 G3) as (r2 & G2 & W2).
  destruct (L12 c r2 G2) as (r1 & G1 & W1).
  exists r1. split; [exact G1|].
  apply (within_trans r3 r2 r1); auto. apply (Hok c r3 G3).
Qed.

(** Writing back what is left after an unloading. *)
Lemma store_set_delivery64 (c : city) (rem cap : float) (d : Binary64.store) :
  Binary64.store_ok d ->
  Binary64.store_get c d = Some rem ->
  (0 <? rem)%float = true -> (0 <? cap)%float = true ->
  let d' := Binary64.store_set c (rem - Binary64.min cap rem)%float d in
  Binary64.store_ok d' /\ Binary64.store_le d' d /\
  Binary64.within rem (Binary64.min cap rem).
Proof.
  intros Hok G Hr Hc d'.
  pose proof (proj1 (quantity_F2Z rem) (Hok c rem G)) as [Fr R0].
  destruct (min_demand cap rem Fr Hr Hc) as (Fm & Hm & _).
  destruct (sub_within rem (Binary64.min cap rem) Fr Fm ltac:(lia)) as [Fs Hs].
  assert (W : Binary64.within rem (rem - Binary64.min cap rem)%float)
    by (apply (within_F2Z _ _ Fr); auto).
  split; [|split].
  - intros x r Gx. destruct (String.eqb x c) eqn:E.
    + apply String.eqb_eq in E. subst x.
      unfold d' in Gx. rewrite (store_get_set_same64 c _ d rem G) in Gx.
      injection Gx as <-. apply (within_quantity rem). exact W.
    + apply String.eqb_neq in E.
      unfold d' in Gx. rewrite (store_get_set_other64 c x _ d E) in Gx.
      apply (Hok x r Gx).
  - split; [apply (store_keys_set64 c _ rem d G)|].
    intros x r Gx. destruct (String.eqb x c) eqn:E.
    + apply String.eqb_eq in E. subst x. rewrite G in Gx. injection Gx as <-.
      exists (rem - Binary64.min cap rem)%float. split; [|exact W].
      apply (store_get_set_same64 c _ d rem G).
    + apply String.eqb_neq in E. exists r. split.
      * unfold d'. now rewrite (store_get_set_other64 c x _ d E).
      * apply within_refl. apply (Hok x r Gx).
  - apply (within_F2Z _ _ Fr). split; [exact Fm | lia].
Qed.

Section Binary64Invariants.
Variable strptime : string -> result Binary64.datetime.
Variable plus_minutes : Binary64.datetime -> float -> result Binary64.datetime.
Variable cities : list city.
Variable distance_matrix : list (list float).
Variable depot : city.

Abbreviation step64' := (Binary64.body_step plus_minutes cities distance_matrix depot).
Abbreviation visits64' := (Binary64.visits plus_minutes cities distance_matrix depot).
Abbreviation evolves64' := (Binary64.evolves plus_minutes cities distance_matrix depot).

(** One completed iteration, from a state whose capacity is within the
    declared one. *)
Lemma step_capacity64 (v : Binary64.vehicle) (c : city) (s s' : Binary64.sim) :
  Binary64.quantity (Binary64.v_capacity v) ->
  Binary64.within (Binary64.v_capacity v) (Binary64.capacity s) ->
  step64' v c s s' ->
  Binary64.within (Binary64.v_capacity v) (Binary64.capacity s') /\
  exists l,
    Binary64.route s' = Binary64.route s ++ [l] /\
    Binary64.within (Binary64.capacity s) (Binary64.l_deliver l) /\
    (((0 <? Binary64.l_deliver l)%float = true /\
      Binary64.capacity s' = (Binary64.capacity s - Binary64.l_deliver l)%float)
     \/
     (Binary64.l_deliver l = 0%float /\
      (0 <? Binary64.capacity s)%float = false /\
      Binary64.capacity s' = Binary64.v_capacity v)).
Proof.
  intros HC W H.
  pose proof (proj1 (quantity_F2Z _) HC) as [FC C0].
  pose proof (proj1 (within_F2Z _ _ FC) W) as (Fc & c0 & c1).
  destruct (body_step_inv64 _ _ _ _ _ _ _ _ H)
    as (rem & l & G & Hr & Hroute & _ & _ & [(Hc & _ & Hd & Hcap & _) | (Hc & _ & Hd & Hcap & _)]).
  - destruct (min_capacity (Binary64.capacity s) rem Fc Hr Hc) as (Fm & Hm).
    rewrite <- Hd in Fm, Hm.
    destruct (sub_within (Binary64.capacity s) (Binary64.l_deliver l) Fc Fm ltac:(lia))
      as [Fs Hs].
    split.
    + rewrite Hcap. apply (within_F2Z _ _ FC). split; [exact Fs | lia].
    + exists l. split; [exact Hroute|]. split.
      * apply (within_F2Z _ _ Fc). split; [exact Fm | lia].
      * left. split; [|exact Hcap].
        rewrite (ltb_F2Z _ _ finite_zero Fm), F2Z_zero. apply Z.ltb_lt. lia.
  - split.
    + rewrite Hcap. now apply within_refl.
    + exists l. split; [exact Hroute|]. split.
      * rewrite Hd. apply within_zero. now apply (within_quantity (Binary64.v_capacity v)).
      * right. auto.
Qed.

Lemma visits_capacity64 (v : Binary64.vehicle) (t0 : Binary64.datetime)
    (d : Binary64.store) (s : Binary64.sim) :
  Binary64.quantity (Binary64.v_capacity v) ->
  visits64' v (Binary64.start_sim depot t0 v d) s ->
  Binary64.within (Binary64.v_capacity v) (Binary64.capacity s) /\
  Forall (fun l => Binary64.within (Binary64.v_capacity v) (Binary64.l_deliver l))
         (Binary64.route s).
Proof.
  intros HC Hs.
  pose proof (proj1 (quantity_F2Z _) HC) as [FC C0].
  induction Hs as [|c s s' _ [IHc IHr] Hstep].
  - split; [now apply within_refl | constructor].
  - destruct (step_capacity64 v c s s' HC IHc Hstep) as (W' & l & Hroute & Wl & _).
    split; [exact W'|]. rewrite Hroute. apply Forall_app. split; [exact IHr|].
    constructor; [|constructor].
    apply (within_trans _ (Binary64.capacity s)); auto.
Qed.

(** One completed iteration, on the dictionary. *)
Lemma step_store64 (v : Binary64.vehicle) (c : city) (s s' : Binary64.sim) :
  Binary64.store_ok (Binary64.demands s) ->
  step64' v c s s' ->
  Binary64.store_ok (Binary64.demands s') /\
  Binary64.store_le (Binary64.demands s') (Binary64.demands s) /\
  exists rem l,
    Binary64.store_get c (Binary64.demands s) = Some rem /\
    Binary64.route s' = Binary64.route s ++ [l] /\
    Binary64.within rem (Binary64.l_deliver l) /\
    (((0 <? Binary64.l_deliver l)%float = true /\ Binary64.l_to l = c /\
      Binary64.demands s'
      = Binary64.store_set c (rem - Binary64.l_deliver l)%float (Binary64.demands s))
     \/
     (Binary64.l_deliver l = 0%float /\ Binary64.l_to l = depot /\
      Binary64.demands s' = Binary64.demands s)).
Proof.
  intros Hok H.
  destruct (body_step_inv64 _ _ _ _ _ _ _ _ H)
    as (rem & l & G & Hr & Hroute & _ & Hto
        & [(Hc & Hloc & Hd & _ & Hdem) | (Hc & Hloc & Hd & _ & Hdem)]).
  - destruct (store_set_delivery64 c rem (Binary64.capacity s) _ Hok G Hr Hc)
      as (Ok' & Le' & Wm).
    rewrite <- Hd in Ok', Le', Wm.
    rewrite Hdem. split; [exact Ok'|]. split; [exact Le'|].
    exists rem, l. split; [exact G|]. split; [exact Hroute|]. split; [exact Wm|].
    left. split; [|split; [congruence | reflexivity]].
    pose proof (proj1 (quantity_F2Z rem) (Hok c rem G)) as [Fr R0].
    destruct (min_demand (Binary64.capacity s) rem Fr Hr Hc) as (Fm & Hm & _).
    rewrite <- Hd in Fm, Hm.
    rewrite (ltb_F2Z _ _ finite_zero Fm), F2Z_zero. apply Z.ltb_lt. lia.
  - rewrite Hdem. split; [exact Hok|]. split; [now apply store_le_refl64|].
    exists rem, l. split; [exact G|]. split; [exact Hroute|]. split.
    + rewrite Hd. apply within_zero. apply (Hok c rem G).
    + right. split; [exact Hd|]. split; [congruence | reflexivity].
Qed.

Lemma evolves_store64 (d d' : Binary64.store) :
  Binary64.store_ok d -> evolves64' d d' ->
  Binary64.store_ok d' /\ Binary64.store_le d' d.
Proof.
  intros Hok H. induction H as [|v c s s' _ [IHok IHle] Hstep].
  - split; [exact Hok | now apply store_le_refl64].
  - destruct (step_store64 v c s s' IHok Hstep) as (Ok' & Le' & _).
    split; [exact Ok'|]. apply (store_le_trans64 _ (Binary64.demands s)); auto.
Qed.
Lemma capacity_after_snoc (C acc : float) (r : list Binary64.leg) (l : Binary64.leg) :
  Binary64.capacity_after C acc (r ++ [l])
  = if Binary64.is_return l then C
    else (Binary64.capacity_after C acc r - Binary64.l_deliver l)%float.
Proof.
  revert acc. induction r as [|x r IH]; intros acc; cbn [app Binary64.capacity_after].
  - reflexivity.
  - apply IH.
Qed.

(** The remaining capacity is what the deliveries since the last refill
    leave of the declared capacity. *)
Lemma visits_capacity_after64 (v : Binary64.vehicle) (t0 : Binary64.datetime)
    (d : Binary64.store) (s : Binary64.sim) :
  Binary64.quantity (Binary64.v_capacity v) ->
  visits64' v (Binary64.start_sim depot t0 v d) s ->
  Binary64.capacity s
  = Binary64.capacity_after (Binary64.v_capacity v) (Binary64.v_capacity v)
      (Binary64.route s).
Proof.
  intros HC Hs. induction Hs as [|c s s' Hs IH Hstep]; [reflexivity|].
  destruct (visits_capacity64 v t0 d s HC Hs) as [W _].
  destruct (step_capacity64 v c s s' HC W Hstep)
    as (_ & l & Hroute & Wl & [[Hpos Hcap] | (Hd & _ & Hcap)]).
  - rewrite Hroute, capacity_after_snoc, <- IH, Hcap.
    destruct Wl as (Fl & _ & _). unfold Binary64.is_return.
    rewrite (eqb_F2Z _ _ Fl finite_zero), F2Z_zero.
    pose proof (positive_F2Z _ Fl Hpos) as P.
    destruct (Z.eqb_spec (F2Z (Binary64.l_deliver l)) 0) as [E | _]; [lia | reflexivity].
  - rewrite Hroute, capacity_after_snoc, Hcap.
    unfold Binary64.is_return. now rewrite Hd.
Qed.
End Binary64Invariants.

(** ** A whole run on binary64 numbers *)

Lemma last_declared_cons64 (c : city) (d : Binary64.demand) (ds : list Binary64.demand) :
  Binary64.last_declared c (d :: ds)
  = match Binary64.last_declared c ds with
    | Some q => Some q
    | None => if String.eqb (Binary64.d_city d) c then Some (Binary64.d_demand d) else None
    end.
Proof.
  unfold Binary64.last_declared. cbn [rev]. rewrite find_app_first.
  destruct (find _ (rev ds)); cbn; auto.
  now destruct (String.eqb (Binary64.d_city d) c).
Qed.

Lemma last_declared_in64 (c : city) (q : float) (ds : list Binary64.demand) :
  Binary64.last_declared c ds = Some q ->
  exists d, In d ds /\ Binary64.d_city d = c /\ Binary64.d_demand d = q.
Proof.
  unfold Binary64.last_declared.
  destruct (find _ (rev ds)) as [d|] eqn:E; try discriminate.
  cbn. intros H. injection H as <-.
  apply find_some in E. destruct E as [Hin He].
  apply in_rev in Hin. apply String.eqb_eq in He. eauto.
Qed.

Lemma store_get_set64 (c c' : city) (r : float) (d : Binary64.store) :
  Binary64.store_get c' (Binary64.store_set c r d)
  = if String.eqb c c' then Some r else Binary64.store_get c' d.
Proof.
  unfold Binary64.store_get, Binary64.store_set.
  induction d as [|[k x] d IH]; cbn.
  - reflexivity.
  - destruct (String.eqb k c) eqn:E; cbn.
    + apply String.eqb_eq in E. subst k. now destruct (String.eqb c c').
    + destruct (String.eqb k c') eqn:E'; [|exact IH].
      apply String.eqb_eq in E'. subst k. now rewrite String.eqb_sym, E.
Qed.

Lemma fold_store_get64 (c : city) (ds : list Binary64.demand) (acc : Binary64.store) :
  Binary64.store_get c
    (fold_left (fun acc d => Binary64.store_set (Binary64.d_city d) (Binary64.d_demand d) acc)
               ds acc)
  = match Binary64.last_declared c ds with
    | Some q => Some q
    | None => Binary64.store_get c acc
    end.
Proof.
  revert acc. induction ds as [|d ds IH]; intros acc; cbn [fold_left]; auto.
  rewrite IH, last_declared_cons64, store_get_set64.
  destruct (Binary64.last_declared c ds); auto.
  now destruct (String.eqb (Binary64.d_city d) c).
Qed.

(** The entry of a city is the quantity of the last record naming it. *)
Lemma demands_copy_get64 (c : city) (ds : list Binary64.demand) :
  Binary64.store_get c (Binary64.demands_copy ds) = Binary64.last_declared c ds.
Proof.
  unfold Binary64.demands_copy. rewrite fold_store_get64.
  now destruct (Binary64.last_declared c ds).
Qed.

Lemma demands_copy_ok64 (ds : list Binary64.demand) :
  Forall (fun d => Binary64.quantity (Binary64.d_demand d)) ds ->
  Binary64.store_ok (Binary64.demands_copy ds).
Proof.
  intros H c r G. rewrite demands_copy_get64 in G.
  apply last_declared_in64 in G. destruct G as (d & Hin & _ & <-).
  rewrite Forall_forall in H. auto.
Qed.

Lemma leg_ok_mono (d D : Binary64.store) (l : Binary64.leg) :
  Binary64.store_ok D -> Binary64.store_le d D ->
  Binary64.leg_ok d l -> Binary64.leg_ok D l.
Proof.
  intros Hok [_ Hle] [Hq Hl]. split; [exact Hq|].
  intros Q G. destruct (Hle _ _ G) as (q & Gq & W).
  apply (within_trans Q q); auto. apply (Hok _ _ G).
Qed.

Lemma plan_ok_set (D : Binary64.store) (id : nat) (r : list Binary64.leg)
    (sol : Binary64.solution) :
  Binary64.plan_ok D sol -> Forall (Binary64.leg_ok D) r ->
  Binary64.plan_ok D (dict_set Nat.eqb id r sol).
Proof.
  unfold Binary64.plan_ok. intros Hs Hr.
  induction Hs as [|[k w] sol Hw Hs IH]; cbn.
  - repeat constructor; auto.
  - destruct (Nat.eqb k id); constructor; auto.
Qed.

Lemma remaining_after_snoc (c : city) (acc : float) (r : list Binary64.leg)
    (l : Binary64.leg) :
  Binary64.remaining_after c acc (r ++ [l])
  = if String.eqb (Binary64.l_to l) c
    then (Binary64.remaining_after c acc r - Binary64.l_deliver l)%float
    else Binary64.remaining_after c acc r.
Proof.
  revert acc. induction r as [|x r IH]; intros acc; cbn [app Binary64.remaining_after].
  - reflexivity.
  - apply IH.
Qed.

Lemma plan_remaining_snoc (c : city) (acc : float) (sol : Binary64.solution)
    (id : nat) (r : list Binary64.leg) :
  Binary64.plan_remaining c acc (sol ++ [(id, r)])
  = Binary64.remaining_after c (Binary64.plan_remaining c acc sol) r.
Proof.
  revert acc. induction sol as [|[k w] sol IH]; intros acc;
    cbn [app Binary64.plan_remaining].
  - reflexivity.
  - apply IH.
Qed.

Lemma dict_set_absent {V : Type} (id : nat) (r : V) (sol : list (nat * V)) :
  ~ In id (dict_keys sol) -> dict_set Nat.eqb id r sol = sol ++ [(id, r)].
Proof.
  unfold dict_keys. induction sol as [|[k w] sol IH]; cbn; intros H; [reflexivity|].
  destruct (Nat.eqb k id) eqn:E.
  - apply Nat.eqb_eq in E. tauto.
  - f_equal. apply IH. tauto.
Qed.

Section Binary64Run.
Variable strptime : string -> result Binary64.datetime.
Variable plus_minutes : Binary64.datetime -> float -> result Binary64.datetime.
Variable cities : list city.
Variable distance_matrix : list (list float).
Variable depot : city.

Abbreviation evolves64'' := (Binary64.evolves plus_minutes cities distance_matrix depot).

(** What the simulation of one vehicle does to the dictionary, and what
    its legs deliver. *)
Lemma simulate_store64 (fuel : nat) (v : Binary64.vehicle) (d : Binary64.store)
    (r : list Binary64.leg) (d' : Binary64.store) :
  Binary64.store_ok d ->
  Binary64.simulate_vehicle strptime plus_minutes cities distance_matrix depot fuel v d
  = Ok (r, d') ->
  evolves64'' d d' /\ Binary64.store_ok d' /\ Binary64.store_le d' d /\
  Forall (Binary64.leg_ok d) r.
Proof.
  intros Hok H.
  destruct (simulate_inv64 _ _ _ _ _ _ _ _ _ _ H) as (t0 & s & s' & _ & Hf & Hc & -> & ->).
  set (P := fun s : Binary64.sim =>
              Binary64.store_ok (Binary64.demands s) /\
              Binary64.store_le (Binary64.demands s) d /\
              Forall (Binary64.leg_ok d) (Binary64.route s)).
  assert (HP : P s).
  { apply (for_cities_invariant64 plus_minutes cities distance_matrix depot P v)
      with (fuel := fuel) (cs := dict_keys d) (s := Binary64.start_sim depot t0 v d);
      [|split; [exact Hok | split; [now apply store_le_refl64 | constructor]] | exact Hf].
    intros c s1 s2 (Ok1 & Le1 & R1) Hstep.
    destruct (step_store64 _ _ _ _ v c s1 s2 Ok1 Hstep)
      as (Ok2 & Le2 & rem & l & G & Hroute & W & Hcase).
    split; [exact Ok2|]. split; [apply (store_le_trans64 _ (Binary64.demands s1)); auto|].
    rewrite Hroute. apply Forall_app. split; [exact R1|].
    constructor; [|constructor]. split; [apply (within_quantity rem); exact W|].
    intros q Gq. destruct Hcase as [(_ & Hto & _) | (Hd & _ & _)].
    - rewrite Hto in Gq. destruct Le1 as [_ Le1].
      destruct (Le1 c q Gq) as (r' & G' & W'). rewrite G in G'. injection G' as <-.
      apply (within_trans q rem); auto. apply (Hok c q Gq).
    - rewrite Hd. apply within_zero. apply (Hok _ q Gq). }
  destruct HP as (Oks & Les & Rs).
  assert (Hev : evolves64'' d (Binary64.demands s)).
  { apply (for_cities_evolves64 plus_minutes cities distance_matrix depot d v fuel
             (dict_keys d) (Binary64.start_sim depot t0 v d) s); [constructor | exact Hf]. }
  destruct (close_route_inv64 _ _ _ _ _ _ Hc) as [Hd [Hr | (l & Hr & Hto & Hl)]];
    rewrite Hd, Hr.
  - auto.
  - split; [exact Hev|]. split; [exact Oks|]. split; [exact Les|].
    apply Forall_app. split; [exact Rs|].
    constructor; [|constructor]. split.
    + rewrite Hl. split; [apply finite_zero | reflexivity].
    + intros q Gq. rewrite Hl. apply within_zero. apply (Hok _ q Gq).
Qed.

Lemma run_vehicles_store64 (D : Binary64.store) (fuel : nat) (vs : list Binary64.vehicle) :
  Binary64.store_ok D ->
  forall (d : Binary64.store) (sol sol' : Binary64.solution) (d' : Binary64.store),
    evolves64'' D d -> Binary64.store_ok d -> Binary64.store_le d D ->
    Binary64.plan_ok D sol ->
    Binary64.run_vehicles strptime plus_minutes cities distance_matrix depot fuel vs d sol
    = Ok (sol', d') ->
    evolves64'' D d' /\ Binary64.store_ok d' /\ Binary64.store_le d' D /\
    Binary64.plan_ok D sol'.
Proof.
  intros HD. induction vs as [|v vs IH]; intros d sol sol' d' Hev Hok Hle Hsol H;
    cbn [Binary64.run_vehicles] in H.
  - injection H as <- <-. auto.
  - destruct (Binary64.any_remaining d).
    + destruct (Binary64.simulate_vehicle _ _ _ _ _ fuel v d) as [[r d1]| |] eqn:E;
        cbn [bind] in H; try discriminate.
      destruct (simulate_store64 fuel v d r d1 Hok E) as (Hev1 & Hok1 & Hle1 & Hr).
      assert (Hsol1 : Binary64.plan_ok D
                        (if Binary64.is_empty r then sol
                         else dict_set Nat.eqb (Binary64.v_id v) r sol)).
      { destruct r as [|l r]; cbn [Binary64.is_empty]; [exact Hsol|].
        apply plan_ok_set; [exact Hsol|].
        apply Forall_forall. intros x Hx. rewrite Forall_forall in Hr.
        apply (leg_ok_mono d D); auto. }
      refine (IH d1 _ sol' d' _ Hok1 _ Hsol1 H).
      * apply (evolves_trans64 _ _ _ _ D d d1); auto.
      * apply (store_le_trans64 _ d); auto.
    + apply (IH d sol sol' d'); auto.
Qed.
(** A leg that carries nothing leaves every entry as it is; a delivery
    takes its quantity off the entry of its city. *)
Lemma step_remaining64 (d0 : Binary64.store) (v : Binary64.vehicle) (c : city)
    (s s' : Binary64.sim) :
  (forall x q, Binary64.store_get x d0 = Some q ->
     Binary64.store_get x (Binary64.demands s)
     = Some (Binary64.remaining_after x q (Binary64.route s))) ->
  Binary64.body_step plus_minutes cities distance_matrix depot v c s s' ->
  forall x q, Binary64.store_get x d0 = Some q ->
    Binary64.store_get x (Binary64.demands s')
    = Some (Binary64.remaining_after x q (Binary64.route s')).
Proof.
  intros IH Hstep x q Gx.
  destruct (body_step_inv64 _ _ _ _ _ _ _ _ Hstep)
    as (rem & l & G & Hr & Hroute & _ & Hto
        & [(Hc & Hloc & Hd & _ & Hdem) | (Hc & Hloc & Hd & _ & Hdem)]);
    rewrite Hroute, remaining_after_snoc, Hto, Hloc, Hdem.
  - destruct (String.eqb c x) eqn:E.
    + apply String.eqb_eq in E. subst x.
      rewrite (store_get_set_same64 c _ _ rem G).
      specialize (IH c q Gx). rewrite G in IH. now injection IH as <-.
    + apply String.eqb_neq in E.
      rewrite (store_get_set_other64 c x _ _ (fun H => E (eq_sym H))).
      now apply IH.
  - rewrite Hd, sub_zero_r. rewrite (IH x q Gx). now destruct (String.eqb depot x).
Qed.

(** The entry a simulation leaves is what its deliveries to the city,
    taken off one after the other, leave of the entry it found. *)
Lemma simulate_remaining64 (fuel : nat) (v : Binary64.vehicle) (d : Binary64.store)
    (r : list Binary64.leg) (d' : Binary64.store) :
  Binary64.simulate_vehicle strptime plus_minutes cities distance_matrix depot fuel v d
  = Ok (r, d') ->
  forall x q, Binary64.store_get x d = Some q ->
    Binary64.store_get x d' = Some (Binary64.remaining_after x q r).
Proof.
  intros H.
  destruct (simulate_inv64 _ _ _ _ _ _ _ _ _ _ H) as (t0 & s & s' & _ & Hf & Hc & -> & ->).
  set (P := fun s : Binary64.sim =>
              forall x q, Binary64.store_get x d = Some q ->
                Binary64.store_get x (Binary64.demands s)
                = Some (Binary64.remaining_after x q (Binary64.route s))).
  assert (HP : P s).
  { apply (for_cities_invariant64 plus_minutes cities distance_matrix depot P v)
      with (fuel := fuel) (cs := dict_keys d) (s := Binary64.start_sim depot t0 v d);
      [| intros x q Gx; exact Gx | exact Hf].
    intros c s1 s2 H1 Hstep. exact (step_remaining64 d v c s1 s2 H1 Hstep). }
  intros x q Gx.
  destruct (close_route_inv64 _ _ _ _ _ _ Hc) as [Hd [Hr | (l & Hr & Hto & Hl)]];
    rewrite Hd, Hr.
  - now apply HP.
  - rewrite remaining_after_snoc, Hl, sub_zero_r, (HP x q Gx).
    now destruct (String.eqb (Binary64.l_to l) x).
Qed.

(** With pairwise distinct identifiers no route of the plan is replaced,
    and the entries the run ends with are what the deliveries of the plan
    leave. *)
Lemma run_vehicles_remaining64 (fuel : nat) (vs : list Binary64.vehicle) :
  forall (d : Binary64.store) (sol sol' : Binary64.solution) (d' : Binary64.store),
    NoDup (map Binary64.v_id vs) ->
    (forall v, In v vs -> ~ In (Binary64.v_id v) (dict_keys sol)) ->
    Binary64.run_vehicles strptime plus_minutes cities distance_matrix depot fuel vs d sol
    = Ok (sol', d') ->
    forall x q acc,
      Binary64.store_get x d = Some q -> q = Binary64.plan_remaining x acc sol ->
      Binary64.store_get x d' = Some (Binary64.plan_remaining x acc sol').
Proof.
  induction vs as [|v vs IH]; intros d sol sol' d' Hnd Hfresh H x q acc Gx Hq;
    cbn [Binary64.run_vehicles] in H.
  - injection H as <- <-. now rewrite Gx, Hq.
  - cbn [map] in Hnd. apply NoDup_cons_iff in Hnd. destruct Hnd as [Hv Hnd].
    destruct (Binary64.any_remaining d).
    + destruct (Binary64.simulate_vehicle _ _ _ _ _ fuel v d) as [[r d1]| |] eqn:E;
        cbn [bind] in H; try discriminate.
      pose proof (simulate_remaining64 fuel v d r d1 E x q Gx) as G1.
      destruct r as [|l r]; cbn [Binary64.is_empty] in H.
      * apply (IH d1 sol sol' d' Hnd) with (q := q) (acc := acc); auto.
        intros w Hw. apply Hfresh. now right.
      * rewrite (dict_set_absent (Binary64.v_id v) (l :: r) sol) in H
          by (apply Hfresh; now left).
        apply (IH d1 (sol ++ [(Binary64.v_id v, l :: r)]) sol' d' Hnd)
          with (q := Binary64.remaining_after x q (l :: r)) (acc := acc); auto.
        -- intros w Hw. unfold dict_keys. rewrite map_app, in_app_iff. cbn.
           intros [Hin | [Heq | []]].
           ++ apply (Hfresh w (or_intror Hw)). exact Hin.
           ++ apply Hv. rewrite Heq. now apply in_map.
        -- rewrite plan_remaining_snoc. now rewrite <- Hq.
    + apply (IH d sol sol' d' Hnd) with (q := q) (acc := acc); auto.
      intros w Hw. apply Hfresh. now right.
Qed.
End Binary64Run.

(** ** A delivery that the subtraction absorbs *)

Lemma absorbed_subtraction : (1e9 - 1e-8)%float = 1e9%float.
Proof. reflexivity. Qed.

Lemma exhausted_subtraction : (1e-8 - 1e-8)%float = 0%float.
Proof. reflexivity. Qed.

Lemma travel_time_at_depot :
  Binary64.travel_time_minutes b64_cities0 b64_matrix0 "Pune"%string "Pune"%string
  = Ok 0%float.
Proof. reflexivity. Qed.

Lemma dist_at_depot :
  Binary64.dist_between b64_cities0 b64_matrix0 "Pune"%string "Pune"%string = Ok 0%float.
Proof. reflexivity. Qed.

Section Absorbed.
Variable plus_minutes : Binary64.datetime -> float -> result Binary64.datetime.
Variable t0 : Binary64.datetime.
Hypothesis plus_zero : plus_minutes t0 0%float = Ok t0.
Hypothesis plus_unload : plus_minutes t0 ((1e-8 / 100) * 30)%float = Ok t0.

(** Loaded or empty, the vehicle stands at the depot at [t0] and the city
    asks for all of its quantity: the loop does not end. *)
Lemma absorbed_while_city (fuel : nat) :
  forall (cap : float) (r : list Binary64.leg),
    cap = 1e-8%float \/ cap = 0%float ->
    Binary64.while_city plus_minutes b64_cities0 b64_matrix0 "Pune"%string fuel
      (b64_vehicle 1 1e-8) "Pune"%string
      {| Binary64.time_var := t0; Binary64.location := "Pune"%string;
         Binary64.capacity := cap; Binary64.route := r;
         Binary64.demands := [("Pune"%string, 1e9%float)] |}
    = OutOfFuel.
Proof.
  induction fuel as [|fuel IH]; intros cap r Hcap; [reflexivity|].
  cbn [Binary64.while_city].
  unfold Binary64.while_body.
  cbn [Binary64.demands Binary64.capacity Binary64.location Binary64.time_var
       Binary64.route].
  change (Binary64.remaining "Pune"%string [("Pune"%string, 1e9%float)])
    with (Ok 1e9%float : result float).
  cbn [bind].
  change (0 <? 1e9)%float with true. cbv iota.
  destruct Hcap as [-> | ->].
  - change (0 <? 1e-8)%float with true. cbv iota.
    rewrite travel_time_at_depot. cbn [bind]. rewrite plus_zero. cbn [bind].
    rewrite dist_at_depot. cbn [bind].
    change (Binary64.min 1e-8 1e9) with 1e-8%float.
    change (1e-8 / 100 * Binary64.UNLOAD_MIN_PER_100KG)%float
      with (1e-8 / 100 * 30)%float.
    rewrite plus_unload. cbn [bind].
    rewrite absorbed_subtraction, exhausted_subtraction.
    change (Binary64.store_set "Pune"%string 1e9%float [("Pune"%string, 1e9%float)])
      with [("Pune"%string, 1e9%float)].
    apply IH. now right.
  - change (0 <? 0)%float with false. cbv iota.
    rewrite travel_time_at_depot. cbn [bind].
    change (0 + 0 <=? 0)%float with true. cbv iota.
    rewrite plus_zero. cbn [bind]. rewrite dist_at_depot. cbn [bind].
    apply IH. now left.
Qed.
End Absorbed.

Close Scope Z_scope.

(** * The claims *)

(** C1, as the code has it.  A city has one entry in the dictionary of
    remaining quantities, initialised from the last record that names it.
    With every declared quantity finite and not negative, on the binary64
    numbers the program computes with: any dictionary [d1] a run passes
    through, and any later one [d2], hold [0 <= d2[c] <= d1[c] <= q] with
    [q] the quantity of the last record naming [c]; a completed iteration
    of the loop body either is a refill, which carries nothing and leaves
    the dictionary alone, or delivers to [c] a positive quantity that is at
    most what [c] still asks for and writes back the rounded difference;
    the dictionary a run ends with is such a dictionary, every leg of the
    plan delivers a quantity between zero and [q], the quantity of the last
    record naming its destination, and, the vehicles having pairwise
    distinct identifiers, what remains for a city is exactly what the
    deliveries of the plan to it, subtracted one after the other in plan
    order, leave of [q].  Nothing is said of the exact sum of the
    deliveries: it can exceed a declared quantity. *)
Theorem remaining_quantity_within_declared
    (strptime : string -> result Binary64.datetime)
    (plus_minutes : Binary64.datetime -> float -> result Binary64.datetime)
    (cities : list city) (m : list (list float)) (depot : city)
    (ds : list Binary64.demand) :
  Forall (fun d => Binary64.quantity (Binary64.d_demand d)) ds ->
  (forall c, Binary64.store_get c (Binary64.demands_copy ds)
             = Binary64.last_declared c ds) /\
  (forall d1 d2,
      Binary64.evolves plus_minutes cities m depot (Binary64.demands_copy ds) d1 ->
      Binary64.evolves plus_minutes cities m depot d1 d2 ->
      forall c q, Binary64.last_declared c ds = Some q ->
      exists r1 r2,
        Binary64.store_get c d1 = Some r1 /\ Binary64.store_get c d2 = Some r2 /\
        Binary64.within r1 r2 /\ Binary64.within q r1) /\
  (forall v c s s',
      Binary64.evolves plus_minutes cities m depot (Binary64.demands_copy ds)
        (Binary64.demands s) ->
      Binary64.body_step plus_minutes cities m depot v c s s' ->
      exists rem l,
        Binary64.store_get c (Binary64.demands s) = Some rem /\
        Binary64.route s' = Binary64.route s ++ [l] /\
        Binary64.within rem (Binary64.l_deliver l) /\
        (((0 <? Binary64.l_deliver l)%float = true /\ Binary64.l_to l = c /\
          Binary64.demands s'
          = Binary64.store_set c (rem - Binary64.l_deliver l)%float (Binary64.demands s))
         \/
         (Binary64.l_deliver l = 0%float /\ Binary64.l_to l = depot /\
          Binary64.demands s' = Binary64.demands s))) /\
  (forall fuel vs sol d',
      Binary64.run_vrptw_state strptime plus_minutes cities m depot fuel vs ds
      = Ok (sol, d') ->
      Binary64.evolves plus_minutes cities m depot (Binary64.demands_copy ds) d' /\
      Binary64.run_vrptw strptime plus_minutes cities m depot fuel vs ds = Ok sol /\
      (forall id r l, In (id, r) sol -> In l r ->
         Binary64.quantity (Binary64.l_deliver l) /\
         forall q, Binary64.last_declared (Binary64.l_to l) ds = Some q ->
                   Binary64.within q (Binary64.l_deliver l)) /\
      (NoDup (map Binary64.v_id vs) ->
       forall c q, Binary64.last_declared c ds = Some q ->
         Binary64.store_get c d' = Some (Binary64.plan_remaining c q sol))).
Proof.
  intros Hq. pose proof (demands_copy_ok64 ds Hq) as HD.
  split; [intros c; apply demands_copy_get64|]. split; [|split].
  - intros d1 d2 H1 H2 c q Hc. rewrite <- demands_copy_get64 in Hc.
    destruct (evolves_store64 _ _ _ _ _ _ HD H1) as [Ok1 [_ Le1]].
    destruct (evolves_store64 _ _ _ _ _ _ Ok1 H2) as [_ [_ Le2]].
    destruct (Le1 c q Hc) as (r1 & G1 & W1).
    destruct (Le2 c r1 G1) as (r2 & G2 & W2).
    exists r1, r2. auto.
  - intros v c s s' Hev Hstep.
    destruct (evolves_store64 _ _ _ _ _ _ HD Hev) as [Oks _].
    destruct (step_store64 _ _ _ _ v c s s' Oks Hstep) as (_ & _ & Hleg).
    exact Hleg.
  - intros fuel vs sol d' H.
    assert (Hrun : Binary64.run_vrptw strptime plus_minutes cities m depot fuel vs ds
                   = Ok sol).
    { unfold Binary64.run_vrptw. now rewrite H. }
    unfold Binary64.run_vrptw_state in H.
    destruct (run_vehicles_store64 strptime plus_minutes cities m depot
                (Binary64.demands_copy ds) fuel vs HD
                (Binary64.demands_copy ds) [] sol d')
      as (Hev & _ & _ & Hplan); auto.
    { constructor. }
    { now apply store_le_refl64. }
    { constructor. }
    split; [exact Hev|]. split; [exact Hrun|]. split.
    + intros id r l Hin Hl.
      unfold Binary64.plan_ok in Hplan. rewrite Forall_forall in Hplan.
      specialize (Hplan (id, r) Hin). cbn [snd] in Hplan.
      rewrite Forall_forall in Hplan. destruct (Hplan l Hl) as [Hquant Hwithin].
      split; [exact Hquant|]. intros q Hlast. apply Hwithin.
      now rewrite demands_copy_get64.
    + intros Hnd c q Hlast.
      apply (run_vehicles_remaining64 strptime plus_minutes cities m depot fuel vs
               (Binary64.demands_copy ds) [] sol d' Hnd) with (q := q); auto.
      now rewrite demands_copy_get64.
Qed.

Lemma remaining_quantity_within_declared_witness :
  Forall (fun d => Binary64.quantity (Binary64.d_demand d))
         [b64_demand "City"%string 0.9] /\
  Binary64.within 0.9 (0.9 - 0.3)%float.
Proof.
  assert (Hq : Forall (fun d => Binary64.quantity (Binary64.d_demand d))
                      [b64_demand "City"%string 0.9]).
  { constructor; [split; reflexivity | constructor]. }
  split; [exact Hq|].
  destruct (remaining_quantity_within_declared b64_strptime plus_minutes
              b64_cities b64_matrix "Depot"%string _ Hq) as (_ & _ & _ & After).
  pose (l := b64_leg "Depot"%string "City"%string 0 (0.9 - 0.3)).
  pose (r := [l; b64_leg "City"%string "Depot"%string 3610800000 0]).
  destruct (After 10%nat [b64_vehicle 1 0.3; b64_vehicle 2 1]
              [(1%nat, [b64_leg "Depot"%string "City"%string 0 0.3;
                        b64_leg "City"%string "Depot"%string 3605400000 0]);
               (2%nat, r)]
              [("City"%string, 0%float)] eq_refl) as (_ & _ & Legs & _).
  apply (proj2 (Legs 2%nat r l (or_intror (or_introl eq_refl)) (or_introl eq_refl))).
  reflexivity.
Defined.

(** C1, as stated, fails in two ways.  Two records for the same city, 7
    and then 1000, and two vehicles of capacity 10: the plan delivers 20
    to the city, more than the 7 the first record declared.  And one record
    of 0.9 with vehicles of capacity 0.3 and 1: the first leaves
    [0.9 - 0.3], which rounds up, the second delivers that, and the exact
    sum of the two deliveries is above 0.9. *)
Lemma deliveries_exceed_declared_quantity :
  (exists sol,
      b64_run b64_cities b64_matrix "Depot"%string 10
        [b64_vehicle 1 10; b64_vehicle 2 10]
        [b64_demand "City"%string 7; b64_demand "City"%string 1000] = Ok sol /\
      Binary64.plan_delivered "City"%string sol = (F2Z 10 + F2Z 10)%Z /\
      (F2Z 7 < Binary64.plan_delivered "City"%string sol)%Z) /\
  (exists sol,
      b64_run b64_cities b64_matrix "Depot"%string 10
        [b64_vehicle 1 0.3; b64_vehicle 2 1]
        [b64_demand "City"%string 0.9] = Ok sol /\
      Binary64.plan_delivered "City"%string sol = (F2Z 0.3 + F2Z (0.9 - 0.3))%Z /\
      (F2Z 0.9 < Binary64.plan_delivered "City"%string sol)%Z).
Proof.
  split; eexists; (split; [vm_compute; reflexivity|]); split; vm_compute; reflexivity.
Qed.

(** C2, as the code has it.  For a vehicle whose declared capacity is
    finite and not negative, on the binary64 numbers the program computes
    with: in every state [simulate_vehicle] passes through the remaining
    capacity is between zero and the declared capacity, and is exactly what
    the quantities delivered since the last refill, subtracted one after
    the other, leave of the declared capacity; a completed
    iteration of the loop body either delivers a positive quantity that is
    at most the capacity remaining and leaves the rounded difference, or is
    a refill, taken without capacity left, that carries nothing and puts
    the capacity back to the declared one; every leg, of a route in
    progress and of the route returned, delivers a quantity between zero
    and the declared capacity.  Nothing is said of the exact sum over
    consecutive delivery legs: it can exceed the declared capacity. *)
Theorem capacity_within_declared
    (strptime : string -> result Binary64.datetime)
    (plus_minutes : Binary64.datetime -> float -> result Binary64.datetime)
    (cities : list city) (m : list (list float)) (depot : city)
    (v : Binary64.vehicle) (d : Binary64.store) :
  Binary64.quantity (Binary64.v_capacity v) ->
  (forall t0 s,
      Binary64.visits plus_minutes cities m depot v (Binary64.start_sim depot t0 v d) s ->
      Binary64.within (Binary64.v_capacity v) (Binary64.capacity s) /\
      Binary64.capacity s
      = Binary64.capacity_after (Binary64.v_capacity v) (Binary64.v_capacity v)
          (Binary64.route s) /\
      Forall (fun l => Binary64.within (Binary64.v_capacity v) (Binary64.l_deliver l))
             (Binary64.route s)) /\
  (forall t0 s c s',
      Binary64.visits plus_minutes cities m depot v (Binary64.start_sim depot t0 v d) s ->
      Binary64.body_step plus_minutes cities m depot v c s s' ->
      exists l,
        Binary64.route s' = Binary64.route s ++ [l] /\
        Binary64.within (Binary64.capacity s) (Binary64.l_deliver l) /\
        (((0 <? Binary64.l_deliver l)%float = true /\
          Binary64.capacity s' = (Binary64.capacity s - Binary64.l_deliver l)%float)
         \/
         (Binary64.l_deliver l = 0%float /\
          (0 <? Binary64.capacity s)%float = false /\
          Binary64.capacity s' = Binary64.v_capacity v))) /\
  (forall fuel r d',
      Binary64.simulate_vehicle strptime plus_minutes cities m depot fuel v d
      = Ok (r, d') ->
      Forall (fun l => Binary64.within (Binary64.v_capacity v) (Binary64.l_deliver l)) r).
Proof.
  intros HC. split; [|split].
  - intros t0 s Hs.
    destruct (visits_capacity64 plus_minutes cities m depot v t0 d s HC Hs) as [W R].
    split; [exact W|]. split; [|exact R].
    now apply (visits_capacity_after64 plus_minutes cities m depot v t0 d).
  - intros t0 s c s' Hs Hstep.
    destruct (visits_capacity64 plus_minutes cities m depot v t0 d s HC Hs) as [W _].
    destruct (step_capacity64 plus_minutes cities m depot v c s s' HC W Hstep)
      as (_ & Hleg).
    exact Hleg.
  - intros fuel r d' H.
    destruct (simulate_inv64 _ _ _ _ _ _ _ _ _ _ H) as (t0 & s & s' & _ & Hf & Hc & -> & _).
    assert (Hs : Binary64.visits plus_minutes cities m depot v
                   (Binary64.start_sim depot t0 v d) s).
    { apply (for_cities_visits64 plus_minutes cities m depot v _ fuel (dict_keys d)
               (Binary64.start_sim depot t0 v d) s); [constructor | exact Hf]. }
    destruct (visits_capacity64 plus_minutes cities m depot v t0 d s HC Hs) as [_ R].
    destruct (close_route_inv64 _ _ _ _ _ _ Hc) as [_ [-> | (l & -> & _ & Hl)]];
      [exact R|].
    apply Forall_app. split; [exact R|]. constructor; [|constructor].
    rewrite Hl. now apply within_zero.
Qed.

Lemma capacity_within_declared_witness :
  Binary64.quantity (Binary64.v_capacity (b64_vehicle 1 0.9)) /\
  Forall (fun l => Binary64.within 0.9 (Binary64.l_deliver l))
    [ b64_leg "Depot"%string "A"%string 0 0.3;
      b64_leg "A"%string "B"%string 3605400000 (0.9 - 0.3);
      b64_leg "B"%string "Depot"%string 7216200000 0 ].
Proof.
  assert (HC : Binary64.quantity (Binary64.v_capacity (b64_vehicle 1 0.9)))
    by (split; reflexivity).
  split; [exact HC|].
  destruct (capacity_within_declared b64_strptime plus_minutes
              b64_cities2 b64_matrix2 "Depot"%string (b64_vehicle 1 0.9)
              [("A"%string, 0.3%float); ("B"%string, 1%float)] HC) as (_ & _ & After).
  apply (After 10%nat _ [("A"%string, 0%float); ("B"%string, (1 - (0.9 - 0.3))%float)]).
  reflexivity.
Defined.

(** C2, as stated, fails.  A vehicle of capacity 0.9 serves a city asking
    0.3 and then one asking 1: it unloads 0.3, is left with [0.9 - 0.3],
    which rounds up, and unloads that on the next leg without a refill in
    between; the exact sum of the two is above 0.9. *)
Lemma consecutive_deliveries_exceed_capacity :
  exists r,
    b64_run b64_cities2 b64_matrix2 "Depot"%string 10 [b64_vehicle 1 0.9]
      [b64_demand "A"%string 0.3; b64_demand "B"%string 1] = Ok [(1%nat, r)] /\
    map Binary64.l_deliver r = [0.3; 0.9 - 0.3; 0]%float /\
    Binary64.segment_loads r = [(F2Z 0.3 + F2Z (0.9 - 0.3))%Z; 0%Z] /\
    (F2Z 0.9 < F2Z 0.3 + F2Z (0.9 - 0.3))%Z.
Proof.
  eexists. split; [vm_compute; reflexivity|].
  split; [|split]; vm_compute; reflexivity.
Qed.



(** C4. A vehicle without capacity left at a city that still asks for
    something.  When the time back to the depot plus the time from the
    depot to the city is at most the time from the depot to the city, the
    iteration appends a leg to the depot that delivers and unloads nothing,
    moves the time cursor by the time back only, puts the vehicle at the
    depot with its full declared capacity, leaves the dictionary alone, and
    the loop goes on with the same city.  Otherwise the loop over this city
    stops and the next city is taken from the same state, so the remaining
    quantity of the city is what later vehicles find. *)
Theorem exhausted_vehicle_refills_or_abandons
    (cities : list city) (m : list (list R)) (depot : city)
    (v : vehicle) (c : city) (s : sim) (rem back t2 km : R) :
  store_get c (demands s) = Some rem ->
  0 < rem -> capacity s <= 0 ->
  travel_time_minutes cities m (location s) depot = Ok back ->
  travel_time_minutes cities m depot c = Ok t2 ->
  dist_between cities m (location s) depot = Ok km ->
  (back + t2 <= t2 ->
   exists s' l,
     while_body cities m depot v c s = Ok (Continue s') /\
     route s' = route s ++ [l] /\
     l_from l = location s /\ l_to l = depot /\
     l_deliver l = 0 /\ l_unload l = 0 /\
     l_depart l = time_var s /\ l_arrive l = time_var s + back /\
     l_distance l = km /\
     time_var s' = time_var s + back /\
     location s' = depot /\
     capacity s' = v_capacity v /\
     demands s' = demands s /\
     forall fuel, while_city cities m depot (S fuel) v c s
                  = while_city cities m depot fuel v c s') /\
  (~ back + t2 <= t2 ->
   while_body cities m depot v c s = Ok Abandon /\
   (forall fuel, while_city cities m depot (S fuel) v c s = Ok s) /\
   (forall fuel cs, for_cities cities m depot (S fuel) v (c :: cs) s
                    = for_cities cities m depot (S fuel) v cs s)).
Proof.
  intros Hg Hr Hc Hb Ht Hd.
  assert (Hc' : ~ 0 < capacity s) by lra.
  split.
  - intros Hle.
    pose proof (body_refill cities m depot v c s rem back t2 km Hg Hr Hc' Hb Ht Hle Hd) as E.
    exists (after_refill depot v s back km), (return_leg depot s back km).
    split; [exact E|]. simpl. repeat split; auto.
    intros fuel. now apply while_city_continue.
  - intros Hgt.
    pose proof (body_abandon cities m depot v c s rem back t2 Hg Hr Hc' Hb Ht Hgt) as E.
    split; [exact E|]. split.
    + intros fuel. now apply while_city_abandon.
    + intros fuel cs. cbn [for_cities].
      now rewrite (while_city_abandon _ _ _ _ _ _ _ E).
Qed.

Lemma exhausted_vehicle_refills_or_abandons_witness :
  (while_body rf_cities (rf_matrix 60 60) "Depot"%string (rf_vehicle 1 0) "City"%string
     (rf_unloaded 60 0 1000) = Ok Abandon /\
   (forall fuel, while_city rf_cities (rf_matrix 60 60) "Depot"%string (S fuel)
                   (rf_vehicle 1 0) "City"%string (rf_unloaded 60 0 1000)
                 = Ok (rf_unloaded 60 0 1000)) /\
   (forall fuel cs, for_cities rf_cities (rf_matrix 60 60) "Depot"%string (S fuel)
                      (rf_vehicle 1 0) ("City"%string :: cs) (rf_unloaded 60 0 1000)
                    = for_cities rf_cities (rf_matrix 60 60) "Depot"%string (S fuel)
                        (rf_vehicle 1 0) cs (rf_unloaded 60 0 1000))) /\
  (exists s' l,
     while_body rf_cities (rf_matrix 60 0) "Depot"%string (rf_vehicle 1 0) "City"%string
       (rf_unloaded 60 0 1000) = Ok (Continue s') /\
     route s' = route (rf_unloaded 60 0 1000) ++ [l] /\
     l_from l = "City"%string /\ l_to l = "Depot"%string /\
     l_deliver l = 0 /\ l_unload l = 0 /\
     l_depart l = time_var (rf_unloaded 60 0 1000) /\
     l_arrive l = time_var (rf_unloaded 60 0 1000) + (0 / SPEED_KMPH) * 60 /\
     l_distance l = 0 /\
     time_var s' = time_var (rf_unloaded 60 0 1000) + (0 / SPEED_KMPH) * 60 /\
     location s' = "Depot"%string /\
     capacity s' = 10 /\
     demands s' = [("City"%string, 1000 - 10)] /\
     forall fuel, while_city rf_cities (rf_matrix 60 0) "Depot"%string (S fuel)
                    (rf_vehicle 1 0) "City"%string (rf_unloaded 60 0 1000)
                  = while_city rf_cities (rf_matrix 60 0) "Depot"%string fuel
                      (rf_vehicle 1 0) "City"%string s').
Proof.
  split.
  - apply (exhausted_vehicle_refills_or_abandons
             rf_cities (rf_matrix 60 60) "Depot"%string (rf_vehicle 1 0) "City"%string
             (rf_unloaded 60 0 1000) (1000 - 10)
             ((60 / SPEED_KMPH) * 60) ((60 / SPEED_KMPH) * 60) 60).
    + reflexivity.
    + lra.
    + simpl. lra.
    + reflexivity.
    + reflexivity.
    + reflexivity.
    + unfold SPEED_KMPH. lra.
  - apply (exhausted_vehicle_refills_or_abandons
             rf_cities (rf_matrix 60 0) "Depot"%string (rf_vehicle 1 0) "City"%string
             (rf_unloaded 60 0 1000) (1000 - 10)
             ((0 / SPEED_KMPH) * 60) ((60 / SPEED_KMPH) * 60) 0).
    + reflexivity.
    + lra.
    + simpl. lra.
    + reflexivity.
    + reflexivity.
    + reflexivity.
    + unfold SPEED_KMPH. lra.
Defined.

(** C7. A route that [simulate_vehicle] returns ends at the depot when it
    has a leg at all.  The route is the one built by the loops, followed,
    exactly when the vehicle is not at the depot after the last city, by
    one leg from where it is to the depot that delivers nothing. *)
Theorem route_ends_at_depot
    (cities : list city) (m : list (list R)) (depot : city)
    (fuel : nat) (v : vehicle) (d : store) (r : list leg) (d' : store) :
  simulate_vehicle cities m depot fuel v d = Ok (r, d') ->
  (r <> [] -> exists r0 l, r = r0 ++ [l] /\ l_to l = depot) /\
  exists s,
    for_cities cities m depot fuel v (dict_keys d) (start_sim depot v d) = Ok s /\
    ((location s = depot /\ r = route s) \/
     (location s <> depot /\
      exists l, r = route s ++ [l] /\
                l_from l = location s /\ l_to l = depot /\
                l_deliver l = 0 /\ l_unload l = 0 /\
                l_depart l = time_var s)).
Proof.
  intros H. apply simulate_inv in H. destruct H as (s & s' & Hf & Hc & -> & _).
  pose proof (visits_final_stop _ _ _ _ _ _ (for_cities_visits _ _ _ _ _ _ _ _ Hf)) as Hend.
  apply close_route_inv in Hc.
  assert (Hfinal : final_stop depot (route s') = depot).
  { destruct Hc as [[Hl ->] | [_ (back & km & _ & _ & ->)]].
    - congruence.
    - simpl. apply final_stop_snoc. }
  split.
  - intros Hne. destruct (exists_last Hne) as (r0 & l & E).
    exists r0, l. split; auto.
    rewrite E in Hfinal. now rewrite final_stop_snoc in Hfinal.
  - exists s. split; auto.
    destruct Hc as [[Hl ->] | [Hl (back & km & _ & _ & ->)]]; [left; auto|].
    right. split; auto. exists (return_leg depot s back km). simpl. auto 10.
Qed.

Lemma route_ends_at_depot_witness :
  (rf_route 60 60 0 <> [] ->
   exists r0 l, rf_route 60 60 0 = r0 ++ [l] /\ l_to l = "Depot"%string) /\
  exists s,
    for_cities rf_cities (rf_matrix 60 60) "Depot"%string 2 (rf_vehicle 1 0)
      (dict_keys [("City"%string, 1000)])
      (start_sim "Depot"%string (rf_vehicle 1 0) [("City"%string, 1000)]) = Ok s /\
    ((location s = "Depot"%string /\ rf_route 60 60 0 = route s) \/
     (location s <> "Depot"%string /\
      exists l, rf_route 60 60 0 = route s ++ [l] /\
                l_from l = location s /\ l_to l = "Depot"%string /\
                l_deliver l = 0 /\ l_unload l = 0 /\
                l_depart l = time_var s)).
Proof.
  assert (B60 : 0 < 60) by lra.
  assert (Q : 10 < 1000) by lra.
  apply (route_ends_at_depot rf_cities (rf_matrix 60 60) "Depot"%string 2
           (rf_vehicle 1 0) [("City"%string, 1000)] (rf_route 60 60 0)
           [("City"%string, 1000 - 10)]
           (rf_simulate_eval 60 60 0 1 0 1000 B60 Q)).
Defined.

(** C5, as the code has it.  In the fallback-only scenario the plan is one
    route of exactly two legs for vehicle 1: depot to demand delivering 50,
    then demand to depot delivering nothing.  Each leg's distance is the
    great-circle distance from (0, 0) to (0, 1 degree) times 1.3.  The time
    from the first departure to the last arrival is the travel time of both
    legs at the engine's 60 km/h plus 15 minutes of unloading; the summary
    reports it in hours. *)
Theorem fallback_scenario_plan (fuel : nat) (t0 : instant) :
  fb_plan (S (S fuel)) t0 = Ok [(1%nat, fb_route t0)] /\
  List.length (fb_route t0) = 2%nat /\
  map l_from (fb_route t0) = ["Supply"%string; "Demand"%string] /\
  map l_to (fb_route t0) = ["Demand"%string; "Supply"%string] /\
  map l_deliver (fb_route t0) = [50; 0] /\
  map l_unload (fb_route t0) = [15; 0] /\
  map l_distance (fb_route t0)
  = [great_circle_km (0, 0) (0, 1) * 1.3; great_circle_km (0, 0) (0, 1) * 1.3] /\
  elapsed_minutes (fb_route t0)
  = Ok (2 * ((great_circle_km (0, 0) (0, 1) * 1.3 / 60) * 60) + 15) /\
  time_hours (fb_route t0)
  = Ok ((2 * ((great_circle_km (0, 0) (0, 1) * 1.3 / 60) * 60) + 15) * 60 / 3600).
Proof.
  split; [apply fb_plan_eval|].
  repeat split; [apply fb_elapsed|].
  unfold time_hours. now rewrite fb_elapsed.
Qed.

(** C5, as stated, fails: the elapsed time of the route is not the travel
    time of the two legs at 50 km/h plus 15 minutes. *)
Lemma fallback_scenario_not_50_kmph :
  exists r,
    fb_plan 2 0 = Ok [(1%nat, r)] /\
    elapsed_minutes r
    <> Ok (2 * ((great_circle_km (0, 0) (0, 1) * 1.3 / 50) * 60) + 15).
Proof.
  exists (fb_route 0). split; [apply fb_plan_eval|].
  rewrite fb_elapsed. intros H. injection H as H.
  pose proof fb_km_pos as P. unfold fb_km in *. lra.
Qed.

(** C6, as the code has it.  In the refill scenario, with a positive
    distance from the city back to the depot, the way round by the depot
    costs more than the way from the depot, so the vehicle that has
    unloaded its 10 units abandons the city instead of refilling: its route
    is one delivery of 10 and the leg back.  The 990 left are what the next
    vehicle starts from, and it leaves 980. *)
Theorem refill_scenario_abandons (out back : R) (t1 t2 : instant) (fuel : nat) :
  0 < back ->
  (exists a b,
      travel_time_minutes rf_cities (rf_matrix out back) "City"%string "Depot"%string = Ok a /\
      travel_time_minutes rf_cities (rf_matrix out back) "Depot"%string "City"%string = Ok b /\
      b < a + b) /\
  while_body rf_cities (rf_matrix out back) "Depot"%string (rf_vehicle 1 t1)
    "City"%string (rf_exhausted out t1) = Ok Abandon /\
  simulate_vehicle rf_cities (rf_matrix out back) "Depot"%string (S (S fuel))
    (rf_vehicle 1 t1) (demands_copy rf_demands)
  = Ok (rf_route out back t1, [("City"%string, 990)]) /\
  simulate_vehicle rf_cities (rf_matrix out back) "Depot"%string (S (S fuel))
    (rf_vehicle 2 t2) [("City"%string, 990)]
  = Ok (rf_route out back t2, [("City"%string, 980)]) /\
  run_vrptw rf_cities (rf_matrix out back) "Depot"%string (S (S fuel))
    [rf_vehicle 1 t1; rf_vehicle 2 t2] rf_demands
  = Ok [(1%nat, rf_route out back t1); (2%nat, rf_route out back t2)].
Proof.
  intros Hb. split; [|split; [|split; [|split]]].
  - exists ((back / SPEED_KMPH) * 60), ((out / SPEED_KMPH) * 60).
    repeat split. unfold SPEED_KMPH. lra.
  - rewrite rf_exhausted_eq. apply rf_second_iteration; auto. lra.
  - change (demands_copy rf_demands) with [("City"%string, 1000)].
    rewrite rf_simulate_eval by (auto; lra). repeat f_equal. lra.
  - rewrite rf_simulate_eval by (auto; lra). repeat f_equal. lra.
  - unfold run_vrptw. now rewrite rf_run_two.
Qed.

Lemma refill_scenario_abandons_witness :
  (exists a b,
      travel_time_minutes rf_cities (rf_matrix 60 60) "City"%string "Depot"%string = Ok a /\
      travel_time_minutes rf_cities (rf_matrix 60 60) "Depot"%string "City"%string = Ok b /\
      b < a + b) /\
  while_body rf_cities (rf_matrix 60 60) "Depot"%string (rf_vehicle 1 0)
    "City"%string (rf_exhausted 60 0) = Ok Abandon /\
  simulate_vehicle rf_cities (rf_matrix 60 60) "Depot"%string 2
    (rf_vehicle 1 0) (demands_copy rf_demands)
  = Ok (rf_route 60 60 0, [("City"%string, 990)]) /\
  simulate_vehicle rf_cities (rf_matrix 60 60) "Depot"%string 2
    (rf_vehicle 2 30) [("City"%string, 990)]
  = Ok (rf_route 60 60 30, [("City"%string, 980)]) /\
  run_vrptw rf_cities (rf_matrix 60 60) "Depot"%string 2
    [rf_vehicle 1 0; rf_vehicle 2 30] rf_demands
  = Ok [(1%nat, rf_route 60 60 0); (2%nat, rf_route 60 60 30)].
Proof.
  apply (refill_scenario_abandons 60 60 0 30 0%nat). lra.
Defined.

(** C6, as stated, fails: with 60 km each way the two costs differ and the
    iteration after the delivery is the [break], not a refill. *)
Lemma refill_scenario_no_refill :
  ~ (exists a b s',
        travel_time_minutes rf_cities (rf_matrix 60 60) "City"%string "Depot"%string = Ok a /\
        travel_time_minutes rf_cities (rf_matrix 60 60) "Depot"%string "City"%string = Ok b /\
        a + b = b /\
        while_body rf_cities (rf_matrix 60 60) "Depot"%string (rf_vehicle 1 0)
          "City"%string (rf_exhausted 60 0) = Ok (Continue s')).
Proof.
  intros (a & b & s' & Ha & Hb & Hab & _).
  rewrite rf_tt_back in Ha. rewrite rf_tt_out in Hb.
  injection Ha as <-. injection Hb as <-. unfold SPEED_KMPH in Hab. lra.
Qed.

(** C8. The fallback estimator is a function of the two coordinate pairs
    alone, so equal inputs give equal outputs, and its value is
    [(d * 1.3, d * 1.3 / 50 * 60)] with [d] the great-circle distance of
    the haversine formula for a radius of 6371 km. *)
Theorem fallback_estimator_spec (c1 c2 : R * R) :
  haversine_distance c1 c2
  = (great_circle_km c1 c2 * 1.3, (great_circle_km c1 c2 * 1.3 / 50) * 60) /\
  EARTH_RADIUS_KM = 6371 /\
  forall c1' c2', c1' = c1 -> c2' = c2 ->
                  haversine_distance c1' c2' = haversine_distance c1 c2.
Proof.
  split; [apply haversine_great_circle|]. split; [reflexivity|].
  intros c1' c2' -> ->. reflexivity.
Qed.

Lemma fallback_estimator_spec_witness :
  haversine_distance (0, 0) (0, 1)
  = (great_circle_km (0, 0) (0, 1) * 1.3,
     (great_circle_km (0, 0) (0, 1) * 1.3 / 50) * 60) /\
  haversine_distance (0, 0) (0, 1) = haversine_distance (0, 0) (0, 1).
Proof.
  destruct (fallback_estimator_spec (0, 0) (0, 1)) as (Hval & _ & Hdet).
  split; [exact Hval|]. apply Hdet; reflexivity.
Defined.

Lemma visits_accounts (cities : list city) (m : list (list R)) (depot : city)
    (v : vehicle) (s0 s : sim) :
  visits cities m depot v s0 s -> accounts s0 s.
Proof.
  apply (visits_invariant cities m depot (accounts s0)).
  - apply accounts_refl.
  - intros c s1 s2 H1 H2. eapply accounts_trans; eauto. eapply step_accounts; eauto.
Qed.

(** C9, where the code does not do what the claim says.  A vehicle of
    capacity 1e-8, strictly positive, and one demand of 1e9, finite, at the
    supply location itself, so that every distance read is zero.  The
    vehicle unloads 1e-8, the subtraction [1e9 - 1e-8] gives 1e9 again,
    the vehicle is empty, refilling costs no more than a fresh start, it
    refills, and is where it started: [simulate_vehicle] does not return,
    whatever the number of iterations allowed, and neither does
    [run_vrptw].  The clock only has to leave the start time where it is
    when nothing, or the 3e-9 minutes of the unloading, is added. *)
Theorem absorbed_delivery_never_terminates
    (strptime : string -> result Binary64.datetime)
    (plus_minutes : Binary64.datetime -> float -> result Binary64.datetime)
    (t0 : Binary64.datetime) :
  strptime "2024-01-01 08:00"%string = Ok t0 ->
  plus_minutes t0 0%float = Ok t0 ->
  plus_minutes t0 ((1e-8 / 100) * 30)%float = Ok t0 ->
  (0 <? Binary64.v_capacity (b64_vehicle 1 1e-8))%float = true /\
  finite 1e9 = true /\
  (forall fuel,
      Binary64.simulate_vehicle strptime plus_minutes b64_cities0 b64_matrix0
        "Pune"%string fuel (b64_vehicle 1 1e-8) [("Pune"%string, 1e9%float)]
      = OutOfFuel) /\
  (forall fuel,
      Binary64.run_vrptw strptime plus_minutes b64_cities0 b64_matrix0
        "Pune"%string fuel [b64_vehicle 1 1e-8] [b64_demand "Pune"%string 1e9]
      = OutOfFuel).
Proof.
  intros Hstart H0 Hunload.
  assert (Hsim : forall fuel,
             Binary64.simulate_vehicle strptime plus_minutes b64_cities0 b64_matrix0
               "Pune"%string fuel (b64_vehicle 1 1e-8) [("Pune"%string, 1e9%float)]
             = OutOfFuel).
  { intros fuel. unfold Binary64.simulate_vehicle.
    change (Binary64.v_startDate (b64_vehicle 1 1e-8) ++ " "
            ++ Binary64.v_startTime (b64_vehicle 1 1e-8))%string
      with "2024-01-01 08:00"%string.
    rewrite Hstart. cbn [bind dict_keys map fst Binary64.for_cities].
    unfold Binary64.start_sim.
    change (Binary64.v_capacity (b64_vehicle 1 1e-8)) with 1e-8%float.
    rewrite (absorbed_while_city plus_minutes t0 H0 Hunload fuel 1e-8 []); [|now left].
    reflexivity. }
  split; [reflexivity|]. split; [reflexivity|]. split; [exact Hsim|].
  intros fuel. unfold Binary64.run_vrptw, Binary64.run_vrptw_state.
  change (Binary64.demands_copy [b64_demand "Pune"%string 1e9])
    with [("Pune"%string, 1e9%float)].
  cbn [Binary64.run_vehicles].
  change (Binary64.any_remaining [("Pune"%string, 1e9%float)]) with true. cbv iota.
  rewrite Hsim. reflexivity.
Qed.

Lemma absorbed_delivery_never_terminates_witness :
  b64_strptime "2024-01-01 08:00"%string = Ok 63839692800000000%Z /\
  plus_minutes 63839692800000000%Z 0%float = Ok 63839692800000000%Z /\
  plus_minutes 63839692800000000%Z ((1e-8 / 100) * 30)%float = Ok 63839692800000000%Z /\
  forall fuel,
    Binary64.run_vrptw b64_strptime plus_minutes b64_cities0 b64_matrix0
      "Pune"%string fuel [b64_vehicle 1 1e-8] [b64_demand "Pune"%string 1e9]
    = OutOfFuel.
Proof.
  assert (Hstart : b64_strptime "2024-01-01 08:00"%string = Ok 63839692800000000%Z)
    by reflexivity.
  assert (H0 : plus_minutes 63839692800000000%Z 0%float = Ok 63839692800000000%Z)
    by (vm_compute; reflexivity).
  assert (Hunload : plus_minutes 63839692800000000%Z ((1e-8 / 100) * 30)%float
                    = Ok 63839692800000000%Z)
    by (vm_compute; reflexivity).
  split; [exact Hstart|]. split; [exact H0|]. split; [exact Hunload|].
  apply (absorbed_delivery_never_terminates b64_strptime plus_minutes
           63839692800000000%Z Hstart H0 Hunload).
Defined.



(** * Further properties of the engine *)

(** ** Routes are chained in place and time *)

Lemma chained_snoc (start : city) (t : instant) (r : list leg) (l : leg) :
  chained start t (r ++ [l]) <->
  chained start t r /\
  l_from l = fst (route_end start t r) /\ l_depart l = snd (route_end start t r).
Proof.
  unfold route_end. revert start t.
  induction r as [|l0 r IH]; intros start t; simpl.
  - tauto.
  - rewrite IH. tauto.
Qed.

Lemma route_end_snoc (start : city) (t : instant) (r : list leg) (l : leg) :
  route_end start t (r ++ [l]) = (l_to l, l_arrive l + l_unload l).
Proof. unfold route_end. now rewrite fold_left_app. Qed.

Lemma nondecreasing_lower (a b : R) (ts : list R) :
  a <= b -> nondecreasing (b :: ts) -> nondecreasing (a :: ts).
Proof.
  destruct ts as [|c ts]; simpl; auto.
  intros Hab [Hbc H]. split; auto. lra.
Qed.

Lemma chained_timeline (start : city) (t : instant) (r : list leg) :
  chained start t r -> Forall forward_leg r -> nondecreasing (t :: timeline r).
Proof.
  revert start t. induction r as [|l r IH]; intros start t Hc Hf; [exact I|].
  destruct Hc as (_ & Hd & Hc). inversion Hf as [|? ? [Hl Hu] Hf']; subst.
  specialize (IH _ _ Hc Hf').
  change (timeline (l :: r)) with (l_depart l :: l_arrive l :: timeline r).
  split; [lra|]. split; [exact Hl|].
  apply nondecreasing_lower with (b := l_arrive l + l_unload l); auto. lra.
Qed.

Lemma travel_time_nonneg (cities : list city) (m : list (list R)) (a b : city) (t : R) :
  matrix_nonneg m -> travel_time_minutes cities m a b = Ok t -> 0 <= t.
Proof.
  intros Hm H. unfold travel_time_minutes in H.
  bind_inv H. bind_inv H. bind_inv H. injection H as <-.
  apply Hm in E1. unfold SPEED_KMPH. lra.
Qed.

Lemma rf_matrix_nonneg (out back : R) :
  0 <= out -> 0 <= back -> matrix_nonneg (rf_matrix out back).
Proof.
  intros Ho Hb i j x H. unfold matrix_get, rf_matrix in H.
  destruct i as [|[|i]]; simpl in H.
  - destruct j as [|[|j]]; simpl in H.
    + injection H as <-. lra.
    + injection H as <-. lra.
    + destruct j; discriminate.
  - destruct j as [|[|j]]; simpl in H.
    + injection H as <-. lra.
    + injection H as <-. lra.
    + destruct j; discriminate.
  - destruct i; discriminate.
Qed.

Section Schedule.
Variable cities : list city.
Variable distance_matrix : list (list R).
Variable depot : city.

Abbreviation step := (body_step cities distance_matrix depot).
Abbreviation visit := (visits cities distance_matrix depot).
Abbreviation simulate := (simulate_vehicle cities distance_matrix depot).

Lemma step_on_schedule (v : vehicle) (c : city) (s s' : sim) :
  on_schedule depot v s -> step v c s s' -> on_schedule depot v s'.
Proof.
  intros [Hc He] Hs.
  destruct Hs as [rem tm d Hg Hr Hcap Ht Hd | rem back t2 d Hg Hr Hcap Hb Ht Hle Hd];
    unfold on_schedule; simpl; rewrite chained_snoc, route_end_snoc, He; simpl.
  - repeat split; auto.
  - repeat split; auto. f_equal. lra.
Qed.

Lemma visits_on_schedule (v : vehicle) (d : store) (s : sim) :
  visit v (start_sim depot v d) s -> on_schedule depot v s.
Proof.
  apply (visits_invariant cities distance_matrix depot (on_schedule depot v)).
  - split; [exact I | reflexivity].
  - intros c s1 s2. apply step_on_schedule.
Qed.

Lemma step_forward_legs (v : vehicle) (c : city) (s s' : sim) :
  matrix_nonneg distance_matrix ->
  Forall forward_leg (route s) -> step v c s s' -> Forall forward_leg (route s').
Proof.
  intros Hm Hf Hs.
  destruct Hs as [rem tm d Hg Hr Hcap Ht Hd | rem back t2 d Hg Hr Hcap Hb Ht Hle Hd];
    simpl; apply Forall_app; (split; [exact Hf|]); constructor; auto;
    unfold forward_leg; simpl.
  - pose proof (travel_time_nonneg _ _ _ _ _ Hm Ht).
    pose proof (Rmin_pos_pos _ _ Hcap Hr). unfold UNLOAD_MIN_PER_100KG. lra.
  - pose proof (travel_time_nonneg _ _ _ _ _ Hm Hb). lra.
Qed.

Lemma visits_forward_legs (v : vehicle) (d : store) (s : sim) :
  matrix_nonneg distance_matrix ->
  visit v (start_sim depot v d) s -> Forall forward_leg (route s).
Proof.
  intros Hm.
  apply (visits_invariant cities distance_matrix depot
           (fun s => Forall forward_leg (route s))).
  - constructor.
  - intros c s1 s2. now apply step_forward_legs.
Qed.

End Schedule.

(** X1. The legs of a route follow one another: the first leaves the depot
    at the vehicle's start instant, and every later leg leaves from the
    destination of the leg before it, at that leg's arrival plus its
    unloading time. *)
Theorem route_is_chained
    (cities : list city) (m : list (list R)) (depot : city)
    (fuel : nat) (v : vehicle) (d : store) (r : list leg) (d' : store) :
  simulate_vehicle cities m depot fuel v d = Ok (r, d') ->
  chained depot (v_start v) r.
Proof.
  intros H. apply simulate_inv in H. destruct H as (s & s' & Hf & Hc & -> & _).
  apply for_cities_visits in Hf. apply visits_on_schedule in Hf.
  destruct Hf as [Hch He].
  apply close_route_inv in Hc.
  destruct Hc as [[_ ->] | [_ (back & km & _ & _ & ->)]]; auto.
  simpl. rewrite chained_snoc, He. simpl. auto.
Qed.

Lemma route_is_chained_witness : chained "Depot"%string 0 (rf_route 60 60 0).
Proof.
  assert (B60 : 0 < 60) by lra.
  assert (Q : 10 < 1000) by lra.
  apply (route_is_chained rf_cities (rf_matrix 60 60) "Depot"%string 2
           (rf_vehicle 1 0) [("City"%string, 1000)] (rf_route 60 60 0)
           [("City"%string, 1000 - 10)]
           (rf_simulate_eval 60 60 0 1 0 1000 B60 Q)).
Defined.

(** X2. When no matrix entry is negative, time never runs backwards along
    a route: the departures and arrivals of its legs, read in route order
    from the vehicle's start instant, are non-decreasing. *)
Theorem route_times_nondecreasing
    (cities : list city) (m : list (list R)) (depot : city)
    (fuel : nat) (v : vehicle) (d : store) (r : list leg) (d' : store) :
  matrix_nonneg m ->
  simulate_vehicle cities m depot fuel v d = Ok (r, d') ->
  nondecreasing (v_start v :: timeline r).
Proof.
  intros Hm H. apply simulate_inv in H. destruct H as (s & s' & Hf & Hc & -> & _).
  apply for_cities_visits in Hf.
  pose proof (visits_forward_legs _ _ _ _ _ _ Hm Hf) as Hfw.
  pose proof (visits_on_schedule _ _ _ _ _ _ Hf) as [Hch He].
  apply close_route_inv in Hc.
  destruct Hc as [[_ ->] | [_ (back & km & Hb & _ & ->)]].
  - now apply chained_timeline with (start := depot).
  - pose proof (travel_time_nonneg _ _ _ _ _ Hm Hb) as Hback.
    apply chained_timeline with (start := depot); simpl.
    + rewrite chained_snoc, He. simpl. auto.
    + apply Forall_app. split; auto. constructor; auto.
      unfold forward_leg. simpl. lra.
Qed.

Lemma route_times_nondecreasing_witness :
  nondecreasing (0 :: timeline (rf_route 60 60 0)).
Proof.
  assert (B60 : 0 < 60) by lra.
  assert (Q : 10 < 1000) by lra.
  apply (route_times_nondecreasing rf_cities (rf_matrix 60 60) "Depot"%string 2
           (rf_vehicle 1 0) [("City"%string, 1000)] (rf_route 60 60 0)
           [("City"%string, 1000 - 10)]).
  - apply rf_matrix_nonneg; lra.
  - apply (rf_simulate_eval 60 60 0 1 0 1000 B60 Q).
Defined.

(** ** The plan as a dictionary keyed by vehicle identifiers *)

Lemma plan_set_present (id : nat) (r : list leg) (sol : solution) :
  In id (dict_keys sol) -> dict_keys (dict_set Nat.eqb id r sol) = dict_keys sol.
Proof.
  unfold dict_keys. induction sol as [|[k w] sol IH]; simpl; [tauto|].
  destruct (Nat.eqb k id) eqn:E; simpl; auto.
  intros [H|H]; [apply Nat.eqb_neq in E; contradiction|]. now rewrite IH.
Qed.

Lemma plan_set_absent (id : nat) (r : list leg) (sol : solution) :
  ~ In id (dict_keys sol) -> dict_set Nat.eqb id r sol = sol ++ [(id, r)].
Proof.
  unfold dict_keys. induction sol as [|[k w] sol IH]; simpl; auto.
  intros H. destruct (Nat.eqb k id) eqn:E.
  - apply Nat.eqb_eq in E. tauto.
  - rewrite IH; auto.
Qed.

Lemma plan_set_in (id : nat) (r : list leg) (sol : solution) (kr : nat * list leg) :
  In kr (dict_set Nat.eqb id r sol) -> In kr sol \/ kr = (id, r).
Proof.
  induction sol as [|[k w] sol IH]; simpl.
  - intros [H|[]]; auto.
  - destruct (Nat.eqb k id) eqn:E; simpl.
    + apply Nat.eqb_eq in E. subst k. intros [H|H]; auto.
    + intros [H|H]; auto. destruct (IH H); auto.
Qed.

Lemma plan_set_keys_incl (id : nat) (r : list leg) (sol : solution) :
  incl (dict_keys (dict_set Nat.eqb id r sol)) (id :: dict_keys sol).
Proof.
  intros k Hk. unfold dict_keys in Hk. apply in_map_iff in Hk.
  destruct Hk as ([k' w] & <- & Hin). apply plan_set_in in Hin.
  destruct Hin as [Hin|Hin].
  - right. unfold dict_keys. now apply (in_map fst) in Hin.
  - injection Hin as -> _. now left.
Qed.

Lemma plan_set_keys_NoDup (id : nat) (r : list leg) (sol : solution) :
  NoDup (dict_keys sol) -> NoDup (dict_keys (dict_set Nat.eqb id r sol)).
Proof.
  intros H. destruct (in_dec Nat.eq_dec id (dict_keys sol)) as [Hin|Hin].
  - now rewrite plan_set_present.
  - rewrite plan_set_absent by auto. unfold dict_keys in *. rewrite map_app. simpl.
    apply NoDup_app; auto.
    + repeat constructor. intros [].
    + intros x Hx [<-|[]]. contradiction.
Qed.

Lemma plan_delivered_app (c : city) (sol1 sol2 : solution) :
  plan_delivered c (sol1 ++ sol2) = plan_delivered c sol1 + plan_delivered c sol2.
Proof.
  induction sol1 as [|[k w] sol1 IH]; simpl; [lra | rewrite IH; lra].
Qed.

Lemma any_remaining_false (d : store) :
  any_remaining d = false <-> Forall (fun r => r <= 0) (dict_values d).
Proof.
  unfold any_remaining, dict_values.
  induction d as [|[k r] d IH]; simpl.
  - split; auto.
  - destruct (Rlt_dec 0 r) as [Hr|Hr]; simpl.
    + split; [discriminate|]. intros H. inversion H; subst. lra.
    + rewrite IH. split.
      * intros H. constructor; auto. lra.
      * intros H. now inversion H.
Qed.

Lemma store_get_of_pair (c : city) (r : R) (d : store) :
  NoDup (dict_keys d) -> In (c, r) d -> store_get c d = Some r.
Proof.
  unfold store_get, dict_keys.
  induction d as [|[k w] d IH]; simpl; [tauto|].
  intros Hnd [H|H].
  - injection H as -> ->. now rewrite String.eqb_refl.
  - inversion Hnd as [|? ? Hk Hnd']; subst.
    destruct (String.eqb k c) eqn:E; auto.
    apply String.eqb_eq in E. subst k.
    exfalso. apply Hk. now apply (in_map fst) in H.
Qed.

Section Plan.
Variable cities : list city.
Variable distance_matrix : list (list R).
Variable depot : city.

Abbreviation simulate := (simulate_vehicle cities distance_matrix depot).
Abbreviation run := (run_vehicles cities distance_matrix depot).

Lemma run_vehicles_idle (fuel : nat) (vs : list vehicle) (d : store) (sol : solution) :
  any_remaining d = false -> run fuel vs d sol = Ok (sol, d).
Proof.
  intros H. induction vs as [|v vs IH]; simpl; auto. now rewrite H.
Qed.

Lemma run_vehicles_exact (fuel : nat) (vs : list vehicle) :
  forall (d : store) (sol sol' : solution) (d' : store),
    NoDup (map v_id vs) ->
    (forall v, In v vs -> ~ In (v_id v) (dict_keys sol)) ->
    run fuel vs d sol = Ok (sol', d') ->
    forall x, plan_delivered x sol' + remaining_of x d'
              = plan_delivered x sol + remaining_of x d.
Proof.
  induction vs as [|v vs IH]; intros d sol sol' d' Hnd Hfresh H x; simpl in H.
  - injection H as <- <-. reflexivity.
  - simpl in Hnd. apply NoDup_cons_iff in Hnd. destruct Hnd as [Hv Hnd].
    destruct (any_remaining d).
    + bind_inv H. destruct x0 as [r d1].
      apply simulate_accounts in E. destruct E as (_ & _ & Hc).
      assert (Hid : ~ In (v_id v) (dict_keys sol)) by (apply Hfresh; now left).
      destruct r as [|l r]; cbn [is_empty] in H.
      * rewrite (IH _ _ _ _ Hnd (fun w Hw => Hfresh w (or_intror Hw)) H x).
        specialize (Hc x). simpl in Hc. lra.
      * rewrite plan_set_absent in H by exact Hid.
        assert (Hfresh' : forall w, In w vs ->
                  ~ In (v_id w) (dict_keys (sol ++ [(v_id v, l :: r)]))).
        { intros w Hw Hin. unfold dict_keys in Hin. rewrite map_app in Hin.
          apply in_app_or in Hin. destruct Hin as [Hin|[Hin|[]]].
          - apply (Hfresh w (or_intror Hw)). exact Hin.
          - simpl in Hin. apply Hv. rewrite Hin. now apply in_map. }
        rewrite (IH _ _ _ _ Hnd Hfresh' H x).
        rewrite plan_delivered_app. simpl. specialize (Hc x). simpl in Hc. lra.
    + apply (IH _ _ _ _ Hnd (fun w Hw => Hfresh w (or_intror Hw)) H x).
Qed.

Lemma simulate_route_nonneg (fuel : nat) (v : vehicle) (d : store) (r : list leg) (d' : store) :
  simulate fuel v d = Ok (r, d') -> nonneg_legs r.
Proof. intros H. now apply simulate_accounts in H. Qed.

Lemma run_vehicles_shape (fuel : nat) (vs : list vehicle) :
  forall (d : store) (sol sol' : solution) (d' : store),
    run fuel vs d sol = Ok (sol', d') ->
    Forall (fun ir => snd ir <> []) sol -> NoDup (dict_keys sol) ->
    Forall (fun ir => snd ir <> []) sol' /\ NoDup (dict_keys sol') /\
    incl (dict_keys sol') (map v_id vs ++ dict_keys sol).
Proof.
  induction vs as [|v vs IH]; intros d sol sol' d' H Hne Hnd; simpl in H.
  - injection H as <- <-. repeat split; auto. apply incl_refl.
  - destruct (any_remaining d).
    + bind_inv H. destruct x as [r d1].
      destruct r as [|l r]; cbn [is_empty] in H.
      * destruct (IH _ _ _ _ H Hne Hnd) as (A & B & C). repeat split; auto.
        intros k Hk. apply C in Hk. simpl. now right.
      * destruct (IH _ _ _ _ H) as (A & B & C).
        -- rewrite Forall_forall. intros kr Hin. apply plan_set_in in Hin.
           destruct Hin as [Hin| ->]; [|simpl; discriminate].
           rewrite Forall_forall in Hne. now apply Hne.
        -- now apply plan_set_keys_NoDup.
        -- repeat split; auto. intros k Hk. apply C in Hk.
           apply in_app_or in Hk. destruct Hk as [Hk|Hk].
           ++ simpl. right. apply in_or_app. now left.
           ++ apply plan_set_keys_incl in Hk. destruct Hk as [<-|Hk].
              ** now left.
              ** simpl. right. apply in_or_app. now right.
    + destruct (IH _ _ _ _ H Hne Hnd) as (A & B & C). repeat split; auto.
      intros k Hk. apply C in Hk. simpl. now right.
Qed.

End Plan.

(** X4. Once no remaining quantity is positive, no further vehicle is
    simulated: whatever vehicles are left, and whatever the matrix and the
    number of loop iterations allowed, the plan and the dictionary stay as
    they are. *)
Theorem satisfied_demand_dispatches_nobody
    (cities : list city) (m : list (list R)) (depot : city)
    (fuel : nat) (vs : list vehicle) (d : store) (sol : solution) :
  Forall (fun r => r <= 0) (dict_values d) ->
  run_vehicles cities m depot fuel vs d sol = Ok (sol, d).
Proof.
  intros H. apply any_remaining_false in H.
  induction vs as [|v vs IH]; simpl.
  - reflexivity.
  - rewrite H. exact IH.
Qed.

Lemma satisfied_demand_dispatches_nobody_witness :
  run_vehicles rf_cities (rf_matrix 60 60) "Depot"%string 0
    [rf_vehicle 1 0; rf_vehicle 2 30] [("City"%string, 0)] []
  = Ok ([], [("City"%string, 0)]).
Proof.
  apply (satisfied_demand_dispatches_nobody rf_cities (rf_matrix 60 60) "Depot"%string
           0 [rf_vehicle 1 0; rf_vehicle 2 30] [("City"%string, 0)] []).
  unfold dict_values. simpl. constructor; [lra | constructor].
Defined.

(** X5. Demands none of which asks for a positive quantity give the empty
    plan, for any vehicles, cities and matrix. *)
Theorem no_positive_demand_gives_empty_plan
    (cities : list city) (m : list (list R)) (depot : city)
    (fuel : nat) (vs : list vehicle) (ds : list demand) :
  Forall (fun x => d_demand x <= 0) ds ->
  run_vrptw cities m depot fuel vs ds = Ok [].
Proof.
  intros H. unfold run_vrptw, run_vrptw_state.
  rewrite run_vehicles_idle; [reflexivity|].
  apply any_remaining_false. rewrite Forall_forall. intros r Hr.
  unfold dict_values in Hr. apply in_map_iff in Hr. destruct Hr as ([c r'] & <- & Hin).
  apply store_get_of_pair in Hin; [|apply demands_copy_keys_NoDup].
  rewrite demands_copy_get in Hin. apply last_declared_in in Hin.
  destruct Hin as (x & Hx & _ & <-). rewrite Forall_forall in H. simpl. auto.
Qed.

Lemma no_positive_demand_gives_empty_plan_witness :
  run_vrptw rf_cities (rf_matrix 60 60) "Depot"%string 0 [rf_vehicle 1 0]
    [ {| d_city := "City"%string; d_demand := 0;
         d_tw_start := "09:00"%string; d_tw_end := "17:00"%string |} ]
  = Ok [].
Proof.
  apply (no_positive_demand_gives_empty_plan rf_cities (rf_matrix 60 60) "Depot"%string
           0 [rf_vehicle 1 0]).
  constructor; [simpl; lra | constructor].
Defined.

(** X6. In a plan every route has at least one leg, no vehicle identifier
    appears twice, and every identifier is that of a vehicle of the input. *)
Theorem plan_routes_are_nonempty
    (cities : list city) (m : list (list R)) (depot : city)
    (fuel : nat) (vs : list vehicle) (ds : list demand) (sol : solution) :
  run_vrptw cities m depot fuel vs ds = Ok sol ->
  Forall (fun ir => snd ir <> []) sol /\
  NoDup (dict_keys sol) /\
  incl (dict_keys sol) (map v_id vs).
Proof.
  intros H. apply run_vrptw_state_of in H. destruct H as [d' H].
  unfold run_vrptw_state in H.
  destruct (run_vehicles_shape cities m depot fuel vs _ _ _ _ H
              (Forall_nil _) (NoDup_nil _)) as (A & B & C).
  repeat split; auto. now rewrite app_nil_r in C.
Qed.

Lemma plan_routes_are_nonempty_witness :
  Forall (fun ir : nat * list leg => snd ir <> [])
    [(1%nat, rf_route 60 60 0); (2%nat, rf_route 60 60 30)] /\
  NoDup (dict_keys [(1%nat, rf_route 60 60 0); (2%nat, rf_route 60 60 30)]) /\
  incl (dict_keys [(1%nat, rf_route 60 60 0); (2%nat, rf_route 60 60 30)])
       (map v_id [rf_vehicle 1 0; rf_vehicle 2 30]).
Proof.
  assert (B60 : 0 < 60) by lra.
  apply (plan_routes_are_nonempty rf_cities (rf_matrix 60 60) "Depot"%string 2
           [rf_vehicle 1 0; rf_vehicle 2 30] rf_demands).
  unfold run_vrptw. now rewrite (rf_run_two 60 60 0 0 30 B60).
Defined.

(** ** A vehicle without capacity *)

Lemma travel_time_of_dist (cities : list city) (m : list (list R)) (a b : city) (x : R) :
  dist_between cities m a b = Ok x ->
  travel_time_minutes cities m a b = Ok ((x / SPEED_KMPH) * 60).
Proof.
  unfold dist_between, travel_time_minutes. intros H.
  bind_inv H. bind_inv H. rewrite E, E0. simpl. now rewrite H.
Qed.

Section Stuck.
Variable cities : list city.
Variable distance_matrix : list (list R).
Variable depot : city.
Variable v : vehicle.
Variable d : store.
Hypothesis no_capacity : v_capacity v <= 0.
Hypothesis diagonal : dist_between cities distance_matrix depot depot = Ok 0.
Hypothesis reachable :
  forall c, In c (dict_keys d) -> exists x, dist_between cities distance_matrix depot c = Ok x.

Abbreviation body := (while_body cities distance_matrix depot).
Abbreviation while_c := (while_city cities distance_matrix depot).
Abbreviation for_c := (for_cities cities distance_matrix depot).

Lemma stuck_refills (c : city) (rem : R) (s : sim) :
  stuck_at_depot depot d s -> store_get c d = Some rem -> 0 < rem ->
  exists s', body v c s = Ok (Continue s') /\ stuck_at_depot depot d s'.
Proof.
  intros (Hl & Hc & Hd) Hg Hr.
  assert (Hin : In c (dict_keys d)) by (apply store_get_in_keys; eauto).
  destruct (reachable c Hin) as [x Hx].
  exists (after_refill depot v s ((0 / SPEED_KMPH) * 60) 0). split.
  - eapply body_refill with (rem := rem) (t2 := (x / SPEED_KMPH) * 60).
    + now rewrite Hd.
    + exact Hr.
    + lra.
    + rewrite Hl. now apply travel_time_of_dist.
    + now apply travel_time_of_dist.
    + unfold SPEED_KMPH. lra.
    + now rewrite Hl.
  - repeat split; simpl; auto.
Qed.

Lemma stuck_while_diverges (c : city) (rem : R) (fuel : nat) :
  store_get c d = Some rem -> 0 < rem ->
  forall s, stuck_at_depot depot d s -> while_c fuel v c s = OutOfFuel.
Proof.
  intros Hg Hr. induction fuel as [|fuel IH]; intros s Hs; [reflexivity|].
  destruct (stuck_refills c rem s Hs Hg Hr) as (s' & E & Hs').
  rewrite (while_city_continue _ _ _ _ _ _ _ _ E). now apply IH.
Qed.

Lemma stuck_for_diverges (fuel : nat) (cs : list city) (c : city) (rem : R) :
  incl cs (dict_keys d) -> In c cs ->
  store_get c d = Some rem -> 0 < rem ->
  forall s, stuck_at_depot depot d s -> for_c fuel v cs s = OutOfFuel.
Proof.
  intros Hincl Hin Hg Hr. induction cs as [|c0 cs IH]; intros s Hs; [destruct Hin|].
  cbn [for_cities].
  assert (H0 : In c0 (dict_keys d)) by (apply Hincl; now left).
  apply store_get_in_keys in H0. destruct H0 as [r0 G0].
  destruct (Rlt_dec 0 r0) as [Hpos|Hneg].
  - now rewrite (stuck_while_diverges c0 r0 fuel G0 Hpos s Hs).
  - destruct Hin as [->|Hin]; [rewrite Hg in G0; injection G0 as <-; contradiction|].
    destruct fuel as [|fuel]; [reflexivity|].
    assert (E : body v c0 s = Ok Satisfied).
    { eapply body_satisfied; [|exact Hneg]. destruct Hs as (_ & _ & ->). exact G0. }
    rewrite (while_city_satisfied _ _ _ _ _ _ _ E). cbn [bind].
    apply IH; auto. intros x Hx. apply Hincl. now right.
Qed.

End Stuck.

(** X7. A vehicle whose declared capacity is zero or negative never comes
    back from its simulation when some demand is positive: with a zero
    diagonal in the matrix, the refill test holds at the depot, the refill
    restores a capacity that is still not positive, and the loop goes on
    whatever the number of iterations allowed. *)
Theorem vehicle_without_capacity_never_returns
    (cities : list city) (m : list (list R)) (depot : city)
    (v : vehicle) (d : store) (c : city) (rem : R) (fuel : nat) :
  v_capacity v <= 0 ->
  dist_between cities m depot depot = Ok 0 ->
  (forall c', In c' (dict_keys d) -> exists x, dist_between cities m depot c' = Ok x) ->
  store_get c d = Some rem -> 0 < rem ->
  simulate_vehicle cities m depot fuel v d = OutOfFuel.
Proof.
  intros Hcap Hdiag Hreach Hg Hr. unfold simulate_vehicle.
  rewrite (stuck_for_diverges cities m depot v d Hcap Hdiag Hreach fuel
             (dict_keys d) c rem); auto.
  - apply incl_refl.
  - apply store_get_in_keys. eauto.
  - repeat split; auto.
Qed.

Lemma vehicle_without_capacity_never_returns_witness :
  simulate_vehicle rf_cities (rf_matrix 60 60) "Depot"%string 1000
    {| v_id := 1; v_capacity := 0; v_start := 0 |} [("City"%string, 1000)]
  = OutOfFuel.
Proof.
  apply (vehicle_without_capacity_never_returns rf_cities (rf_matrix 60 60)
           "Depot"%string {| v_id := 1; v_capacity := 0; v_start := 0 |}
           [("City"%string, 1000)] "City"%string 1000 1000).
  - simpl. lra.
  - reflexivity.
  - intros c' [<-|[]]. exists 60. reflexivity.
  - reflexivity.
  - lra.
Defined.

(** ** Which leg comes first *)

Section FirstLeg.
Variable cities : list city.
Variable distance_matrix : list (list R).
Variable depot : city.

Abbreviation body := (while_body cities distance_matrix depot).
Abbreviation step := (body_step cities distance_matrix depot).
Abbreviation visit := (visits cities distance_matrix depot).
Abbreviation while_c := (while_city cities distance_matrix depot).
Abbreviation for_c := (for_cities cities distance_matrix depot).
Abbreviation close := (close_route cities distance_matrix depot).
Abbreviation simulate := (simulate_vehicle cities distance_matrix depot).

Lemma visits_route_prefix (v : vehicle) (s0 s : sim) :
  visit v s0 s -> exists l, route s = route s0 ++ l.
Proof.
  apply (visits_invariant cities distance_matrix depot
           (fun s => exists l, route s = route s0 ++ l)).
  - exists []. now rewrite app_nil_r.
  - intros c s1 s2 [l Hl] Hs.
    destruct Hs as [rem tm d Hg Hr Hcap Ht Hd | rem back t2 d Hg Hr Hcap Hb Ht Hle Hd];
      simpl; rewrite Hl, <- app_assoc; eauto.
Qed.

Lemma while_city_visits (fuel : nat) (v : vehicle) (c : city) (s s' : sim) :
  while_c fuel v c s = Ok s' -> visit v s s'.
Proof.
  intros H. apply (for_cities_visits cities distance_matrix depot fuel v [c]).
  simpl. now rewrite H.
Qed.

Lemma for_cities_app (fuel : nat) (v : vehicle) (cs1 cs2 : list city) (s : sim) :
  for_c fuel v (cs1 ++ cs2) s = bind (for_c fuel v cs1 s) (for_c fuel v cs2).
Proof.
  revert s. induction cs1 as [|c cs1 IH]; intros s; simpl; auto.
  destruct (while_c fuel v c s); simpl; auto.
Qed.

Lemma for_cities_skip (fuel : nat) (v : vehicle) (cs : list city) (s s' : sim) :
  (forall c r, In c cs -> store_get c (demands s) = Some r -> r <= 0) ->
  for_c fuel v cs s = Ok s' -> s' = s.
Proof.
  revert s'. induction cs as [|c cs IH]; intros s' Hle H; simpl in H.
  - now injection H as <-.
  - bind_inv H. destruct fuel as [|fuel]; [discriminate|].
    assert (Hx : x = s).
    { simpl in E. unfold while_body, remaining in E.
      destruct (store_get c (demands s)) as [r|] eqn:G; [|discriminate].
      simpl in E. specialize (Hle c r (or_introl eq_refl) G).
      destruct (Rlt_dec 0 r); [lra|]. simpl in E. now injection E as <-. }
    subst x. apply IH; auto. intros c' r Hin. apply Hle. now right.
Qed.

End FirstLeg.

(** X8. Demands are taken in the order of the dictionary, skipping those
    already satisfied: the first leg of a vehicle of positive capacity
    leaves the depot at the vehicle's start instant for the first city
    whose remaining quantity is positive, and delivers the smaller of the
    vehicle's capacity and that quantity. *)
Theorem first_leg_serves_first_open_demand
    (cities : list city) (m : list (list R)) (depot : city)
    (fuel : nat) (v : vehicle) (d : store) (cs1 cs2 : list city) (c : city) (q : R)
    (r : list leg) (d' : store) :
  0 < v_capacity v ->
  dict_keys d = cs1 ++ c :: cs2 ->
  (forall c' x, In c' cs1 -> store_get c' d = Some x -> x <= 0) ->
  store_get c d = Some q -> 0 < q ->
  simulate_vehicle cities m depot fuel v d = Ok (r, d') ->
  exists l rest,
    r = l :: rest /\
    l_from l = depot /\ l_to l = c /\ l_depart l = v_start v /\
    l_deliver l = Rmin (v_capacity v) q.
Proof.
  intros HC Hkeys Hskip Hg Hq H.
  apply simulate_inv in H. destruct H as (s & s' & Hf & Hc & -> & _).
  rewrite Hkeys, for_cities_app in Hf.
  destruct (for_cities cities m depot fuel v cs1 (start_sim depot v d))
    as [sa| |] eqn:Ea; try discriminate.
  apply for_cities_skip in Ea; [|exact Hskip]. subst sa.
  cbn [bind for_cities] in Hf.
  destruct (while_city cities m depot fuel v c (start_sim depot v d))
    as [s1| |] eqn:Ew; try discriminate.
  cbn [bind] in Hf.
  destruct fuel as [|fuel]; [discriminate|].
  assert (Hfirst : exists tm km,
             while_body cities m depot v c (start_sim depot v d)
             = Ok (Continue (after_delivery (start_sim depot v d) c q tm km))).
  { destruct (travel_time_minutes cities m depot c) as [tm| |] eqn:Et;
      [destruct (dist_between cities m depot c) as [km| |] eqn:Ed| |].
    - exists tm, km. now apply body_delivery.
    - exfalso. simpl in Ew. unfold while_body, remaining in Ew. simpl in Ew.
      rewrite Hg in Ew. simpl in Ew.
      destruct (Rlt_dec 0 q); [|contradiction].
      destruct (Rlt_dec 0 (v_capacity v)); [|contradiction].
      rewrite Et in Ew. simpl in Ew. rewrite Ed in Ew. discriminate.
    - exfalso. simpl in Ew. unfold while_body, remaining in Ew. simpl in Ew.
      rewrite Hg in Ew. simpl in Ew.
      destruct (Rlt_dec 0 q); [|contradiction].
      destruct (Rlt_dec 0 (v_capacity v)); [|contradiction].
      rewrite Et in Ew. simpl in Ew. rewrite Ed in Ew. discriminate.
    - exfalso. simpl in Ew. unfold while_body, remaining in Ew. simpl in Ew.
      rewrite Hg in Ew. simpl in Ew.
      destruct (Rlt_dec 0 q); [|contradiction].
      destruct (Rlt_dec 0 (v_capacity v)); [|contradiction].
      rewrite Et in Ew. discriminate.
    - exfalso. simpl in Ew. unfold while_body, remaining in Ew. simpl in Ew.
      rewrite Hg in Ew. simpl in Ew.
      destruct (Rlt_dec 0 q); [|contradiction].
      destruct (Rlt_dec 0 (v_capacity v)); [|contradiction].
      rewrite Et in Ew. discriminate. }
  destruct Hfirst as (tm & km & Hfirst).
  rewrite (while_city_continue _ _ _ _ _ _ _ _ Hfirst) in Ew.
  apply while_city_visits in Ew. apply visits_route_prefix in Ew.
  apply for_cities_visits in Hf. apply visits_route_prefix in Hf.
  destruct Ew as [l1 E1]. destruct Hf as [l2 E2]. simpl in E1.
  exists (delivery_leg (start_sim depot v d) c q tm km).
  apply close_route_inv in Hc.
  destruct Hc as [[_ ->] | [_ (back & km' & _ & _ & ->)]]; simpl;
    rewrite E2, E1; simpl; eexists; (split; [reflexivity|]); auto.
Qed.

Lemma first_leg_serves_first_open_demand_witness :
  exists l rest,
    rf_route 60 60 0 = l :: rest /\
    l_from l = "Depot"%string /\ l_to l = "City"%string /\ l_depart l = 0 /\
    l_deliver l = Rmin 10 1000.
Proof.
  assert (B60 : 0 < 60) by lra.
  assert (Q : 10 < 1000) by lra.
  apply (first_leg_serves_first_open_demand rf_cities (rf_matrix 60 60) "Depot"%string
           2 (rf_vehicle 1 0) [("City"%string, 1000)] [] [] "City"%string 1000
           (rf_route 60 60 0) [("City"%string, 1000 - 10)]).
  - simpl. lra.
  - reflexivity.
  - intros c' x [].
  - reflexivity.
  - lra.
  - apply (rf_simulate_eval 60 60 0 1 0 1000 B60 Q).
Defined.

(** ** Deliveries follow the order of the dictionary *)

Lemma deliveries_snoc_delivery (r : list leg) (l : leg) :
  0 < l_deliver l -> deliveries (r ++ [l]) = deliveries r ++ [l_to l].
Proof.
  intros H. unfold deliveries. rewrite filter_app, map_app. simpl.
  now rewrite is_return_pos.
Qed.

Lemma deliveries_snoc_return (r : list leg) (l : leg) :
  l_deliver l = 0 -> deliveries (r ++ [l]) = deliveries r.
Proof.
  intros H. unfold deliveries. rewrite filter_app, map_app. simpl.
  rewrite is_return_zero by exact H. simpl. apply app_nil_r.
Qed.

Section Order.
Variable cities : list city.
Variable distance_matrix : list (list R).
Variable depot : city.

Abbreviation body := (while_body cities distance_matrix depot).
Abbreviation while_c := (while_city cities distance_matrix depot).
Abbreviation for_c := (for_cities cities distance_matrix depot).

Lemma while_city_deliveries (v : vehicle) (c : city) (fuel : nat) (s s' : sim) :
  while_c fuel v c s = Ok s' ->
  exists k, deliveries (route s') = deliveries (route s) ++ repeat c k.
Proof.
  revert s. induction fuel as [|fuel IH]; intros s H; simpl in H; [discriminate|].
  bind_inv H. destruct x as [s1| |].
  - apply IH in H. destruct H as [k Hk].
    apply body_Continue_inv in E.
    destruct E as [rem tm d Hg Hr Hcap Ht Hd | rem back t2 d Hg Hr Hcap Hb Ht Hle Hd];
      simpl in Hk.
    + rewrite deliveries_snoc_delivery in Hk
        by (simpl; now apply Rmin_pos_pos).
      simpl in Hk. rewrite <- app_assoc in Hk. exists (S k). exact Hk.
    + rewrite deliveries_snoc_return in Hk by reflexivity. eauto.
  - injection H as <-. exists 0%nat. simpl. now rewrite app_nil_r.
  - injection H as <-. exists 0%nat. simpl. now rewrite app_nil_r.
Qed.

Lemma for_cities_deliveries (v : vehicle) (fuel : nat) (cs : list city) (s s' : sim) :
  for_c fuel v cs s = Ok s' ->
  exists ks, List.length ks = List.length cs /\
             deliveries (route s') = deliveries (route s) ++ visit_blocks cs ks.
Proof.
  revert s. induction cs as [|c cs IH]; intros s H; simpl in H.
  - injection H as <-. exists []. split; auto. unfold visit_blocks. simpl.
    now rewrite app_nil_r.
  - bind_inv H. apply while_city_deliveries in E. destruct E as [k Hk].
    apply IH in H. destruct H as (ks & Hlen & Hks).
    exists (k :: ks). split; [simpl; now rewrite Hlen|].
    rewrite Hks, Hk. unfold visit_blocks. simpl. now rewrite <- app_assoc.
Qed.

End Order.

(** X10. The delivery legs of a route come in the order of the dictionary
    of demands, which is the order the demands were declared in: all
    deliveries to the first city, then all deliveries to the second, and so
    on, whatever the distances. *)
Theorem deliveries_follow_input_order
    (cities : list city) (m : list (list R)) (depot : city)
    (fuel : nat) (v : vehicle) (d : store) (r : list leg) (d' : store) :
  simulate_vehicle cities m depot fuel v d = Ok (r, d') ->
  exists ks, List.length ks = List.length (dict_keys d) /\
             deliveries r = visit_blocks (dict_keys d) ks.
Proof.
  intros H. apply simulate_inv in H. destruct H as (s & s' & Hf & Hc & -> & _).
  apply for_cities_deliveries in Hf. destruct Hf as (ks & Hlen & Hks).
  exists ks. split; auto.
  apply close_route_inv in Hc.
  destruct Hc as [[_ ->] | [_ (back & km & _ & _ & ->)]]; simpl.
  - exact Hks.
  - rewrite deliveries_snoc_return by reflexivity. exact Hks.
Qed.

Lemma deliveries_follow_input_order_witness :
  exists ks, List.length ks = List.length (dict_keys [("City"%string, 1000)]) /\
             deliveries (rf_route 60 60 0)
             = visit_blocks (dict_keys [("City"%string, 1000)]) ks.
Proof.
  assert (B60 : 0 < 60) by lra.
  assert (Q : 10 < 1000) by lra.
  apply (deliveries_follow_input_order rf_cities (rf_matrix 60 60) "Depot"%string 2
           (rf_vehicle 1 0) [("City"%string, 1000)] (rf_route 60 60 0)
           [("City"%string, 1000 - 10)]
           (rf_simulate_eval 60 60 0 1 0 1000 B60 Q)).
Defined.

(** * The matrix builder *)

Lemma mapM_Ok_inv {A B : Type} (f : A -> result B) (l : list A) (ys : list B) :
  mapM f l = Ok ys ->
  List.length ys = List.length l /\
  forall i x, nth_error l i = Some x ->
              exists y, nth_error ys i = Some y /\ f x = Ok y.
Proof.
  revert ys. induction l as [|a l IH]; intros ys H; simpl in H.
  - injection H as <-. split; auto. intros [|i] x; discriminate.
  - bind_inv H. bind_inv H. injection H as <-.
    destruct (IH _ E0) as [Hlen Hnth]. split; [simpl; now rewrite Hlen|].
    intros [|i] y Hy; simpl in *.
    + injection Hy as <-. eauto.
    + auto.
Qed.

Lemma mapM_all_Ok {A B : Type} (f : A -> result B) (l : list A) :
  (forall x, In x l -> exists y, f x = Ok y) -> exists ys, mapM f l = Ok ys.
Proof.
  induction l as [|a l IH]; intros H; simpl; [eauto|].
  destruct (H a (or_introl eq_refl)) as [y Hy]. rewrite Hy. simpl.
  destruct IH as [ys Hys]; [intros x Hx; apply H; now right|].
  rewrite Hys. simpl. eauto.
Qed.

Lemma nth_error_combine {A B : Type} (l1 : list A) (l2 : list B) (i : nat) (a : A) (b : B) :
  nth_error l1 i = Some a -> nth_error l2 i = Some b ->
  nth_error (combine l1 l2) i = Some (a, b).
Proof.
  revert l2 i. induction l1 as [|x l1 IH]; intros l2 i H1 H2.
  - destruct i; discriminate.
  - destruct l2 as [|y l2]; [destruct i; discriminate|].
    destruct i as [|i]; simpl in *.
    + now injection H1 as <-; injection H2 as <-.
    + auto.
Qed.

Lemma nth_error_enumerate {A : Type} (l : list A) (i : nat) (x : A) :
  nth_error l i = Some x -> nth_error (enumerate l) i = Some (i, x).
Proof.
  intros H. unfold enumerate. apply nth_error_combine; auto.
  assert (Hlt : (i < List.length l)%nat) by (apply nth_error_Some; congruence).
  rewrite nth_error_nth' with (d := 0%nat) by (now rewrite length_seq).
  now rewrite seq_nth.
Qed.

Lemma in_enumerate {A : Type} (l : list A) (ix : nat * A) :
  In ix (enumerate l) -> In (snd ix) l.
Proof.
  unfold enumerate. destruct ix as [i x]. intros H.
  apply in_combine_r in H. exact H.
Qed.

Lemma coords_get_set (c c' : city) (p : R * R) (d : coordinates) :
  dict_get String.eqb c' (dict_set String.eqb c p d)
  = if String.eqb c c' then Some p else dict_get String.eqb c' d.
Proof.
  induction d as [|[k w] d IH]; simpl.
  - reflexivity.
  - destruct (String.eqb k c) eqn:E; simpl.
    + apply String.eqb_eq in E. subst k. now destruct (String.eqb c c').
    + destruct (String.eqb k c') eqn:E'; auto.
      apply String.eqb_eq in E'. subst k. rewrite String.eqb_sym in E. now rewrite E.
Qed.

Section MatrixFacts.
Variable get_coordinates : city -> result (R * R).
Variable oracle : R * R -> R * R -> R * R.

Abbreviation fetch := (fetch_coordinates get_coordinates).
Abbreviation build := (build_matrices get_coordinates oracle).

(** Every entry of the dictionary is what the resolver gave for its name. *)
Lemma fetch_coordinates_inv (cs : list city) :
  forall acc coords,
    fetch cs acc = Ok coords ->
    (forall c p, dict_get String.eqb c acc = Some p -> get_coordinates c = Ok p) ->
    (forall c p, dict_get String.eqb c coords = Some p -> get_coordinates c = Ok p) /\
    (forall c, In c cs -> exists p, dict_get String.eqb c coords = Some p) /\
    (forall c p, dict_get String.eqb c acc = Some p ->
                 exists p', dict_get String.eqb c coords = Some p').
Proof.
  induction cs as [|c0 cs IH]; intros acc coords H Hacc; simpl in H.
  - injection H as <-. repeat split; auto; [intros c []|eauto].
  - bind_inv H.
    assert (Hacc' : forall c p, dict_get String.eqb c (dict_set String.eqb c0 x acc) = Some p ->
                                get_coordinates c = Ok p).
    { intros c p. rewrite coords_get_set. destruct (String.eqb c0 c) eqn:Ec.
      - apply String.eqb_eq in Ec. subst c. intros G. now injection G as <-.
      - apply Hacc. }
    destruct (IH _ _ H Hacc') as (A & B & C). split; [exact A|]. split.
    + intros c [<-|Hin]; auto.
      apply (C c0 x). rewrite coords_get_set. now rewrite String.eqb_refl.
    + intros c p G. destruct (String.eqb c0 c) eqn:Ec.
      * apply (C c x). rewrite coords_get_set. now rewrite Ec.
      * apply (C c p). rewrite coords_get_set. now rewrite Ec.
Qed.

Lemma fetch_coordinates_Ok (cs : list city) :
  (forall c, In c cs -> exists p, get_coordinates c = Ok p) ->
  forall acc, exists coords, fetch cs acc = Ok coords.
Proof.
  induction cs as [|c0 cs IH]; intros H acc; simpl; [eauto|].
  destruct (H c0 (or_introl eq_refl)) as [p Hp]. rewrite Hp. simpl.
  apply IH. intros c Hc. apply H. now right.
Qed.

Lemma fetch_coordinates_Raise (pre post : list city) (c : city) (e : exn) :
  (forall c', In c' pre -> exists p, get_coordinates c' = Ok p) ->
  get_coordinates c = Raise e ->
  forall acc, fetch (pre ++ c :: post) acc = Raise e.
Proof.
  intros Hpre Hc. induction pre as [|c0 pre IH]; intros acc; simpl.
  - now rewrite Hc.
  - destruct (Hpre c0 (or_introl eq_refl)) as [p Hp]. rewrite Hp. simpl.
    apply IH. intros c' Hin. apply Hpre. now right.
Qed.

End MatrixFacts.

Lemma build_matrices_rows
    (get_coordinates : city -> result (R * R)) (oracle : R * R -> R * R -> R * R)
    (supply_location : city) (ds : list demand)
    (cities : list city) (coords : coordinates) (D : list (list R)) :
  build_matrices get_coordinates oracle supply_location ds = Ok (cities, coords, D) ->
  cities = supply_location :: map d_city ds /\
  List.length D = List.length cities /\
  (forall c p, dict_get String.eqb c coords = Some p -> get_coordinates c = Ok p) /\
  (forall c, In c cities -> exists p, dict_get String.eqb c coords = Some p) /\
  (forall i ci, nth_error cities i = Some ci ->
     exists row, nth_error D i = Some row /\
                 mapM (matrix_entry oracle coords (i, ci)) (enumerate cities) = Ok row).
Proof.
  unfold build_matrices. intros H. bind_inv H. bind_inv H.
  injection H as <- <- <-.
  set (cities := supply_location :: map d_city ds) in *.
  destruct (fetch_coordinates_inv get_coordinates cities [] x E)
    as (Hres & Hall & _); [intros c p; discriminate|].
  destruct (mapM_Ok_inv _ _ _ E0) as [Hlen Hrows].
  assert (Hlen_en : List.length (enumerate cities) = List.length cities).
  { unfold enumerate. rewrite length_combine, length_seq. apply Nat.min_id. }
  split; [reflexivity|]. split; [now rewrite Hlen|].
  split; [exact Hres|]. split; [exact Hall|].
  intros i ci Hi. apply nth_error_enumerate in Hi. exact (Hrows _ _ Hi).
Qed.

Lemma build_matrices_dims
    (get_coordinates : city -> result (R * R)) (oracle : R * R -> R * R -> R * R)
    (supply_location : city) (ds : list demand)
    (cities : list city) (coords : coordinates) (D : list (list R)) :
  build_matrices get_coordinates oracle supply_location ds = Ok (cities, coords, D) ->
  cities = supply_location :: map d_city ds /\
  List.length D = List.length cities /\
  Forall (fun row => List.length row = List.length cities) D.
Proof.
  intros H. apply build_matrices_rows in H.
  destruct H as (Hc & Hlen & _ & _ & Hrow).
  split; [exact Hc|]. split; [exact Hlen|].
  assert (Hlen_en : List.length (enumerate cities) = List.length cities).
  { unfold enumerate. rewrite length_combine, length_seq. apply Nat.min_id. }
  rewrite Forall_forall. intros row Hin.
  apply In_nth_error in Hin. destruct Hin as [i Hi].
  assert (Hlt : (i < List.length cities)%nat).
  { rewrite <- Hlen. apply nth_error_Some. congruence. }
  destruct (nth_error cities i) as [ci|] eqn:Hci;
    [|apply nth_error_None in Hci; lia].
  destruct (Hrow i ci Hci) as (row' & Hr' & Hm).
  rewrite Hi in Hr'. injection Hr' as <-.
  apply mapM_Ok_inv in Hm. destruct Hm as [Hl _]. now rewrite Hl.
Qed.

(** X11. What the matrix builder returns.  The city list is the supply
    location followed by the demand cities in input order; the matrix is
    square of that size; its diagonal is zero; and the entry for two
    different positions is the distance the oracle gives for the
    coordinates the dictionary holds for the two names, which are the ones
    the resolver gave. *)
Theorem build_matrices_shape
    (get_coordinates : city -> result (R * R)) (oracle : R * R -> R * R -> R * R)
    (supply_location : city) (ds : list demand)
    (cities : list city) (coords : coordinates) (D : list (list R)) :
  build_matrices get_coordinates oracle supply_location ds = Ok (cities, coords, D) ->
  cities = supply_location :: map d_city ds /\
  List.length D = List.length cities /\
  Forall (fun row => List.length row = List.length cities) D /\
  (forall i, (i < List.length cities)%nat -> matrix_get D i i = Ok 0) /\
  (forall i j ci cj,
      i <> j -> nth_error cities i = Some ci -> nth_error cities j = Some cj ->
      exists pi pj,
        dict_get String.eqb ci coords = Some pi /\ get_coordinates ci = Ok pi /\
        dict_get String.eqb cj coords = Some pj /\ get_coordinates cj = Ok pj /\
        matrix_get D i j = Ok (fst (oracle pi pj))).
Proof.
  intros H. pose proof (build_matrices_dims _ _ _ _ _ _ _ H) as (Hc & Hlen & Hdims).
  apply build_matrices_rows in H. destruct H as (_ & _ & Hres & Hall & Hrow).
  split; [exact Hc|]. split; [exact Hlen|]. split; [exact Hdims|]. split.
  - intros i Hlt.
    destruct (nth_error cities i) as [ci|] eqn:Hci;
      [|apply nth_error_None in Hci; lia].
    destruct (Hrow i ci Hci) as (row & Hr & Hm).
    apply mapM_Ok_inv in Hm. destruct Hm as [_ Hn].
    destruct (Hn i (i, ci) (nth_error_enumerate _ _ _ Hci)) as (y & Hy & Hent).
    unfold matrix_entry in Hent. simpl in Hent. rewrite Nat.eqb_refl in Hent.
    injection Hent as <-. unfold matrix_get. now rewrite Hr, Hy.
  - intros i j ci cj Hne Hci Hcj.
    destruct (Hrow i ci Hci) as (row & Hr & Hm).
    apply mapM_Ok_inv in Hm. destruct Hm as [_ Hn].
    destruct (Hn j (j, cj) (nth_error_enumerate _ _ _ Hcj)) as (y & Hy & Hent).
    unfold matrix_entry in Hent. simpl in Hent.
    apply Nat.eqb_neq in Hne. rewrite Hne in Hent.
    destruct (Hall ci (nth_error_In _ _ Hci)) as [pi Hpi].
    destruct (Hall cj (nth_error_In _ _ Hcj)) as [pj Hpj].
    unfold coord_of in Hent. rewrite Hpi, Hpj in Hent. simpl in Hent.
    injection Hent as <-.
    exists pi, pj. repeat split; auto.
    unfold matrix_get. now rewrite Hr, Hy.
Qed.

Lemma build_matrices_shape_witness :
  fb_cities = "Supply"%string :: map d_city fb_demands /\
  List.length [[0; fst (haversine_distance (0, 0) (0, 1))];
               [fst (haversine_distance (0, 1) (0, 0)); 0]] = List.length fb_cities /\
  Forall (fun row => List.length row = List.length fb_cities)
    [[0; fst (haversine_distance (0, 0) (0, 1))];
     [fst (haversine_distance (0, 1) (0, 0)); 0]] /\
  (forall i, (i < List.length fb_cities)%nat ->
     matrix_get [[0; fst (haversine_distance (0, 0) (0, 1))];
                 [fst (haversine_distance (0, 1) (0, 0)); 0]] i i = Ok 0) /\
  (forall i j ci cj,
      i <> j -> nth_error fb_cities i = Some ci -> nth_error fb_cities j = Some cj ->
      exists pi pj,
        dict_get String.eqb ci
          [("Supply"%string, (0, 0)); ("Demand"%string, (0, 1))] = Some pi /\
        fb_coordinates ci = Ok pi /\
        dict_get String.eqb cj
          [("Supply"%string, (0, 0)); ("Demand"%string, (0, 1))] = Some pj /\
        fb_coordinates cj = Ok pj /\
        matrix_get [[0; fst (haversine_distance (0, 0) (0, 1))];
                    [fst (haversine_distance (0, 1) (0, 0)); 0]] i j
        = Ok (fst (haversine_distance pi pj))).
Proof.
  apply (build_matrices_shape fb_coordinates haversine_distance "Supply"%string
           fb_demands). apply fb_build.
Defined.

(** X12. A location that cannot be resolved fails the whole build: the
    error the resolver raises for the first such name, in the order supply
    location then demand cities, is the result of the builder, and no matrix
    is returned. *)
Theorem build_matrices_fails_on_unresolved
    (get_coordinates : city -> result (R * R)) (oracle : R * R -> R * R -> R * R)
    (supply_location : city) (ds : list demand)
    (pre post : list city) (c : city) (e : exn) :
  supply_location :: map d_city ds = pre ++ c :: post ->
  (forall c', In c' pre -> exists p, get_coordinates c' = Ok p) ->
  get_coordinates c = Raise e ->
  build_matrices get_coordinates oracle supply_location ds = Raise e.
Proof.
  intros Hsplit Hpre Hc. unfold build_matrices. rewrite Hsplit.
  now rewrite (fetch_coordinates_Raise get_coordinates pre post c e Hpre Hc).
Qed.

Lemma build_matrices_fails_on_unresolved_witness :
  build_matrices fb_coordinates haversine_distance "Supply"%string
    [ {| d_city := "Nowhere"%string; d_demand := 5;
         d_tw_start := "09:00"%string; d_tw_end := "17:00"%string |} ]
  = Raise ValueError.
Proof.
  apply (build_matrices_fails_on_unresolved fb_coordinates haversine_distance
           "Supply"%string _ ["Supply"%string] [] "Nowhere"%string ValueError).
  - reflexivity.
  - intros c' [<-|[]]. exists (0, 0). reflexivity.
  - reflexivity.
Defined.

(** * The oracle and the coordinates *)

Lemma haversine_distance_a (c1 c2 : R * R) :
  haversine_distance c1 c2
  = (6371 * (2 * asin (sqrt (haversine_a c1 c2))) * 1.3,
     (6371 * (2 * asin (sqrt (haversine_a c1 c2))) * 1.3 / 50) * 60).
Proof. destruct c1, c2. reflexivity. Qed.

Lemma radians_valid (x : R) : -90 <= x <= 90 -> - (PI / 2) <= radians x <= PI / 2.
Proof. intros H. unfold radians. pose proof PI_RGT_0. split; nra. Qed.

Lemma haversine_a_range (c1 c2 : R * R) :
  valid_latitude c1 -> valid_latitude c2 -> 0 <= haversine_a c1 c2 <= 1.
Proof.
  destruct c1 as [lat1 lon1], c2 as [lat2 lon2].
  unfold valid_latitude, haversine_a. simpl fst. intros H1 H2.
  apply radians_valid in H1. apply radians_valid in H2.
  set (p1 := radians lat1) in *. set (p2 := radians lat2) in *.
  set (dl := radians lon2 - radians lon1).
  pose proof (cos_ge_0 p1 (proj1 H1) (proj2 H1)) as C1.
  pose proof (cos_ge_0 p2 (proj1 H2) (proj2 H2)) as C2.
  rewrite <- !hav_sin.
  assert (Hd : 0 <= hav dl <= 1).
  { unfold hav. pose proof (COS_bound dl). lra. }
  assert (Hp : hav (p2 - p1) = (1 - cos p2 * cos p1 - sin p2 * sin p1) / 2).
  { unfold hav. rewrite cos_minus. lra. }
  assert (Hs : -1 <= cos p2 * cos p1 - sin p2 * sin p1 <= 1).
  { rewrite <- cos_plus. apply COS_bound. }
  assert (Hm : -1 <= cos p2 * cos p1 + sin p2 * sin p1 <= 1).
  { rewrite <- cos_minus. apply COS_bound. }
  rewrite Hp. split; nra.
Qed.

Lemma asin_nonneg (x : R) : 0 <= x <= 1 -> 0 <= asin x.
Proof.
  intros Hx. destruct (Rle_lt_dec 0 (asin x)) as [H|H]; auto.
  exfalso. pose proof (asin_bound x) as B. pose proof PI_RGT_0.
  assert (sin (asin x) < 0) by (apply sin_lt_0_var; lra).
  rewrite sin_asin in H1 by lra. lra.
Qed.

(** X14. The fallback estimate does not depend on the direction: from
    [c1] to [c2] it gives the same distance and the same duration as from
    [c2] to [c1]. *)
Theorem haversine_distance_symmetric (c1 c2 : R * R) :
  haversine_distance c1 c2 = haversine_distance c2 c1.
Proof.
  rewrite !haversine_great_circle. now rewrite (great_circle_sym c1 c2).
Qed.

(** X16. Between a point and itself the fallback gives distance 0 and
    duration 0. *)
Theorem haversine_distance_same_point (c : R * R) :
  haversine_distance c c = (0, 0).
Proof.
  rewrite haversine_distance_a. destruct c as [lat lon]. unfold haversine_a.
  replace ((radians lat - radians lat) / 2) with 0 by lra.
  replace ((radians lon - radians lon) / 2) with 0 by lra.
  rewrite sin_0.
  replace (0 ^ 2 + cos (radians lat) * cos (radians lat) * 0 ^ 2) with 0 by (simpl; lra).
  rewrite sqrt_0, asin_0. f_equal; lra.
Qed.

(** ** The remote estimate and its retries *)

Lemma osrm_attempts_answer (remote : nat -> response) (c1 c2 : R * R)
    (max_retries : nat) (meters seconds : R) (k : nat) :
  forall todo attempt,
    (k < todo)%nat ->
    (forall j, (j < k)%nat -> retryable (remote (attempt + j)%nat)) ->
    remote (attempt + k)%nat = RouteFound meters seconds ->
    fst (osrm_attempts remote c1 c2 max_retries todo attempt)
    = (meters / 1000, seconds / 60) /\
    requests (snd (osrm_attempts remote c1 c2 max_retries todo attempt)) = S k.
Proof.
  induction k as [|k IH]; intros todo attempt Hk Hretry Hfound.
  - destruct todo as [|todo]; [lia|]. simpl.
    rewrite Nat.add_0_r in Hfound. rewrite Hfound. auto.
  - destruct todo as [|todo]; [lia|].
    assert (H0 : retryable (remote attempt)).
    { specialize (Hretry 0%nat). rewrite Nat.add_0_r in Hretry. apply Hretry. lia. }
    assert (Hk' : (k < todo)%nat) by lia.
    assert (Hretry' : forall j, (j < k)%nat -> retryable (remote (S attempt + j)%nat)).
    { intros j Hj. replace (S attempt + j)%nat with (attempt + S j)%nat by lia.
      apply Hretry. lia. }
    assert (Hlast : remote (S attempt + k)%nat = remote (attempt + S k)%nat)
      by (f_equal; lia).
    rewrite <- Hlast in Hfound.
    destruct (IH todo (S attempt) Hk' Hretry' Hfound) as [Hv Hr].
    simpl.
    destruct (osrm_attempts remote c1 c2 max_retries todo (S attempt)) as [v t].
    simpl in Hv, Hr.
    destruct (remote attempt); try contradiction; simpl; split; auto.
    + unfold requests in *. simpl. now rewrite Hr.
    + unfold requests in *. simpl.
      destruct (Nat.ltb attempt (max_retries - 1)); simpl; now rewrite Hr.
    + unfold requests in *. simpl.
      destruct (Nat.ltb attempt (max_retries - 1)); simpl; now rewrite Hr.
Qed.

Lemma osrm_attempts_failure (remote : nat -> response) (c1 c2 : R * R)
    (max_retries : nat) (k : nat) :
  forall todo attempt,
    (k < todo)%nat ->
    (forall j, (j < k)%nat -> retryable (remote (attempt + j)%nat)) ->
    remote (attempt + k)%nat = Failed ->
    fst (osrm_attempts remote c1 c2 max_retries todo attempt)
    = haversine_distance c1 c2 /\
    requests (snd (osrm_attempts remote c1 c2 max_retries todo attempt)) = S k.
Proof.
  induction k as [|k IH]; intros todo attempt Hk Hretry Hfail.
  - destruct todo as [|todo]; [lia|]. simpl.
    rewrite Nat.add_0_r in Hfail. rewrite Hfail. auto.
  - destruct todo as [|todo]; [lia|].
    assert (H0 : retryable (remote attempt)).
    { specialize (Hretry 0%nat). rewrite Nat.add_0_r in Hretry. apply Hretry. lia. }
    assert (Hk' : (k < todo)%nat) by lia.
    assert (Hretry' : forall j, (j < k)%nat -> retryable (remote (S attempt + j)%nat)).
    { intros j Hj. replace (S attempt + j)%nat with (attempt + S j)%nat by lia.
      apply Hretry. lia. }
    assert (Hlast : remote (S attempt + k)%nat = remote (attempt + S k)%nat)
      by (f_equal; lia).
    rewrite <- Hlast in Hfail.
    destruct (IH todo (S attempt) Hk' Hretry' Hfail) as [Hv Hr].
    simpl.
    destruct (osrm_attempts remote c1 c2 max_retries todo (S attempt)) as [v t].
    simpl in Hv, Hr.
    destruct (remote attempt); try contradiction; simpl; split; auto.
    + unfold requests in *. simpl. now rewrite Hr.
    + unfold requests in *. simpl.
      destruct (Nat.ltb attempt (max_retries - 1)); simpl; now rewrite Hr.
    + unfold requests in *. simpl.
      destruct (Nat.ltb attempt (max_retries - 1)); simpl; now rewrite Hr.
Qed.

Lemma osrm_attempts_exhausted (remote : nat -> response) (c1 c2 : R * R)
    (max_retries : nat) :
  forall todo attempt,
    (forall j, (j < todo)%nat -> retryable (remote (attempt + j)%nat)) ->
    fst (osrm_attempts remote c1 c2 max_retries todo attempt)
    = haversine_distance c1 c2 /\
    requests (snd (osrm_attempts remote c1 c2 max_retries todo attempt)) = todo.
Proof.
  induction todo as [|todo IH]; intros attempt Hretry; [auto|].
  assert (H0 : retryable (remote attempt)).
  { specialize (Hretry 0%nat). rewrite Nat.add_0_r in Hretry. apply Hretry. lia. }
  destruct (IH (S attempt)) as [Hv Hr].
  { intros j Hj. replace (S attempt + j)%nat with (attempt + S j)%nat by lia.
    apply Hretry. lia. }
  simpl.
  destruct (osrm_attempts remote c1 c2 max_retries todo (S attempt)) as [v t].
  simpl in Hv, Hr.
  destruct (remote attempt); try contradiction; simpl; split; auto.
  - unfold requests in *. simpl. now rewrite Hr.
  - unfold requests in *. simpl.
    destruct (Nat.ltb attempt (max_retries - 1)); simpl; now rewrite Hr.
  - unfold requests in *. simpl.
    destruct (Nat.ltb attempt (max_retries - 1)); simpl; now rewrite Hr.
Qed.

Lemma osrm_attempts_effort (remote : nat -> response) (c1 c2 : R * R)
    (max_retries : nat) :
  forall todo attempt,
    (requests (snd (osrm_attempts remote c1 c2 max_retries todo attempt)) <= todo)%nat /\
    0 <= time_slept (snd (osrm_attempts remote c1 c2 max_retries todo attempt))
      <= 2 * INR (max_retries - 1 - attempt).
Proof.
  induction todo as [|todo IH]; intros attempt.
  - simpl. split; [unfold requests; simpl; lia|].
    pose proof (pos_INR (max_retries - 1 - attempt)). lra.
  - destruct (IH (S attempt)) as [Hr Hs]. simpl.
    destruct (osrm_attempts remote c1 c2 max_retries todo (S attempt)) as [v t].
    simpl in Hr, Hs.
    assert (Hmono : INR (max_retries - 1 - S attempt) <= INR (max_retries - 1 - attempt))
      by (apply le_INR; lia).
    pose proof (pos_INR (max_retries - 1 - attempt)) as Hpos.
    destruct (remote attempt); simpl.
    + split; [unfold requests; simpl; lia | lra].
    + split; [unfold requests in *; simpl; lia | lra].
    + destruct (Nat.ltb attempt (max_retries - 1)) eqn:E; simpl.
      * apply Nat.ltb_lt in E.
        replace (max_retries - 1 - attempt)%nat
          with (S (max_retries - 1 - S attempt)) by lia.
        rewrite S_INR. split; [unfold requests in *; simpl; lia | lra].
      * split; [unfold requests in *; simpl; lia | lra].
    + destruct (Nat.ltb attempt (max_retries - 1)) eqn:E; simpl.
      * apply Nat.ltb_lt in E.
        replace (max_retries - 1 - attempt)%nat
          with (S (max_retries - 1 - S attempt)) by lia.
        rewrite S_INR. split; [unfold requests in *; simpl; lia | lra].
      * split; [unfold requests in *; simpl; lia | lra].
    + split; [unfold requests; simpl; lia | lra].
Qed.

(** X17. The remote estimate is taken from the first attempt that answers
    with a route, when the attempts before it only timed out, lost the
    connection or answered without a route, and it is among the
    [max_retries] attempts allowed: the result is its distance in km and
    its duration in minutes, and no further request is made. *)
Theorem osrm_first_answer_is_used (remote : nat -> response) (c1 c2 : R * R)
    (max_retries k : nat) (meters seconds : R) :
  (k < max_retries)%nat ->
  (forall j, (j < k)%nat -> retryable (remote j)) ->
  remote k = RouteFound meters seconds ->
  fst (get_osrm_distance_time remote c1 c2 max_retries)
  = (meters / 1000, seconds / 60) /\
  requests (snd (get_osrm_distance_time remote c1 c2 max_retries)) = S k.
Proof.
  intros Hk Hretry Hfound. unfold get_osrm_distance_time.
  apply osrm_attempts_answer; auto.
Qed.

Lemma osrm_first_answer_is_used_witness :
  fst (get_osrm_distance_time
         (fun n => match n with
                   | 0%nat => TimedOut
                   | _ => RouteFound 1500 120
                   end) (0, 0) (0, 1) 3)
  = (1500 / 1000, 120 / 60) /\
  requests (snd (get_osrm_distance_time
                   (fun n => match n with
                             | 0%nat => TimedOut
                             | _ => RouteFound 1500 120
                             end) (0, 0) (0, 1) 3)) = 2%nat.
Proof.
  apply (osrm_first_answer_is_used
           (fun n => match n with
                     | 0%nat => TimedOut
                     | _ => RouteFound 1500 120
                     end) (0, 0) (0, 1) 3 1 1500 120).
  - lia.
  - intros j Hj. destruct j; [exact I | lia].
  - reflexivity.
Defined.

(** X18. A failure that is neither a timeout nor a lost connection ends
    the retries at once: the result is the fallback estimate and the
    attempts that were still allowed are not made, whatever they would
    have answered. *)
Theorem osrm_other_failure_stops_retrying (remote : nat -> response) (c1 c2 : R * R)
    (max_retries k : nat) :
  (k < max_retries)%nat ->
  (forall j, (j < k)%nat -> retryable (remote j)) ->
  remote k = Failed ->
  fst (get_osrm_distance_time remote c1 c2 max_retries) = haversine_distance c1 c2 /\
  requests (snd (get_osrm_distance_time remote c1 c2 max_retries)) = S k.
Proof.
  intros Hk Hretry Hfail. unfold get_osrm_distance_time.
  apply osrm_attempts_failure; auto.
Qed.

Lemma osrm_other_failure_stops_retrying_witness :
  fst (get_osrm_distance_time
         (fun n => match n with
                   | 0%nat => Failed
                   | _ => RouteFound 1500 120
                   end) (0, 0) (0, 1) 3)
  = haversine_distance (0, 0) (0, 1) /\
  requests (snd (get_osrm_distance_time
                   (fun n => match n with
                             | 0%nat => Failed
                             | _ => RouteFound 1500 120
                             end) (0, 0) (0, 1) 3)) = 1%nat.
Proof.
  apply (osrm_other_failure_stops_retrying
           (fun n => match n with
                     | 0%nat => Failed
                     | _ => RouteFound 1500 120
                     end) (0, 0) (0, 1) 3 0).
  - lia.
  - intros j Hj. lia.
  - reflexivity.
Defined.

(** X19. When none of the [max_retries] attempts answers with a route and
    none fails otherwise, all of them are made and the result is the
    fallback estimate. *)
Theorem osrm_exhausted_retries_fall_back (remote : nat -> response) (c1 c2 : R * R)
    (max_retries : nat) :
  (forall j, (j < max_retries)%nat -> retryable (remote j)) ->
  fst (get_osrm_distance_time remote c1 c2 max_retries) = haversine_distance c1 c2 /\
  requests (snd (get_osrm_distance_time remote c1 c2 max_retries)) = max_retries.
Proof.
  intros Hretry. unfold get_osrm_distance_time.
  apply osrm_attempts_exhausted. exact Hretry.
Qed.

Lemma osrm_exhausted_retries_fall_back_witness :
  fst (get_osrm_distance_time (fun _ => TimedOut) (0, 0) (0, 1) 3)
  = haversine_distance (0, 0) (0, 1) /\
  requests (snd (get_osrm_distance_time (fun _ => TimedOut) (0, 0) (0, 1) 3)) = 3%nat.
Proof.
  apply (osrm_exhausted_retries_fall_back (fun _ => TimedOut) (0, 0) (0, 1) 3).
  intros j _. exact I.
Defined.

(** X20. Whatever the service does, a call makes at most [max_retries]
    requests and waits at most 2 seconds between two of them, never after
    the last: at most [2 * (max_retries - 1)] seconds in all. *)
Theorem osrm_effort_is_bounded (remote : nat -> response) (c1 c2 : R * R)
    (max_retries : nat) :
  (requests (snd (get_osrm_distance_time remote c1 c2 max_retries)) <= max_retries)%nat /\
  0 <= time_slept (snd (get_osrm_distance_time remote c1 c2 max_retries))
    <= 2 * INR (max_retries - 1).
Proof.
  unfold get_osrm_distance_time.
  pose proof (osrm_attempts_effort remote c1 c2 max_retries max_retries 0) as H.
  now rewrite Nat.sub_0_r in H.
Qed.

(** ** Swapped coordinates *)

(** X21. [sanitize_coord] puts a pair back in (latitude, longitude) order
    when it can tell: if at least one of the two numbers is a possible
    latitude, the first number of the result is one, a pair whose first
    number is a possible latitude is left alone, and sanitizing again
    changes nothing. *)
Theorem sanitize_coord_restores_latitude (a b : R) :
  Rabs a <= 90 \/ Rabs b <= 90 ->
  Rabs (fst (sanitize_coord (a, b))) <= 90 /\
  (Rabs a <= 90 -> sanitize_coord (a, b) = (a, b)) /\
  sanitize_coord (sanitize_coord (a, b)) = sanitize_coord (a, b).
Proof.
  intros H. unfold sanitize_coord.
  destruct (Rlt_dec 90 (Rabs a)) as [Ha|Ha]; simpl.
  - destruct H as [H|H]; [lra|].
    split; [exact H|]. split; [lra|].
    destruct (Rlt_dec 90 (Rabs b)); [lra | reflexivity].
  - split; [lra|]. split; [reflexivity|].
    destruct (Rlt_dec 90 (Rabs a)); [contradiction | reflexivity].
Qed.

Lemma sanitize_coord_restores_latitude_witness :
  Rabs (fst (sanitize_coord (120, 45))) <= 90 /\
  (Rabs 120 <= 90 -> sanitize_coord (120, 45) = (120, 45)) /\
  sanitize_coord (sanitize_coord (120, 45)) = sanitize_coord (120, 45).
Proof.
  apply (sanitize_coord_restores_latitude 120 45).
  right. rewrite Rabs_pos_eq; lra.
Defined.

(** * The summary *)

Lemma summarize_stats_length (sol : solution) :
  forall acc s, summarize sol acc = Ok s ->
    List.length (vehicle_stats s)
    = (List.length (vehicle_stats acc) + List.length sol)%nat.
Proof.
  induction sol as [|[vid r] sol IH]; intros acc s H; simpl in H.
  - injection H as <-. simpl. lia.
  - bind_inv H. apply IH in H. simpl in H. rewrite length_app in H. simpl in *. lia.
Qed.

Lemma summarize_defined (sol : solution) :
  Forall (fun ir => snd ir <> []) sol ->
  forall acc, exists s, summarize sol acc = Ok s.
Proof.
  induction 1 as [|[vid r] sol Hr _ IH]; intros acc; simpl; [eauto|].
  simpl in Hr. destruct r as [|l0 r]; [contradiction|].
  unfold vehicle_stat_of, time_hours, elapsed_minutes. cbn [bind]. apply IH.
Qed.


Lemma vehicle_stat_of_inv (vid : nat) (r : list leg) (st : vehicle_stat) :
  vehicle_stat_of vid r = Ok st ->
  exists hours,
    time_hours r = Ok hours /\
    st_id st = vid /\ st_time st = hours /\ st_distance st = route_distance r /\
    st_route st = visited_cities r /\
    st_avg_speed st = if Rlt_dec 0 hours then route_distance r / hours else 0.
Proof.
  unfold vehicle_stat_of. intros H. bind_inv H. injection H as <-.
  exists x. simpl. auto 10.
Qed.


Lemma summarize_bottleneck (sol : solution) :
  forall acc s, summarize sol acc = Ok s -> bottleneck_ok acc -> bottleneck_ok s.
Proof.
  induction sol as [|[vid r] sol IH]; intros acc s H Hacc; simpl in H.
  - now injection H as <-.
  - bind_inv H. apply IH in H; auto. clear IH.
    apply vehicle_stat_of_inv in E. destruct E as (h & _ & Hid & _).
    destruct Hacc as (Hpos & Hall & Hb). unfold bottleneck_ok. simpl.
    destruct (Rlt_dec (max_time acc) (st_time x)) as [Hlt|Hge].
    + split; [lra|]. split.
      * apply Forall_app. split.
        -- eapply Forall_impl; [|exact Hall]. simpl. intros st Hst. lra.
        -- constructor; [lra | constructor].
      * split; [lra|]. exists x. split; [apply in_or_app; right; now left|]. auto.
    + split; [exact Hpos|]. split.
      * apply Forall_app. split; auto. constructor; [lra | constructor].
      * destruct (bottleneck_vehicle acc) as [b|]; auto.
        destruct Hb as (Hp & st & Hin & Hst). split; auto.
        exists st. split; auto. apply in_or_app. now left.
Qed.

(** X22. The summary can be computed for every plan of [run_vrptw]: the
    look-up of the first and last leg of a route never fails, because a
    plan has no empty route, and there is one line of statistics per
    vehicle of the plan. *)
Theorem summary_defined_on_plans
    (cities : list city) (m : list (list R)) (depot : city)
    (fuel : nat) (vs : list vehicle) (ds : list demand) (sol : solution) :
  run_vrptw cities m depot fuel vs ds = Ok sol ->
  exists s, generate_summary sol = Ok s /\
            List.length (vehicle_stats s) = List.length sol.
Proof.
  intros H. apply run_vrptw_state_of in H. destruct H as [d' H].
  unfold run_vrptw_state in H.
  destruct (run_vehicles_shape cities m depot fuel vs _ _ _ _ H
              (Forall_nil _) (NoDup_nil _)) as (Hne & _).
  unfold generate_summary.
  destruct (summarize_defined sol Hne
              {| total_distance := 0; max_time := 0;
                 bottleneck_vehicle := None; vehicle_stats := [] |}) as [s Hs].
  exists s. split; auto. now apply summarize_stats_length in Hs.
Qed.

Lemma summary_defined_on_plans_witness :
  exists s,
    generate_summary [(1%nat, rf_route 60 60 0); (2%nat, rf_route 60 60 30)] = Ok s /\
    List.length (vehicle_stats s)
    = List.length [(1%nat, rf_route 60 60 0); (2%nat, rf_route 60 60 30)].
Proof.
  assert (B60 : 0 < 60) by lra.
  apply (summary_defined_on_plans rf_cities (rf_matrix 60 60) "Depot"%string 2
           [rf_vehicle 1 0; rf_vehicle 2 30] rf_demands).
  unfold run_vrptw. now rewrite (rf_run_two 60 60 0 0 30 B60).
Defined.

(** X23. On a plan that holds a route without legs the summary fails with
    an index error, at the first such route. *)
Theorem summary_fails_on_empty_route (sol1 sol2 : solution) (vid : nat) :
  Forall (fun ir => snd ir <> []) sol1 ->
  generate_summary (sol1 ++ (vid, []) :: sol2) = Raise IndexError.
Proof.
  intros H. unfold generate_summary.
  generalize {| total_distance := 0; max_time := 0;
                bottleneck_vehicle := None; vehicle_stats := [] |}.
  induction H as [|[k r] sol Hr _ IH]; intros acc; simpl.
  - reflexivity.
  - simpl in Hr. destruct r as [|l0 r]; [contradiction|].
    unfold vehicle_stat_of, time_hours, elapsed_minutes. cbn [bind]. apply IH.
Qed.

Lemma summary_fails_on_empty_route_witness :
  generate_summary ([(1%nat, rf_route 60 60 0)] ++ (2%nat, []) :: []) = Raise IndexError.
Proof.
  apply (summary_fails_on_empty_route [(1%nat, rf_route 60 60 0)] [] 2).
  constructor; [simpl; discriminate | constructor].
Defined.

(** X24. The completion time of a summary is the largest elapsed time of
    a vehicle, or 0 when none is positive.  The bottleneck vehicle is one
    whose elapsed time is that positive maximum; when no vehicle has a
    positive elapsed time there is no bottleneck vehicle. *)
Theorem summary_bottleneck_is_slowest (sol : solution) (s : summary) :
  generate_summary sol = Ok s ->
  0 <= max_time s /\
  Forall (fun st => st_time st <= max_time s) (vehicle_stats s) /\
  match bottleneck_vehicle s with
  | Some vid => 0 < max_time s /\
                exists st, In st (vehicle_stats s) /\ st_id st = vid /\
                           st_time st = max_time s
  | None => max_time s = 0
  end.
Proof.
  intros H. unfold generate_summary in H.
  apply summarize_bottleneck in H; auto.
  unfold bottleneck_ok. simpl. split; [lra|]. split; [constructor | reflexivity].
Qed.


Lemma summary_bottleneck_is_slowest_witness :
  exists s,
    generate_summary [(1%nat, rf_route 60 60 0)] = Ok s /\
    0 <= max_time s /\
    Forall (fun st => st_time st <= max_time s) (vehicle_stats s) /\
    match bottleneck_vehicle s with
    | Some vid => 0 < max_time s /\
                  exists st, In st (vehicle_stats s) /\ st_id st = vid /\
                             st_time st = max_time s
    | None => max_time s = 0
    end.
Proof.
  eexists. split; [reflexivity|].
  apply (summary_bottleneck_is_slowest [(1%nat, rf_route 60 60 0)]). reflexivity.
Defined.


(** ** The cities of a route *)

Lemma existsb_eqb_In (c : city) (l : list city) :
  existsb (String.eqb c) l = true <-> In c l.
Proof.
  rewrite existsb_exists. split.
  - intros (x & Hin & E). apply String.eqb_eq in E. now subst.
  - intros H. exists c. split; auto. apply String.eqb_refl.
Qed.

Lemma add_visit_In (visited : list city) (c x : city) :
  In x (add_visit visited c) <-> In x visited \/ x = c.
Proof.
  unfold add_visit. destruct (existsb (String.eqb c) visited) eqn:E.
  - apply existsb_eqb_In in E. split; [auto|]. intros [H| ->]; auto.
  - rewrite in_app_iff. simpl. split.
    + intros [H|[<-|[]]]; auto.
    + intros [H| ->]; auto.
Qed.

Lemma add_visit_NoDup (visited : list city) (c : city) :
  NoDup visited -> NoDup (add_visit visited c).
Proof.
  intros H. unfold add_visit. destruct (existsb (String.eqb c) visited) eqn:E; auto.
  apply NoDup_app; auto.
  - repeat constructor. intros [].
  - intros x Hx [<-|[]]. apply existsb_eqb_In in Hx. congruence.
Qed.

(** X27. The list of cities shown for a vehicle names each city once, and
    names exactly the cities some leg of its route leaves from or goes
    to. *)
Theorem visited_cities_spec (r : list leg) :
  NoDup (visited_cities r) /\
  forall c, In c (visited_cities r) <->
            exists l, In l r /\ (l_from l = c \/ l_to l = c).
Proof.
  unfold visited_cities.
  assert (G : forall acc,
            NoDup acc ->
            NoDup (fold_left (fun visited l =>
                                add_visit (add_visit visited (l_from l)) (l_to l)) r acc) /\
            forall c, In c (fold_left (fun visited l =>
                                add_visit (add_visit visited (l_from l)) (l_to l)) r acc)
                      <-> In c acc \/ exists l, In l r /\ (l_from l = c \/ l_to l = c)).
  { induction r as [|l r IH]; intros acc Hacc; simpl.
    - split; auto. intros c. split; auto. intros [H|(l & [] & _)]. exact H.
    - destruct (IH (add_visit (add_visit acc (l_from l)) (l_to l))) as [Hnd Hin].
      { now repeat apply add_visit_NoDup. }
      split; auto. intros c. rewrite Hin, !add_visit_In. split.
      + intros [[[H|H]|H]|(l' & Hl' & H)].
        * now left.
        * right. exists l. split; [now left | left; now symmetry].
        * right. exists l. split; [now left | right; now symmetry].
        * right. exists l'. split; [now right | exact H].
      + intros [H|(l' & [<-|Hl'] & H)].
        * left. left. now left.
        * left. destruct H as [<-|<-]; [left; now right | now right].
        * right. exists l'. split; auto. }
  destruct (G [] (NoDup_nil _)) as [Hnd Hin]. split; auto.
  intros c. rewrite Hin. simpl. split; [intros [[]|H]; exact H | auto].
Qed.

(** ** How legs are shown *)

Lemma step_leg_kinds (cities : list city) (m : list (list R)) (depot : city)
    (v : vehicle) (c : city) (s s' : sim) :
  Forall (leg_kind_ok depot) (route s) ->
  body_step cities m depot v c s s' ->
  Forall (leg_kind_ok depot) (route s').
Proof.
  intros Hf Hs.
  destruct Hs as [rem tm d Hg Hr Hcap Ht Hd | rem back t2 d Hg Hr Hcap Hb Ht Hle Hd];
    simpl; apply Forall_app; (split; [exact Hf|]); constructor; auto;
    unfold leg_kind_ok; simpl.
  - left. now apply Rmin_pos_pos.
  - right. auto.
Qed.

(** X28. How the legs of a route of [simulate_vehicle] are shown in the
    route text: a leg shown as a delivery carries a positive quantity and
    has its unload line, and a leg without an unload line is shown as a
    refill or return and has no unloading time. *)
Theorem shown_deliveries_unload
    (cities : list city) (m : list (list R)) (depot : city)
    (fuel : nat) (v : vehicle) (d : store) (r : list leg) (d' : store) (l : leg) :
  simulate_vehicle cities m depot fuel v d = Ok (r, d') ->
  In l r ->
  (tag_of depot l = Delivery -> shows_unload l = true /\ 0 < l_deliver l) /\
  (shows_unload l = false -> tag_of depot l = RefillReturn /\ l_unload l = 0).
Proof.
  intros H Hin. apply simulate_inv in H. destruct H as (s & s' & Hf & Hc & -> & _).
  apply for_cities_visits in Hf.
  assert (Hk : Forall (leg_kind_ok depot) (route s)).
  { revert Hf. apply (visits_invariant cities m depot
                        (fun s => Forall (leg_kind_ok depot) (route s))).
    - constructor.
    - intros c s1 s2. apply step_leg_kinds. }
  assert (Hk' : Forall (leg_kind_ok depot) (route s')).
  { apply close_route_inv in Hc.
    destruct Hc as [[_ ->] | [_ (back & km & _ & _ & ->)]]; auto.
    simpl. apply Forall_app. split; auto. constructor; auto.
    right. simpl. auto. }
  rewrite Forall_forall in Hk'. specialize (Hk' l Hin).
  unfold tag_of, shows_unload.
  destruct Hk' as [Hpos|(Hz & Hu & Ht)].
  - destruct (Rlt_dec 0 (l_deliver l)); [|contradiction].
    split; [auto | discriminate].
  - rewrite Ht, String.eqb_refl. split; [discriminate | auto].
Qed.

Lemma shown_deliveries_unload_witness :
  (tag_of "Depot"%string (rf_leg_out 60 0) = Delivery ->
   shows_unload (rf_leg_out 60 0) = true /\ 0 < l_deliver (rf_leg_out 60 0)) /\
  (shows_unload (rf_leg_out 60 0) = false ->
   tag_of "Depot"%string (rf_leg_out 60 0) = RefillReturn /\
   l_unload (rf_leg_out 60 0) = 0).
Proof.
  assert (B60 : 0 < 60) by lra.
  assert (Q : 10 < 1000) by lra.
  apply (shown_deliveries_unload rf_cities (rf_matrix 60 60) "Depot"%string 2
           (rf_vehicle 1 0) [("City"%string, 1000)] (rf_route 60 60 0)
           [("City"%string, 1000 - 10)] (rf_leg_out 60 0)
           (rf_simulate_eval 60 60 0 1 0 1000 B60 Q)).
  left. reflexivity.
Defined.

(** * Reading the vehicle rows *)

Lemma increasing_from_weaken (lo lo' : nat) (l : list nat) :
  (lo' <= lo)%nat -> increasing_from lo l -> increasing_from lo' l.
Proof. destruct l as [|x l]; simpl; auto. intros H [H1 H2]. split; auto. lia. Qed.

Lemma increasing_from_bounds (lo : nat) (l : list nat) :
  increasing_from lo l -> Forall (fun x => (lo <= x)%nat) l /\ NoDup l.
Proof.
  revert lo. induction l as [|x l IH]; intros lo H; simpl in H.
  - split; constructor.
  - destruct H as [Hx Hl]. destruct (IH _ Hl) as [Hall Hnd]. split.
    + constructor; auto. eapply Forall_impl; [|exact Hall]. simpl. intros; lia.
    + constructor; auto. intros Hin. rewrite Forall_forall in Hall.
      apply Hall in Hin. lia.
Qed.

Section ParsingFacts.
Variable char : Type.
Variable char_eqb : char -> char -> bool.
Variable is_space : char -> bool.
Variable comma : char.
Variable line_feed : char.
Variable to_float : list char -> option R.

Abbreviation of_line := (vehicle_of_line char char_eqb is_space comma to_float).

Lemma vehicle_of_line_id (i : nat) (line : list char) (r : vehicle_row char) :
  In r (of_line i line) -> of_line i line = [r] /\ row_id char r = (i + 1)%nat.
Proof.
  unfold vehicle_of_line. destruct (strip char is_space line) as [|c l]; [intros []|].
  destruct (Nat.leb 3 _); [|intros []].
  destruct (to_float _); [|intros []].
  intros [<-|[]]. auto.
Qed.

Lemma lines_ids (lines : list (list char)) (a : nat) :
  increasing_from (S a)
    (map (row_id char)
         (flat_map (fun il => of_line (fst il) (snd il))
                   (combine (seq a (List.length lines)) lines))) /\
  Forall (fun x => (x <= a + List.length lines)%nat)
    (map (row_id char)
         (flat_map (fun il => of_line (fst il) (snd il))
                   (combine (seq a (List.length lines)) lines))).
Proof.
  revert a. induction lines as [|line lines IH]; intros a; simpl.
  - split; [exact I | constructor].
  - destruct (IH (S a)) as [Hinc Hb].
    assert (Hb' : Forall (fun x => (x <= a + S (List.length lines))%nat)
                    (map (row_id char)
                       (flat_map (fun il => of_line (fst il) (snd il))
                          (combine (seq (S a) (List.length lines)) lines)))).
    { eapply Forall_impl; [|exact Hb]. simpl. intros; lia. }
    destruct (of_line a line) as [|r rs] eqn:E.
    + simpl. split; auto. eapply increasing_from_weaken; [|exact Hinc]. lia.
    + destruct (vehicle_of_line_id a line r) as [Hone Hid].
      { rewrite E. now left. }
      rewrite E in Hone. injection Hone as ->. simpl. rewrite Hid. split.
      * split; [lia|]. eapply increasing_from_weaken; [|exact Hinc]. lia.
      * constructor; [lia | exact Hb'].
Qed.

Lemma in_combine_seq {A : Type} (l : list A) (a i : nat) (x : A) :
  In (i, x) (combine (seq a (List.length l)) l)
  <-> (a <= i)%nat /\ nth_error l (i - a) = Some x.
Proof.
  revert a. induction l as [|y l IH]; intros a; cbn [List.length seq combine].
  - split; [intros [] | intros [_ H]; destruct (i - a)%nat; discriminate].
  - cbn [In]. rewrite IH. split.
    + intros [E | [Hle Hn]].
      * injection E as <- <-. rewrite Nat.sub_diag. split; [lia | reflexivity].
      * split; [lia|]. replace (i - a)%nat with (S (i - S a)) by lia. exact Hn.
    + intros [Hle Hn]. destruct (Nat.eq_dec a i) as [<- | Hne].
      * rewrite Nat.sub_diag in Hn. left. cbn in Hn. now injection Hn as <-.
      * right. split; [lia|].
        replace (i - a)%nat with (S (i - S a)) in Hn by lia. exact Hn.
Qed.

(** The rows are those of the lines that give one, each with the number of
    its line counted from 1. *)
Lemma lines_rows (lines : list (list char)) (r : vehicle_row char) :
  In r (flat_map (fun il => of_line (fst il) (snd il)) (enumerate lines))
  <-> exists i line, nth_error lines i = Some line /\
                     of_line i line = [r] /\ row_id char r = (i + 1)%nat.
Proof.
  unfold enumerate. rewrite in_flat_map. split.
  - intros [[i line] [Hin Hr]]. cbn [fst snd] in Hr.
    apply in_combine_seq in Hin. destruct Hin as [_ Hn].
    rewrite Nat.sub_0_r in Hn.
    destruct (vehicle_of_line_id i line r Hr) as [Hone Hid].
    exists i, line. auto.
  - intros (i & line & Hn & Hone & _). exists (i, line). split.
    + apply in_combine_seq. rewrite Nat.sub_0_r. split; [lia | exact Hn].
    + cbn [fst snd]. rewrite Hone. now left.
Qed.

End ParsingFacts.

(** X29. The identifier [process_vehicles] gives a vehicle is the number
    of its line in the stripped text, counted from 1 with blank and
    rejected lines counted too: the rows are exactly those that the lines
    give, line [i] (from 0) giving at most one row, with identifier
    [i + 1]; so the identifiers are strictly increasing, no two vehicles
    share one, and none exceeds the number of lines. *)
Theorem process_vehicles_ids
    (char : Type) (char_eqb : char -> char -> bool) (is_space : char -> bool)
    (comma line_feed : char) (to_float : list char -> option R)
    (vehicle_data : list char) :
  let rows := process_vehicles char char_eqb is_space comma line_feed to_float
                vehicle_data in
  let lines := split char char_eqb line_feed (strip char is_space vehicle_data) in
  (forall r, In r rows <->
     exists i line,
       nth_error lines i = Some line /\
       vehicle_of_line char char_eqb is_space comma to_float i line = [r] /\
       row_id char r = (i + 1)%nat) /\
  increasing_from 1 (map (row_id char) rows) /\
  NoDup (map (row_id char) rows) /\
  Forall (fun x => (1 <= x <= List.length lines)%nat) (map (row_id char) rows).
Proof.
  unfold process_vehicles.
  destruct (strip char is_space vehicle_data) as [|c data] eqn:E.
  - cbv zeta. split; [|repeat split; constructor].
    intros r. split; [intros []|].
    intros (i & line & Hn & Hone & _). exfalso.
    cbn [split] in Hn. destruct i as [|[|i]]; cbn in Hn; try discriminate.
    injection Hn as <-. unfold vehicle_of_line in Hone.
    cbn [strip lstrip rev app] in Hone. discriminate.
  - unfold enumerate.
    destruct (lines_ids char char_eqb is_space comma to_float
                (split char char_eqb line_feed (c :: data)) 0) as [Hinc Hb].
    destruct (increasing_from_bounds _ _ Hinc) as [Hlo Hnd].
    cbv zeta. split; [|split; [exact Hinc | split; [exact Hnd|]]].
    + intros r. apply (lines_rows char char_eqb is_space comma to_float).
    + rewrite Forall_forall in *. intros x Hx.
      specialize (Hlo x Hx). specialize (Hb x Hx). cbv beta in Hb, Hlo. lia.
Qed.
